(** * Doubly linked base, deque and positional list (ch07/doubleLinkNode.py)

    A shallow embedding of the three classes of [doubleLinkNode.py] over an
    explicit object store, and the properties of the positional list that
    the specification states about them.

    Python objects are references into a store.  Node objects and list
    objects live in two arrays that only grow (Python never reuses a live
    object; garbage collection is not observable).  Every method is a
    computation that threads the store and may raise a Python exception;
    the store is kept as it is when an exception is raised, exactly as an
    interrupted Python method leaves the heap.

    Class _Node declares [__slots__], so which attributes a node may hold
    is part of the program.  The methods are embedded once, for an
    arbitrary declaration; [Node_slots] is the tuple written in the source
    and [init_slots] the names that [_Node.__init__] assigns.  The two
    differ in the first name, and with [Node_slots] no node can be created
    (see [source_store_empty] and claim C9).  The claims are settled on
    [Node_slots], the program as it stands.  What the methods do under a
    declaration that admits [_element] is proved as well (module
    [Intended] and the laws after the claims): it is what the docstrings
    announce, and it shows what the one wrong name costs.

    The deque raises [Empty], a name that the file never binds; the
    methods are embedded with the NameError that Python raises for it.

    The development then covers what surrounds the three classes: the
    behaviour of each method on the stores that programs can reach, the
    function [pq_sort] of ch09/pq_sort.py, which sorts a positional list
    through a priority queue, and the array stack of ch06/arrayStack.py
    with the two delimiter matchers built on it. *)

From Stdlib Require Import ZArith Lia Ascii.
From stdpp Require Import base tactics decidable option list sets strings.

#[local] Set Warnings "-clear-no-such-hyp".

Open Scope string_scope.
Open Scope list_scope.

(** ** Python values, exceptions and the method monad *)

(** Elements stored in a container.  The classes never inspect an element,
    so a small universe of payloads is enough; [PyNone] is Python's [None]. *)
Inductive value :=
  | PyNone
  | PyInt (z : Z)
  | PyStr (s : string).

#[global] Instance value_eq_dec : EqDecision value.
Proof. solve_decision. Defined.

(** References.  A node reference is an index into the node array, a list
    reference an index into the array of list objects.  A Python variable
    or attribute that holds "a node or None" is a [ref]. *)
Abbreviation loc := nat.
Abbreviation lref := nat.
Abbreviation ref := (option loc).

(** The exceptions that are raised.  [AttributeError cls attr] is Python's
    own error for an attribute [attr] that an object of class [cls] lacks,
    and [NameError name] its error for a name that is bound nowhere.
    [Empty] is the exception class that ch06/arrayStack.py defines;
    doubleLinkNode.py neither defines nor imports it. *)
Inductive exn :=
  | TypeError (msg : string)
  | ValueError (msg : string)
  | AttributeError (cls attr : string)
  | NameError (name : string)
  | Empty (msg : string).

#[global] Instance exn_eq_dec : EqDecision exn.
Proof. solve_decision. Defined.

(** Outcome of a method call.  [Stuck] is not a Python behaviour: it marks
    a read through a reference that was never allocated, which no Python
    execution produces. *)
Inductive outcome (A : Type) :=
  | Ok (a : A)
  | Raise (e : exn)
  | Stuck.
Arguments Ok {A} a.
Arguments Raise {A} e.
Arguments Stuck {A}.

(** class _Node: the three attributes the methods read and write. *)
Record Node := mkNode {
  _element : value;
  _prev : ref;
  _next : ref
}.

(** Assignment to one attribute of a node. *)
Definition with_element (v : value) (nd : Node) : Node :=
  mkNode v (_prev nd) (_next nd).
Definition with_prev (x : ref) (nd : Node) : Node :=
  mkNode (_element nd) x (_next nd).
Definition with_next (x : ref) (nd : Node) : Node :=
  mkNode (_element nd) (_prev nd) x.

(** An instance of _DoublyLinkedBase (a LinkedDeque or a PositionalList). *)
Record DLB := mkDLB {
  _header : loc;
  _trailer : loc;
  _size : Z
}.

(** [self._size += k] on a list object. *)
Definition grow (k : Z) (d : DLB) : DLB :=
  mkDLB (_header d) (_trailer d) (_size d + k)%Z.

(** class PositionalList.Position.  Positions are never mutated, so a
    Position object is its pair of attributes. *)
Record Position := mkPosition {
  _container : lref;
  _node : ref
}.

#[global] Instance Position_eq_dec : EqDecision Position.
Proof. solve_decision. Defined.

(** An argument passed where a Position is expected: a Position, or some
    other Python object. *)
Inductive pyobj :=
  | OPos (p : Position)
  | OVal (v : value).

Record world := mkWorld {
  nodes : list Node;
  objs : list DLB
}.

Definition empty_world : world := mkWorld [] [].

Definition M (A : Type) : Type := world -> outcome A * world.

Definition ret {A} (a : A) : M A := fun w => (Ok a, w).
Definition raise {A} (e : exn) : M A := fun w => (Raise e, w).
Definition bind {A B} (m : M A) (k : A -> M B) : M B :=
  fun w =>
    match m w with
    | (Ok a, w') => k a w'
    | (Raise e, w') => (Raise e, w')
    | (Stuck, w') => (Stuck, w')
    end.

Notation "'let!' x ':=' m 'in' k" := (bind m (fun x => k))
  (at level 10, x name, m at level 100, k at level 200).
Notation "m ';;;' k" := (bind m (fun _ => k))
  (at level 100, k at level 200, right associativity).

(** The tuple assigned to [__slots__] in class _Node (line 6). *)
Definition Node_slots : list string := ["element"; "_prev"; "_next"].

(** ** class _DoublyLinkedBase *)
Module DoublyLinkedBase.
Section Layout.
(** The attribute names that instances of _Node admit.  A class that
    declares [__slots__] and has no other base than [object] gives its
    instances no [__dict__]: reading or assigning any other attribute
    raises AttributeError.  The methods are written once for an
    arbitrary declaration; [Node_slots] is the one in the source. *)
Variable slots : list string.

Definition admits (attr : string) : bool := bool_decide (attr ∈ slots).

(** [r.attr] for a node reference (or None) [r]. *)
Definition node_get {T} (attr : string) (proj : Node -> T) (r : ref) : M T :=
  fun w =>
    match r with
    | None => (Raise (AttributeError "NoneType" attr), w)
    | Some l =>
        if admits attr then
          match nodes w !! l with
          | Some nd => (Ok (proj nd), w)
          | None => (Stuck, w)
          end
        else (Raise (AttributeError "_Node" attr), w)
    end.

(** [r.attr = ...] for a node reference (or None) [r]. *)
Definition node_set (attr : string) (upd : Node -> Node) (r : ref) : M unit :=
  fun w =>
    match r with
    | None => (Raise (AttributeError "NoneType" attr), w)
    | Some l =>
        if admits attr then
          match nodes w !! l with
          | Some _ => (Ok tt, mkWorld (alter upd l (nodes w)) (objs w))
          | None => (Stuck, w)
          end
        else (Raise (AttributeError "_Node" attr), w)
    end.

Definition get_element : ref -> M value := node_get "_element" _element.
Definition get_prev : ref -> M ref := node_get "_prev" _prev.
Definition get_next : ref -> M ref := node_get "_next" _next.

Definition set_element (r : ref) (v : value) : M unit :=
  node_set "_element" (with_element v) r.
Definition set_prev (r : ref) (x : ref) : M unit :=
  node_set "_prev" (with_prev x) r.
Definition set_next (r : ref) (x : ref) : M unit :=
  node_set "_next" (with_next x) r.

(** _Node.__init__ (lines 8-11): three attribute assignments on the new
    object.  When one of them raises, the object is unreachable, so the
    store is left as it was. *)
Definition Node__init__ (element : value) (prev next : ref) : M loc :=
  fun w =>
    if admits "_element" then
      if admits "_prev" then
        if admits "_next" then
          (Ok (length (nodes w)),
           mkWorld (nodes w ++ [mkNode element prev next]) (objs w))
        else (Raise (AttributeError "_Node" "_next"), w)
      else (Raise (AttributeError "_Node" "_prev"), w)
    else (Raise (AttributeError "_Node" "_element"), w).

(** Attributes of a list object ([self._header], [self._trailer],
    [self._size]); list objects have an ordinary [__dict__]. *)
Definition obj (L : lref) : M DLB :=
  fun w =>
    match objs w !! L with
    | Some d => (Ok d, w)
    | None => (Stuck, w)
    end.

(** [self._size += k] *)
Definition size_add (L : lref) (k : Z) : M unit :=
  fun w =>
    match objs w !! L with
    | Some _ =>
        (Ok tt, mkWorld (nodes w)
           (alter (grow k) L (objs w)))
    | None => (Stuck, w)
    end.

(** __init__ (lines 13-19) *)
Definition __init__ : M lref :=
  let! header := Node__init__ PyNone None None in
  let! trailer := Node__init__ PyNone None None in
  set_next (Some header) (Some trailer) ;;;
  set_prev (Some trailer) (Some header) ;;;
  fun w => (Ok (length (objs w)),
            mkWorld (nodes w) (objs w ++ [mkDLB header trailer 0%Z])).

(** __len__ (lines 21-23) *)
Definition __len__ (L : lref) : M Z :=
  let! d := obj L in ret (_size d).

(** is_empty (lines 25-27) *)
Definition is_empty (L : lref) : M bool :=
  let! d := obj L in ret (Z.eqb (_size d) 0%Z).

(** _insert_between (lines 29-35) *)
Definition _insert_between (L : lref) (e : value) (predecessor successor : ref)
  : M loc :=
  let! newest := Node__init__ e predecessor successor in
  set_next predecessor (Some newest) ;;;
  set_prev successor (Some newest) ;;;
  size_add L 1%Z ;;;
  ret newest.

(** _delete_node (lines 37-46) *)
Definition _delete_node (L : lref) (node : ref) : M value :=
  let! predecessor := get_prev node in
  let! successor := get_next node in
  set_next predecessor successor ;;;
  set_prev successor predecessor ;;;
  size_add L (-1)%Z ;;;
  let! element := get_element node in
  set_prev node None ;;;
  set_next node None ;;;
  set_element node PyNone ;;;
  ret element.
End Layout.
End DoublyLinkedBase.

(** ** class LinkedDeque *)
Module LinkedDeque.
Import DoublyLinkedBase.
Section Layout.
Variable slots : list string.

(** [raise Empty('Deque is empty.')] (lines 54, 60, 77 and 86).  The name
    [Empty] is bound nowhere in doubleLinkNode.py, so evaluating it raises
    NameError before any exception object is built. *)
Definition raise_Empty {A} (msg : string) : M A := raise (NameError "Empty").

(** first (lines 51-55) *)
Definition first (L : lref) : M value :=
  let! b := is_empty L in
  if b then raise_Empty "Deque is empty."
  else
    let! d := obj L in
    let! n := get_next slots (Some (_header d)) in
    get_element slots n.

(** last (lines 57-61) *)
Definition last (L : lref) : M value :=
  let! b := is_empty L in
  if b then raise_Empty "Deque is empty."
  else
    let! d := obj L in
    let! n := get_prev slots (Some (_trailer d)) in
    get_element slots n.

(** insert_first (lines 63-65); the method returns None *)
Definition insert_first (L : lref) (e : value) : M unit :=
  let! d := obj L in
  let! succ := get_next slots (Some (_header d)) in
  _insert_between slots L e (Some (_header d)) succ ;;;
  ret tt.

(** insert_last (lines 67-69) *)
Definition insert_last (L : lref) (e : value) : M unit :=
  let! d := obj L in
  let! pred := get_prev slots (Some (_trailer d)) in
  _insert_between slots L e pred (Some (_trailer d)) ;;;
  ret tt.

(** delete_first (lines 71-78) *)
Definition delete_first (L : lref) : M value :=
  let! b := is_empty L in
  if b then raise_Empty "Deque is empty."
  else
    let! d := obj L in
    let! n := get_next slots (Some (_header d)) in
    _delete_node slots L n.

(** delete_last (lines 80-87) *)
Definition delete_last (L : lref) : M value :=
  let! b := is_empty L in
  if b then raise_Empty "Deque is empty."
  else
    let! d := obj L in
    let! n := get_prev slots (Some (_trailer d)) in
    _delete_node slots L n.
End Layout.
End LinkedDeque.

(** ** class PositionalList *)
Module PositionalList.
Import DoublyLinkedBase.
Section Layout.
Variable slots : list string.

(** Position.element (lines 100-102) *)
Definition element (p : Position) : M value :=
  get_element slots (_node p).

(** Position.__eq__ (lines 104-106): [other] is a Position and its node
    is the very node of [self]. *)
Definition __eq__ (self : Position) (other : pyobj) : bool :=
  match other with
  | OPos q => bool_decide (_node q = _node self)
  | OVal _ => false
  end.

(** Position.__ne__ (lines 108-110) *)
Definition __ne__ (self : Position) (other : pyobj) : bool :=
  negb (__eq__ self other).

(** _validate (lines 115-123) *)
Definition _validate (L : lref) (p : pyobj) : M ref :=
  match p with
  | OVal _ => raise (TypeError "p must be proper Position type.")
  | OPos p =>
      if bool_decide (_container p = L) then
        let! nx := get_next slots (_node p) in
        match nx with
        | None => raise (ValueError "p is no longer valid.")
        | Some _ => ret (_node p)
        end
      else raise (ValueError "p does not belong to this container.")
  end.

(** _make_position (lines 125-130); the result is a Position or None *)
Definition _make_position (L : lref) (node : ref) : M (option Position) :=
  let! d := obj L in
  if bool_decide (node = Some (_header d)) || bool_decide (node = Some (_trailer d))
  then ret None
  else ret (Some (mkPosition L node)).

(** first (lines 133-135) *)
Definition first (L : lref) : M (option Position) :=
  let! d := obj L in
  let! n := get_next slots (Some (_header d)) in
  _make_position L n.

(** last (lines 137-139) *)
Definition last (L : lref) : M (option Position) :=
  let! d := obj L in
  let! n := get_prev slots (Some (_trailer d)) in
  _make_position L n.

(** before (lines 141-144) *)
Definition before (L : lref) (p : pyobj) : M (option Position) :=
  let! node := _validate L p in
  let! n := get_prev slots node in
  _make_position L n.

(** after (lines 146-149) *)
Definition after (L : lref) (p : pyobj) : M (option Position) :=
  let! node := _validate L p in
  let! n := get_next slots node in
  _make_position L n.

(** __iter__ (lines 151-156).  The generator is modelled by the list of
    the values it yields when it is run to exhaustion; [None] means that
    [fuel] turns of the loop did not reach the end. *)
Fixpoint iter_from (fuel : nat) (L : lref) (cursor : option Position) (w : world)
  : option (outcome (list value)) :=
  match cursor with
  | None => Some (Ok [])
  | Some c =>
      match fuel with
      | O => None
      | S fuel' =>
          match element c w with
          | (Ok x, w1) =>
              match after L (OPos c) w1 with
              | (Ok c', w2) =>
                  match iter_from fuel' L c' w2 with
                  | Some (Ok xs) => Some (Ok (x :: xs))
                  | r => r
                  end
              | (Raise e, _) => Some (Raise e)
              | (Stuck, _) => Some Stuck
              end
          | (Raise e, _) => Some (Raise e)
          | (Stuck, _) => Some Stuck
          end
      end
  end.

Definition __iter__ (fuel : nat) (L : lref) (w : world)
  : option (outcome (list value)) :=
  match first L w with
  | (Ok cursor, w1) => iter_from fuel L cursor w1
  | (Raise e, _) => Some (Raise e)
  | (Stuck, _) => Some Stuck
  end.

(** _insert_between (lines 160-163): the override wraps the new node *)
Definition _insert_between (L : lref) (e : value) (predecessor successor : ref)
  : M (option Position) :=
  let! node := DoublyLinkedBase._insert_between slots L e predecessor successor in
  _make_position L (Some node).

(** add_first (lines 165-167) *)
Definition add_first (L : lref) (e : value) : M (option Position) :=
  let! d := obj L in
  let! succ := get_next slots (Some (_header d)) in
  _insert_between L e (Some (_header d)) succ.

(** add_last (lines 169-171) *)
Definition add_last (L : lref) (e : value) : M (option Position) :=
  let! d := obj L in
  let! pred := get_prev slots (Some (_trailer d)) in
  _insert_between L e pred (Some (_trailer d)).

(** add_before (lines 173-176) *)
Definition add_before (L : lref) (p : pyobj) (e : value) : M (option Position) :=
  let! original := _validate L p in
  let! pred := get_prev slots original in
  _insert_between L e pred original.

(** add_after (lines 178-181) *)
Definition add_after (L : lref) (p : pyobj) (e : value) : M (option Position) :=
  let! original := _validate L p in
  let! succ := get_next slots original in
  _insert_between L e original succ.

(** delete (lines 183-186) *)
Definition delete (L : lref) (p : pyobj) : M value :=
  let! original := _validate L p in
  _delete_node slots L original.

(** replace (lines 188-196) *)
Definition replace (L : lref) (p : pyobj) (e : value) : M value :=
  let! original := _validate L p in
  let! old_value := get_element slots original in
  set_element slots original e ;;;
  ret old_value.
End Layout.
End PositionalList.

(** The attribute names that _Node.__init__ assigns.  This is not the
    declaration of the source ([Node_slots] is): it is the one under which
    nodes can be created, used to run the methods where the source cannot
    go. *)
Definition init_slots : list string := ["_element"; "_prev"; "_next"].


(** ** Sequences of calls

    A caller that goes on after a failed call: the exception is caught,
    the store stays as the interrupted method left it. *)

Inductive insertion :=
  | InsFirst (e : value)
  | InsLast (e : value)
  | InsBefore (p : pyobj) (e : value)
  | InsAfter (p : pyobj) (e : value).

Definition insert_step (slots : list string) (L : lref) (i : insertion)
  : M (option Position) :=
  match i with
  | InsFirst e => PositionalList.add_first slots L e
  | InsLast e => PositionalList.add_last slots L e
  | InsBefore p e => PositionalList.add_before slots L p e
  | InsAfter p e => PositionalList.add_after slots L p e
  end.

Fixpoint run_insertions (slots : list string) (L : lref) (ins : list insertion)
  (w : world) : world :=
  match ins with
  | [] => w
  | i :: ins' => run_insertions slots L ins' (snd (insert_step slots L i w))
  end.

Inductive op :=
  | AddFirst (e : value)
  | AddLast (e : value)
  | Delete (i : nat)
  | DeleteFirst
  | DeleteLast.

(** A Python value returned where a Position or None is expected, passed on
    as an argument. *)
Definition as_arg (q : option Position) : pyobj :=
  match q with
  | Some p => OPos p
  | None => OVal PyNone
  end.

(** State of a caller that runs a script of [op]s on one list: the store,
    the values the [add_*] calls returned so far (in order), and the number
    of [delete] calls that returned.  [Delete i] is [delete] of the value
    returned by the [i]-th add (of None when there is none); the same value
    may be passed again.  [DeleteFirst] is [delete(first())] and
    [DeleteLast] is [delete(last())].  A list that starts empty has no
    other Position: the ones that [first], [last], [before] and [after]
    return have the container and the node of one returned by an add. *)
Record script_state := mkScript {
  sc_world : world;
  sc_handles : list pyobj;
  sc_deleted : Z
}.

Definition returned (r : outcome (option Position)) : pyobj :=
  match r with
  | Ok q => as_arg q
  | _ => OVal PyNone
  end.

Definition run_delete (slots : list string) (L : lref) (a : pyobj)
  (st : script_state) : script_state :=
  let r := PositionalList.delete slots L a (sc_world st) in
  mkScript (snd r) (sc_handles st)
    (match fst r with Ok _ => sc_deleted st + 1 | _ => sc_deleted st end)%Z.

Definition run_op (slots : list string) (L : lref) (st : script_state) (o : op)
  : script_state :=
  match o with
  | AddFirst e =>
      let r := PositionalList.add_first slots L e (sc_world st) in
      mkScript (snd r) (sc_handles st ++ [returned (fst r)]) (sc_deleted st)
  | AddLast e =>
      let r := PositionalList.add_last slots L e (sc_world st) in
      mkScript (snd r) (sc_handles st ++ [returned (fst r)]) (sc_deleted st)
  | Delete i =>
      run_delete slots L (default (OVal PyNone) (sc_handles st !! i)) st
  | DeleteFirst =>
      let q := PositionalList.first slots L (sc_world st) in
      run_delete slots L (returned (fst q))
        (mkScript (snd q) (sc_handles st) (sc_deleted st))
  | DeleteLast =>
      let q := PositionalList.last slots L (sc_world st) in
      run_delete slots L (returned (fst q))
        (mkScript (snd q) (sc_handles st) (sc_deleted st))
  end.

Definition run_ops (slots : list string) (L : lref) (ops : list op)
  (st : script_state) : script_state :=
  fold_left (run_op slots L) ops st.

Definition is_add (o : op) : bool :=
  match o with
  | AddFirst _ | AddLast _ => true
  | Delete _ | DeleteFirst | DeleteLast => false
  end.

Definition count_adds (ops : list op) : Z :=
  Z.of_nat (length (filter is_add ops)).

(** The chain of [after] calls that starts from [first()]: the Positions
    [first()], [after(first())], ... up to the call that returns None.
    [None] means that [fuel] calls did not reach the end. *)
Fixpoint chain_from (slots : list string) (fuel : nat) (L : lref)
  (cursor : option Position) (w : world) : option (outcome (list Position)) :=
  match cursor with
  | None => Some (Ok [])
  | Some c =>
      match fuel with
      | O => None
      | S fuel' =>
          match PositionalList.after slots L (OPos c) w with
          | (Ok c', w1) =>
              match chain_from slots fuel' L c' w1 with
              | Some (Ok ps) => Some (Ok (c :: ps))
              | r => r
              end
          | (Raise e, _) => Some (Raise e)
          | (Stuck, _) => Some Stuck
          end
      end
  end.

Definition after_chain (slots : list string) (fuel : nat) (L : lref) (w : world)
  : option (outcome (list Position)) :=
  match PositionalList.first slots L w with
  | (Ok cursor, w1) => chain_from slots fuel L cursor w1
  | (Raise e, _) => Some (Raise e)
  | (Stuck, _) => Some Stuck
  end.

(** ** The shape of the stores that the classes build

    The layout of a store is described with ghost data: for each list
    object the sequence of its real nodes, from the one after the header
    to the one before the trailer, and for each node object the list that
    allocated it and as what. *)

Inductive role :=
  | RHeader (L : lref)
  | RTrailer (L : lref)
  | RReal (L : lref).

Definition role_list (r : role) : lref :=
  match r with
  | RHeader L | RTrailer L | RReal L => L
  end.

Record ghost := mkGhost {
  chains : list (list loc);
  owner : list role
}.

Definition nxt (h : list Node) (l : loc) : option ref := _next <$> h !! l.
Definition prv (h : list Node) (l : loc) : option ref := _prev <$> h !! l.

(** Consecutive nodes of [xs] are linked in both directions. *)
Fixpoint path (h : list Node) (xs : list loc) : Prop :=
  match xs with
  | x :: tl =>
      match tl with
      | y :: _ => nxt h x = Some (Some y) /\ prv h y = Some (Some x) /\ path h tl
      | [] => True
      end
  | [] => True
  end.

Definition full (d : DLB) (ns : list loc) : list loc :=
  _header d :: ns ++ [_trailer d].

Definition admits_all (slots : list string) : Prop :=
  DoublyLinkedBase.admits slots "_element" = true /\
  DoublyLinkedBase.admits slots "_prev" = true /\
  DoublyLinkedBase.admits slots "_next" = true.

(** One list: header, real nodes and trailer form a doubly linked path
    without repetition, closed by None at both ends, and [_size] counts
    the real nodes. *)
Record list_ok (h : list Node) (d : DLB) (ns : list loc) : Prop := {
  ok_path : path h (full d ns);
  ok_nodup : NoDup (full d ns);
  ok_header : prv h (_header d) = Some None;
  ok_trailer : nxt h (_trailer d) = Some None;
  ok_size : _size d = Z.of_nat (length ns)
}.

(** The whole store.  A node exists only if [_Node.__init__] returned, so
    a store with a node has a layout that admits the three attributes.
    Each sentinel and each real node of a list is owned by that list in
    that role; a node that a list allocated and that is no longer among its
    real nodes has been deleted, and its [_next] is None. *)
Record wf (slots : list string) (w : world) (G : ghost) : Prop := {
  wf_admits : nodes w <> [] -> admits_all slots;
  wf_chains : length (chains G) = length (objs w);
  wf_owner : length (owner G) = length (nodes w);
  wf_list : forall L d ns,
    objs w !! L = Some d -> chains G !! L = Some ns -> list_ok (nodes w) d ns;
  wf_header : forall L d,
    objs w !! L = Some d -> owner G !! _header d = Some (RHeader L);
  wf_trailer : forall L d,
    objs w !! L = Some d -> owner G !! _trailer d = Some (RTrailer L);
  wf_real : forall L ns n,
    chains G !! L = Some ns -> n ∈ ns -> owner G !! n = Some (RReal L);
  wf_dead : forall L n,
    owner G !! n = Some (RReal L) ->
    exists ns, chains G !! L = Some ns /\
               (n ∈ ns \/ nxt (nodes w) n = Some None)
}.

(** A Position that its container handed out: its node is one that the
    container allocated as a real node. *)
Definition genuine (G : ghost) (p : Position) : Prop :=
  exists n, _node p = Some n /\ owner G !! n = Some (RReal (_container p)).

(** An argument that a caller can pass where a Position is expected: a
    Position it was handed, or some other object. *)
Definition passable (G : ghost) (a : pyobj) : Prop :=
  match a with
  | OPos p => genuine G p
  | OVal _ => True
  end.

(** Ghost data only grows: the owner of a node never changes. *)
Definition extends (G G' : ghost) : Prop :=
  exists k, owner G' = owner G ++ k.

(** The node array after [_insert_between] has put a new node holding [e]
    between the nodes [p] and [s], and after [_delete_node] has taken the
    node [n] out from between [p] and [s]. *)
Definition spliced (e : value) (p s : loc) (h : list Node) : list Node :=
  alter (with_prev (Some (length h))) s
    (alter (with_next (Some (length h))) p
       (h ++ [mkNode e (Some p) (Some s)])).

Definition unlinked (n p s : loc) (h : list Node) : list Node :=
  alter (with_element PyNone) n
    (alter (with_next None) n
       (alter (with_prev None) n
          (alter (with_prev (Some p)) s
             (alter (with_next (Some s)) p h)))).

Definition inserted (L : lref) (e : value) (p s : loc) (w : world) : world :=
  mkWorld (spliced e p s (nodes w)) (alter (grow 1) L (objs w)).

Definition removed (L : lref) (n p s : loc) (w : world) : world :=
  mkWorld (unlinked n p s (nodes w)) (alter (grow (-1)) L (objs w)).

(** The ghost data that go with them: the new node enters the chain of
    [L] between [l1] and [l2] and is owned by [L]; a deleted node leaves the
    chain and stays owned. *)
Definition ghost_inserted (L : lref) (l1 l2 : list loc) (w : world) (G : ghost)
  : ghost :=
  mkGhost (<[L := l1 ++ length (nodes w) :: l2]> (chains G))
          (owner G ++ [RReal L]).

Definition ghost_removed (L : lref) (l1 l2 : list loc) (G : ghost) : ghost :=
  mkGhost (<[L := l1 ++ l2]> (chains G)) (owner G).

(** The store after the constructor: two sentinels linked to each other
    and a list object with no real node. *)
Definition created (w : world) : world :=
  mkWorld (nodes w ++ [mkNode PyNone None (Some (S (length (nodes w))));
                       mkNode PyNone (Some (length (nodes w))) None])
          (objs w ++ [mkDLB (length (nodes w)) (S (length (nodes w))) 0]).

Definition ghost_created (w : world) (G : ghost) : ghost :=
  mkGhost (chains G ++ [[]])
          (owner G ++ [RHeader (length (objs w)); RTrailer (length (objs w))]).

(** Stores related by insertions: every node that exists keeps its
    element, and a node whose [_next] is set keeps a [_next]. *)
Definition grows (w w' : world) : Prop :=
  forall n nd, nodes w !! n = Some nd ->
    exists nd', nodes w' !! n = Some nd' /\ _element nd' = _element nd /\
                (_next nd <> None -> _next nd' <> None).

Definition growing {A} (m : M A) : Prop := forall w, grows w (snd (m w)).

(** What a script on list [L] keeps true: the store is well formed, [L]
    is one of its lists, every value the script holds can be passed as a
    Position, and [_size] is [k] minus the number of deletions. *)
Definition script_inv (slots : list string) (L : lref) (st : script_state)
  (k : Z) : Prop :=
  exists G d,
    wf slots (sc_world st) G /\
    objs (sc_world st) !! L = Some d /\
    Forall (passable G) (sc_handles st) /\
    _size d = (k - sc_deleted st)%Z.

(** ** The scenario of the specification

    [start empty; add_last(10) -> p1; add_last(20) -> p2;
    add_before(p2, 15) -> p3], run with a layout that admits the attributes
    [_Node.__init__] assigns, and the ghost data of each store. *)

Definition w_new : world := snd (DoublyLinkedBase.__init__ init_slots empty_world).
Definition p1 : Position := mkPosition 0 (Some 2).
Definition w_10 : world := snd (PositionalList.add_last init_slots 0 (PyInt 10) w_new).
Definition p2 : Position := mkPosition 0 (Some 3).
Definition w_20 : world := snd (PositionalList.add_last init_slots 0 (PyInt 20) w_10).
Definition p3 : Position := mkPosition 0 (Some 4).
Definition w_15 : world :=
  snd (PositionalList.add_before init_slots 0 (OPos p2) (PyInt 15) w_20).

Definition G_new : ghost := ghost_created empty_world (mkGhost [] []).
Definition G_10 : ghost := ghost_inserted 0 [] [] w_new G_new.
Definition G_20 : ghost := ghost_inserted 0 [2] [] w_10 G_10.
Definition G_15 : ghost := ghost_inserted 0 [2] [3] w_20 G_20.

(** A second list, created after the first element was added. *)
Definition w_two : world := snd (DoublyLinkedBase.__init__ init_slots w_10).
Definition G_two : ghost := ghost_created w_10 G_10.

(** ** Calls of the public methods

    The calls that can change the store or hand out a Position, with the
    list they are invoked on.  [run_call] gives the Position the call
    returned (if it returned one) and the store it left, whether it
    returned or raised. *)

Inductive call :=
  | NewList
  | DqInsertFirst (L : lref) (e : value)
  | DqInsertLast (L : lref) (e : value)
  | DqDeleteFirst (L : lref)
  | DqDeleteLast (L : lref)
  | PlFirst (L : lref)
  | PlLast (L : lref)
  | PlBefore (L : lref) (a : pyobj)
  | PlAfter (L : lref) (a : pyobj)
  | PlAddFirst (L : lref) (e : value)
  | PlAddLast (L : lref) (e : value)
  | PlAddBefore (L : lref) (a : pyobj) (e : value)
  | PlAddAfter (L : lref) (a : pyobj) (e : value)
  | PlDelete (L : lref) (a : pyobj)
  | PlReplace (L : lref) (a : pyobj) (e : value).

Definition handed {A} (f : A -> option Position) (r : outcome A * world)
  : option Position * world :=
  (match fst r with Ok a => f a | _ => None end, snd r).

Definition run_call (slots : list string) (c : call) (w : world)
  : option Position * world :=
  match c with
  | NewList => handed (fun _ => None) (DoublyLinkedBase.__init__ slots w)
  | DqInsertFirst L e => handed (fun _ => None) (LinkedDeque.insert_first slots L e w)
  | DqInsertLast L e => handed (fun _ => None) (LinkedDeque.insert_last slots L e w)
  | DqDeleteFirst L => handed (fun _ => None) (LinkedDeque.delete_first slots L w)
  | DqDeleteLast L => handed (fun _ => None) (LinkedDeque.delete_last slots L w)
  | PlFirst L => handed id (PositionalList.first slots L w)
  | PlLast L => handed id (PositionalList.last slots L w)
  | PlBefore L a => handed id (PositionalList.before slots L a w)
  | PlAfter L a => handed id (PositionalList.after slots L a w)
  | PlAddFirst L e => handed id (PositionalList.add_first slots L e w)
  | PlAddLast L e => handed id (PositionalList.add_last slots L e w)
  | PlAddBefore L a e => handed id (PositionalList.add_before slots L a e w)
  | PlAddAfter L a e => handed id (PositionalList.add_after slots L a e w)
  | PlDelete L a => handed (fun _ => None) (PositionalList.delete slots L a w)
  | PlReplace L a e => handed (fun _ => None) (PositionalList.replace slots L a e w)
  end.

(** A call a caller can make: the list exists, and an argument passed as a
    Position is a Position the caller was handed, or is no Position. *)
Definition callable (w : world) (G : ghost) (c : call) : Prop :=
  match c with
  | NewList => True
  | DqInsertFirst L _ | DqInsertLast L _ | DqDeleteFirst L | DqDeleteLast L
  | PlFirst L | PlLast L | PlAddFirst L _ | PlAddLast L _ =>
      L < length (objs w)
  | PlBefore L a | PlAfter L a | PlAddBefore L a _ | PlAddAfter L a _
  | PlDelete L a | PlReplace L a _ =>
      L < length (objs w) /\ passable G a
  end.

(** What a call keeps: the store it leaves is well formed for ghost data
    that extend the former, and a Position it hands out is genuine. *)
Definition kept (slots : list string) (G : ghost) (r : option Position * world)
  : Prop :=
  exists G', wf slots (snd r) G' /\ extends G G' /\
             (forall q, fst r = Some q -> genuine G' q).

(** The elements held by the nodes [ns], in order. *)
Definition elements (h : list Node) (ns : list loc) : list value :=
  map (fun n => default PyNone (_element <$> h !! n)) ns.

(** The Position of list [L] for the node [n]. *)
Definition pos (L : lref) (n : loc) : Position := mkPosition L (Some n).

(** The items of a list object, read off the store: the elements of the
    nodes met by following [_next] from the node after the header up to the
    trailer.  [None] when [fuel] steps do not reach the trailer. *)
Fixpoint items_from (h : list Node) (stop : loc) (fuel : nat) (cur : ref)
  : option (list value) :=
  match cur with
  | None => None
  | Some l =>
      if decide (l = stop) then Some []
      else
        match fuel with
        | O => None
        | S fuel' =>
            match h !! l with
            | Some nd => cons (_element nd) <$> items_from h stop fuel' (_next nd)
            | None => None
            end
        end
  end.

Definition items (fuel : nat) (L : lref) (w : world) : option (list value) :=
  match objs w !! L with
  | Some d =>
      match nodes w !! _header d with
      | Some nd => items_from (nodes w) (_trailer d) fuel (_next nd)
      | None => None
      end
  | None => None
  end.

(** Whether a call returned, rather than raised. *)
Definition returns {A} (r : outcome A * world) : bool :=
  match fst r with
  | Ok _ => true
  | _ => false
  end.

(** A computation that only reads: whatever it returns or raises, the
    store it leaves is the store it was given. *)
Definition reads {A} (m : M A) : Prop := forall w, snd (m w) = w.

(** The outcome of a call with the returned value forgotten. *)
Definition status {A} (r : outcome A * world) : outcome unit * world :=
  (match fst r with
   | Ok _ => Ok tt
   | Raise e => Raise e
   | Stuck => Stuck
   end, snd r).

Definition call_status (slots : list string) (c : call) (w : world)
  : outcome unit * world :=
  match c with
  | NewList => status (DoublyLinkedBase.__init__ slots w)
  | DqInsertFirst L e => status (LinkedDeque.insert_first slots L e w)
  | DqInsertLast L e => status (LinkedDeque.insert_last slots L e w)
  | DqDeleteFirst L => status (LinkedDeque.delete_first slots L w)
  | DqDeleteLast L => status (LinkedDeque.delete_last slots L w)
  | PlFirst L => status (PositionalList.first slots L w)
  | PlLast L => status (PositionalList.last slots L w)
  | PlBefore L a => status (PositionalList.before slots L a w)
  | PlAfter L a => status (PositionalList.after slots L a w)
  | PlAddFirst L e => status (PositionalList.add_first slots L e w)
  | PlAddLast L e => status (PositionalList.add_last slots L e w)
  | PlAddBefore L a e => status (PositionalList.add_before slots L a e w)
  | PlAddAfter L a e => status (PositionalList.add_after slots L a e w)
  | PlDelete L a => status (PositionalList.delete slots L a w)
  | PlReplace L a e => status (PositionalList.replace slots L a e w)
  end.

(** The list a call is invoked on (the constructor is invoked on none). *)
Definition call_list (c : call) : option lref :=
  match c with
  | NewList => None
  | DqInsertFirst L _ | DqInsertLast L _ | DqDeleteFirst L | DqDeleteLast L
  | PlFirst L | PlLast L | PlBefore L _ | PlAfter L _
  | PlAddFirst L _ | PlAddLast L _ | PlAddBefore L _ _ | PlAddAfter L _ _
  | PlDelete L _ | PlReplace L _ _ => Some L
  end.

(** The exceptions that the methods of the two classes raise on a
    well-formed store: the three of [_validate], and the NameError of the
    deque's [raise Empty(...)]. *)
Definition list_errors : list exn :=
  [TypeError "p must be proper Position type.";
   ValueError "p does not belong to this container.";
   ValueError "p is no longer valid.";
   NameError "Empty"].

(** What a call on list [L] does to a well-formed store: it raises one of
    [list_errors] and leaves the store, or it returns and the store is as it
    was, or has one node inserted between two nodes of [L], or one real node
    of [L] removed, or the element of one real node of [L] assigned. *)
Inductive effect (G : ghost) (w : world) (L : lref) : outcome unit * world -> Prop :=
  | eff_raise e : e ∈ list_errors -> effect G w L (Raise e, w)
  | eff_read : effect G w L (Ok tt, w)
  | eff_insert d ns e p s :
      objs w !! L = Some d -> chains G !! L = Some ns ->
      p ∈ full d ns -> s ∈ full d ns ->
      effect G w L (Ok tt, inserted L e p s w)
  | eff_remove d ns n p s :
      objs w !! L = Some d -> chains G !! L = Some ns ->
      n ∈ full d ns -> p ∈ full d ns -> s ∈ full d ns ->
      effect G w L (Ok tt, removed L n p s w)
  | eff_assign d ns n e :
      objs w !! L = Some d -> chains G !! L = Some ns -> n ∈ full d ns ->
      effect G w L (Ok tt, mkWorld (alter (with_element e) n (nodes w)) (objs w)).

(** ** Programs that use the classes

    A program holds the lists it has constructed and the Positions it was
    handed.  Where a method takes a Position, the program passes one of the
    values it was handed, or an object that is no Position. *)

Inductive parg :=
  | Handed (i : nat)
  | NotPosition (v : value).

Inductive action :=
  | Construct
  | InsertFirst (L : lref) (e : value)
  | InsertLast (L : lref) (e : value)
  | DeleteFirstD (L : lref)
  | DeleteLastD (L : lref)
  | First (L : lref)
  | Last (L : lref)
  | Before (L : lref) (a : parg)
  | After (L : lref) (a : parg)
  | AddFirstP (L : lref) (e : value)
  | AddLastP (L : lref) (e : value)
  | AddBefore (L : lref) (a : parg) (e : value)
  | AddAfter (L : lref) (a : parg) (e : value)
  | DeleteP (L : lref) (a : parg)
  | Replace (L : lref) (a : parg) (e : value).

(** The argument that stands for [a]: the [i]-th value handed to the
    program (None when there is no such value). *)
Definition the_arg (hs : list pyobj) (a : parg) : pyobj :=
  match a with
  | Handed i => default (OVal PyNone) (hs !! i)
  | NotPosition v => OVal v
  end.

Definition the_call (hs : list pyobj) (a : action) : call :=
  match a with
  | Construct => NewList
  | InsertFirst L e => DqInsertFirst L e
  | InsertLast L e => DqInsertLast L e
  | DeleteFirstD L => DqDeleteFirst L
  | DeleteLastD L => DqDeleteLast L
  | First L => PlFirst L
  | Last L => PlLast L
  | Before L a => PlBefore L (the_arg hs a)
  | After L a => PlAfter L (the_arg hs a)
  | AddFirstP L e => PlAddFirst L e
  | AddLastP L e => PlAddLast L e
  | AddBefore L a e => PlAddBefore L (the_arg hs a) e
  | AddAfter L a e => PlAddAfter L (the_arg hs a) e
  | DeleteP L a => PlDelete L (the_arg hs a)
  | Replace L a e => PlReplace L (the_arg hs a) e
  end.

(** One step of a program: the call is made when the list it names has
    been constructed (a program cannot name a list that does not exist); the
    value it returns, a Position or None, is handed to the program.  A call
    that raises is caught. *)
Definition step (slots : list string) (st : world * list pyobj) (a : action)
  : world * list pyobj :=
  let c := the_call (snd st) a in
  if match call_list c with
     | Some L => bool_decide (L < length (objs (fst st)))
     | None => true
     end
  then
    let r := run_call slots c (fst st) in
    (snd r, snd st ++ [as_arg (fst r)])
  else st.

Definition run_program (slots : list string) (prog : list action)
  : world * list pyobj :=
  fold_left (step slots) prog (empty_world, []).

(** ** pq_sort (ch09/pq_sort.py)

    [pq_sort] sorts a positional list through a priority queue.  The class
    PriorityQueue is named by the file and is not among the sources, so
    the function is embedded for an arbitrary class: [Q] is the state of a
    queue object, [PriorityQueue] the object the constructor returns, and
    [add] and [remove_min] its two methods, which may return or raise.  A
    queue object holds no reference to the list, so its methods act on the
    queue alone. *)
Module PqSort.
Section Queue.
Variable slots : list string.
Variable Q : Type.
Variable PriorityQueue : Q.
Variable add : value -> value -> Q -> outcome unit * Q.
Variable remove_min : Q -> outcome (value * value) * Q.

(** Computations over the store of the lists and the queue [P]. *)
Definition MQ (A : Type) : Type := world * Q -> outcome A * (world * Q).

Definition retQ {A} (a : A) : MQ A := fun st => (Ok a, st).

Definition bindQ {A B} (m : MQ A) (k : A -> MQ B) : MQ B :=
  fun st =>
    match m st with
    | (Ok a, st') => k a st'
    | (Raise e, st') => (Raise e, st')
    | (Stuck, st') => (Stuck, st')
    end.

(** A method call on the list, and a method call on the queue. *)
Definition on_list {A} (m : M A) : MQ A :=
  fun st => (fst (m (fst st)), (snd (m (fst st)), snd st)).

Definition on_queue {A} (f : Q -> outcome A * Q) : MQ A :=
  fun st => (fst (f (snd st)), (fst st, snd (f (snd st)))).

(** [for j in range(n): body], for a body that does not use [j]. *)
Fixpoint for_range (n : nat) (body : MQ unit) : MQ unit :=
  match n with
  | O => retQ tt
  | S n' => bindQ body (fun _ => for_range n' body)
  end.

(** The body of the first loop (lines 6-7) and of the second (lines 9-10). *)
Definition move_to_queue (C : lref) : MQ unit :=
  bindQ (on_list (PositionalList.first slots C)) (fun p =>
  bindQ (on_list (PositionalList.delete slots C (as_arg p))) (fun element =>
  on_queue (add element element))).

Definition move_to_list (C : lref) : MQ unit :=
  bindQ (on_queue remove_min) (fun kv =>
  bindQ (on_list (PositionalList.add_last slots C (snd kv))) (fun _ =>
  retQ tt)).

(** pq_sort (lines 1-10).  The queue is local to the call, so what is
    left of it when the function returns or raises is dropped. *)
Definition pq_sort (C : lref) : M unit :=
  fun w =>
    let r :=
      bindQ (on_list (DoublyLinkedBase.__len__ C)) (fun n =>
      bindQ (for_range (Z.to_nat n) (move_to_queue C)) (fun _ =>
      for_range (Z.to_nat n) (move_to_list C))) (w, PriorityQueue)
    in (fst r, fst (snd r)).

(** The queue after [add(v, v)] has returned for each [v] of [vs] in
    turn, and the values that [n] calls of [remove_min] return in turn;
    [None] when one of the calls does not return. *)
Fixpoint adds (vs : list value) (q : Q) : option Q :=
  match vs with
  | [] => Some q
  | v :: vs' =>
      match add v v q with
      | (Ok _, q') => adds vs' q'
      | _ => None
      end
  end.

Fixpoint removes (n : nat) (q : Q) : option (list value * Q) :=
  match n with
  | O => Some ([], q)
  | S n' =>
      match remove_min q with
      | (Ok kv, q') =>
          match removes n' q' with
          | Some (out, q'') => Some (snd kv :: out, q'')
          | None => None
          end
      | _ => None
      end
  end.
End Queue.
End PqSort.

(** A priority queue on integer keys kept as a sorted association list,
    to run [pq_sort] on an example. *)
Module SortedQueue.
Definition key (v : value) : Z :=
  match v with
  | PyInt z => z
  | _ => 0%Z
  end.

Fixpoint insert (k v : value) (q : list (value * value)) : list (value * value) :=
  match q with
  | [] => [(k, v)]
  | kv :: q' =>
      if (key k <? key (fst kv))%Z then (k, v) :: kv :: q'
      else kv :: insert k v q'
  end.

Definition add (k v : value) (q : list (value * value))
  : outcome unit * list (value * value) :=
  (Ok tt, insert k v q).

Definition remove_min (q : list (value * value))
  : outcome (value * value) * list (value * value) :=
  match q with
  | [] => (Raise (Empty "Priority queue is empty."), [])
  | kv :: q' => (Ok kv, q')
  end.
End SortedQueue.

(** ** ch06/arrayStack.py

    The stack keeps its elements in a Python list, the top at the end.  A
    stack object is used by one function at a time, so it is modelled by the
    value of [self._data], passed along.  Besides the exceptions of [exn]
    (the file defines Empty), indexing a Python list can raise IndexError. *)
Inductive error :=
  | Exn (e : exn)
  | IndexError (msg : string).

Inductive result (A : Type) :=
  | Return (a : A)
  | Throw (e : error).
Arguments Return {A} a.
Arguments Throw {A} e.

(** A Python str, as the list of its characters. *)
Abbreviation str := (list ascii).

Module PyList.
Section Ops.
Context {T : Type}.

(** [data[-1]] *)
Definition last_item (data : list T) : result T :=
  match list.last data with
  | Some x => Return x
  | None => Throw (IndexError "list index out of range")
  end.

(** [data.pop()]: the value returned and the list left *)
Definition pop (data : list T) : result T * list T :=
  match list.last data with
  | Some x => (Return x, removelast data)
  | None => (Throw (IndexError "pop from empty list"), data)
  end.
End Ops.
End PyList.

Module ArrayStack.
Section Methods.
Context {T : Type}.

(** __init__ (lines 8-10) *)
Definition __init__ : list T := [].

(** __len__ (lines 12-14) *)
Definition __len__ (_data : list T) : Z := Z.of_nat (length _data).

(** is_empty (lines 16-18) *)
Definition is_empty (_data : list T) : bool := Z.eqb (Z.of_nat (length _data)) 0.

(** push (lines 20-22): [self._data.append(e)] *)
Definition push (e : T) (_data : list T) : list T := _data ++ [e].

(** top (lines 24-31) *)
Definition top (_data : list T) : result T :=
  if is_empty _data then Throw (Exn (Empty "Stack is empty."))
  else PyList.last_item _data.

(** pop (lines 33-39) *)
Definition pop (_data : list T) : result T * list T :=
  if is_empty _data then (Throw (Exn (Empty "Stack is empty")), _data)
  else PyList.pop _data.
End Methods.

(** A caller that pushes the elements of [xs] in turn, and one that pops
    [n] times and collects what the calls return, stopping at the first
    call that raises. *)
Definition push_all {T} (xs : list T) (stk : list T) : list T :=
  fold_left (fun s x => push x s) xs stk.

Fixpoint pop_many {T} (n : nat) (stk : list T) : result (list T) * list T :=
  match n with
  | O => (Return [], stk)
  | S n' =>
      match pop stk with
      | (Return x, stk') =>
          match pop_many n' stk' with
          | (Return xs, stk'') => (Return (x :: xs), stk'')
          | (Throw e, stk'') => (Throw e, stk'')
          end
      | (Throw e, stk') => (Throw e, stk')
      end
  end.
End ArrayStack.

(** is_matched (lines 54-67).  The call [S.push()] passes no element, so
    Python raises TypeError when it binds the arguments; [righty.idnex] is
    not an attribute of str, so evaluating it raises AttributeError. *)
Definition lefty : str := ["("; "{"; "["]%char.
Definition righty : str := [")"; "}"; "]"]%char.

Fixpoint is_matched_from (expr : str) (stk : list ascii) : result bool :=
  match expr with
  | [] => Return (ArrayStack.is_empty stk)
  | c :: expr' =>
      if bool_decide (c ∈ lefty) then
        Throw (Exn (TypeError
          "ArrayStack.push() missing 1 required positional argument: 'e'"))
      else if bool_decide (c ∈ righty) then
        if ArrayStack.is_empty stk then Return false
        else Throw (Exn (AttributeError "str" "idnex"))
      else is_matched_from expr' stk
  end.

Definition is_matched (expr : str) : result bool :=
  is_matched_from expr ArrayStack.__init__.

(** The operations of Python's str that [is_matched_html] uses. *)
Module PyStr.

(** A slice bound: a negative index counts from the end, and the result
    is clipped to the length. *)
Definition bound (i : Z) (len : nat) : nat :=
  if (i <? 0)%Z then Z.to_nat (Z.max 0 (i + Z.of_nat len))
  else Nat.min (Z.to_nat i) len.

(** [s[a:b]] and [s[a:]] *)
Definition slice (a b : Z) (s : str) : str :=
  take (bound b (length s) - bound a (length s)) (drop (bound a (length s)) s).

Definition slice_from (a : Z) (s : str) : str :=
  drop (bound a (length s)) s.

(** The first place of the character [c] in [s]. *)
Fixpoint index (c : ascii) (s : str) : option nat :=
  match s with
  | [] => None
  | x :: s' => if Ascii.eqb x c then Some 0 else S <$> index c s'
  end.

(** [s.find(c, start)] for a str [c] of one character: the lowest index
    from [start] on where [c] occurs, or -1. *)
Definition find (c : ascii) (start : Z) (s : str) : Z :=
  match index c (drop (bound start (length s)) s) with
  | Some i => Z.of_nat (bound start (length s) + i)
  | None => (-1)%Z
  end.

(** [s.startswith(c)] for a str [c] of one character *)
Definition startswith (c : ascii) (s : str) : bool :=
  match s with
  | x :: _ => Ascii.eqb x c
  | [] => false
  end.
End PyStr.

(** is_matched_html (lines 69-86).  [j] is the index of the next '<', or
    -1; each turn of the while loop takes one unit of [fuel], and [None]
    means that the fuel did not suffice. *)
Fixpoint html_loop (fuel : nat) (raw : str) (j : Z) (stk : list str)
  : option (result bool) :=
  if (j =? -1)%Z then Some (Return (ArrayStack.is_empty stk))
  else
    match fuel with
    | O => None
    | S fuel' =>
        let k := PyStr.find ">" (j + 1) raw in
        if (k =? -1)%Z then Some (Return false)
        else
          let tag := PyStr.slice (j + 1) k raw in
          if negb (PyStr.startswith "/" tag) then
            html_loop fuel' raw (PyStr.find "<" (k + 1) raw) (ArrayStack.push tag stk)
          else if ArrayStack.is_empty stk then Some (Return false)
          else
            match ArrayStack.pop stk with
            | (Return x, stk') =>
                if negb (bool_decide (PyStr.slice_from 1 tag = x))
                then Some (Return false)
                else html_loop fuel' raw (PyStr.find "<" (k + 1) raw) stk'
            | (Throw e, _) => Some (Throw e)
            end
    end.

Definition is_matched_html (fuel : nat) (raw : str) : option (result bool) :=
  html_loop fuel raw (PyStr.find "<" 0 raw) ArrayStack.__init__.

(** A document as the sequence of its pieces: text between tags, opening
    tags and closing tags, and the text of the document. *)
Inductive piece :=
  | Text (s : str)
  | Open (name : str)
  | Close (name : str).

Definition render_piece (p : piece) : str :=
  match p with
  | Text s => s
  | Open name => "<"%char :: name ++ [">"%char]
  | Close name => "<"%char :: "/"%char :: name ++ [">"%char]
  end.

Definition render (ps : list piece) : str := concat (map render_piece ps).

(** Text holds no '<' and a tag name no '>'; the name of an opening tag
    does not start with '/'. *)
Definition valid_piece (p : piece) : Prop :=
  match p with
  | Text s => "<"%char ∉ s
  | Open name => (">"%char ∉ name) /\ PyStr.startswith "/" name = false
  | Close name => ">"%char ∉ name
  end.

Definition is_tag (p : piece) : bool :=
  match p with
  | Text _ => false
  | Open _ | Close _ => true
  end.

(** The number of tags of a document. *)
Definition count_tags (ps : list piece) : nat := length (filter is_tag ps).

(** The stack discipline on the sequence of tags: an opening tag is
    pushed, a closing tag must name the tag on top, which is popped, and at
    the end nothing may be left open. *)
Fixpoint balanced (ps : list piece) (stk : list str) : bool :=
  match ps with
  | [] => bool_decide (stk = [])
  | Text _ :: ps' => balanced ps' stk
  | Open name :: ps' => balanced ps' (stk ++ [name])
  | Close name :: ps' =>
      match list.last stk with
      | Some x => bool_decide (x = name) && balanced ps' (removelast stk)
      | None => false
      end
  end.

(** Properly nested documents. *)
Inductive nested : list piece -> Prop :=
  | nested_nil : nested []
  | nested_text s ps : nested ps -> nested (Text s :: ps)
  | nested_element name inner ps :
      nested inner -> nested ps ->
      nested (Open name :: inner ++ Close name :: ps).

(** [closes ps opened]: [ps] closes the tags [opened] (innermost first) that
    were open before it, with properly nested pieces in between. *)
Fixpoint closes (ps : list piece) (opened : list str) : Prop :=
  match opened with
  | [] => nested ps
  | x :: opened' =>
      exists inner rest, ps = inner ++ Close x :: rest /\ nested inner /\
                         closes rest opened'
  end.

(** ** Reasoning about method calls *)

Section MonadFacts.
Context {A B : Type}.

Lemma bind_Ok (m : M A) (k : A -> M B) w b w' :
  bind m k w = (Ok b, w') ->
  exists a w1, m w = (Ok a, w1) /\ k a w1 = (Ok b, w').
Proof.
  unfold bind. destruct (m w) as [[a|e|] w1]; intros H; try discriminate.
  eauto.
Qed.

Lemma bind_step (m : M A) (k : A -> M B) w a w1 :
  m w = (Ok a, w1) -> bind m k w = k a w1.
Proof. unfold bind. intros ->. reflexivity. Qed.

Lemma bind_Raise (m : M A) (k : A -> M B) w e w1 :
  m w = (Raise e, w1) -> bind m k w = (Raise e, w1).
Proof. unfold bind. intros ->. reflexivity. Qed.
End MonadFacts.

Section StoreFacts.
Import DoublyLinkedBase.
Variable slots : list string.

Lemma node_get_Ok {T} attr (proj : Node -> T) r w x w' :
  node_get slots attr proj r w = (Ok x, w') ->
  exists l nd, r = Some l /\ admits slots attr = true /\
               nodes w !! l = Some nd /\ x = proj nd /\ w' = w.
Proof.
  unfold node_get. destruct r as [l|]; [|discriminate].
  destruct (admits slots attr); [|discriminate].
  destruct (nodes w !! l) as [nd|] eqn:E; [|discriminate].
  intros [= <- <-]. eauto 10.
Qed.

Lemma node_set_Ok attr upd r w u w' :
  node_set slots attr upd r w = (Ok u, w') ->
  exists l nd, r = Some l /\ admits slots attr = true /\
               nodes w !! l = Some nd /\
               w' = mkWorld (alter upd l (nodes w)) (objs w).
Proof.
  unfold node_set. destruct r as [l|]; [|discriminate].
  destruct (admits slots attr); [|discriminate].
  destruct (nodes w !! l) as [nd|] eqn:E; [|discriminate].
  intros [= <-]. eauto 10.
Qed.

Lemma node_get_eq {T} attr (proj : Node -> T) l nd w :
  admits slots attr = true -> nodes w !! l = Some nd ->
  node_get slots attr proj (Some l) w = (Ok (proj nd), w).
Proof. unfold node_get. intros -> ->. reflexivity. Qed.

Lemma node_set_eq attr upd l nd w :
  admits slots attr = true -> nodes w !! l = Some nd ->
  node_set slots attr upd (Some l) w
  = (Ok tt, mkWorld (alter upd l (nodes w)) (objs w)).
Proof. unfold node_set. intros -> ->. reflexivity. Qed.

Lemma obj_Ok L w d w' :
  obj L w = (Ok d, w') -> objs w !! L = Some d /\ w' = w.
Proof.
  unfold obj. destruct (objs w !! L) eqn:E; [|discriminate].
  intros [= <- <-]. auto.
Qed.

Lemma size_add_Ok L k w u w' :
  size_add L k w = (Ok u, w') ->
  exists d, objs w !! L = Some d /\
    w' = mkWorld (nodes w)
           (alter (grow k) L (objs w)).
Proof.
  unfold size_add. destruct (objs w !! L) eqn:E; [|discriminate].
  intros [= <-]. eauto.
Qed.
End StoreFacts.

(** Decompose a successful run into the successful runs of its steps. *)
Ltac inv_ok :=
  repeat match goal with
  | H : bind _ _ _ = (Ok _, _) |- _ =>
      apply bind_Ok in H; destruct H as (? & ? & ? & H)
  | H : ret _ _ = (Ok _, _) |- _ => unfold ret in H; injection H as ? ?
  | H : DoublyLinkedBase.get_prev _ _ _ = (Ok _, _) |- _ =>
      apply node_get_Ok in H; destruct H as (? & ? & ? & ? & ? & ? & ?)
  | H : DoublyLinkedBase.get_next _ _ _ = (Ok _, _) |- _ =>
      apply node_get_Ok in H; destruct H as (? & ? & ? & ? & ? & ? & ?)
  | H : DoublyLinkedBase.get_element _ _ _ = (Ok _, _) |- _ =>
      apply node_get_Ok in H; destruct H as (? & ? & ? & ? & ? & ? & ?)
  | H : DoublyLinkedBase.set_prev _ _ _ _ = (Ok _, _) |- _ =>
      apply node_set_Ok in H; destruct H as (? & ? & ? & ? & ? & ?)
  | H : DoublyLinkedBase.set_next _ _ _ _ = (Ok _, _) |- _ =>
      apply node_set_Ok in H; destruct H as (? & ? & ? & ? & ? & ?)
  | H : DoublyLinkedBase.set_element _ _ _ _ = (Ok _, _) |- _ =>
      apply node_set_Ok in H; destruct H as (? & ? & ? & ? & ? & ?)
  | H : DoublyLinkedBase.obj _ _ = (Ok _, _) |- _ =>
      apply obj_Ok in H; destruct H as (? & ?)
  | H : DoublyLinkedBase.size_add _ _ _ = (Ok _, _) |- _ =>
      apply size_add_Ok in H; destruct H as (? & ? & ?)
  end.


(** ** Reading the store after attribute assignments *)

Section HeapFacts.
Implicit Types (h : list Node) (l p : loc) (x : ref) (v : value).

Lemma lookup_alter_node (f : Node -> Node) h p l :
  alter f p h !! l = if decide (p = l) then f <$> h !! l else h !! l.
Proof.
  destruct (decide (p = l)) as [->|Hne].
  - apply list_lookup_alter_eq.
  - by apply list_lookup_alter_ne.
Qed.

Lemma next_alter_next h p x l :
  _next <$> alter (with_next x) p h !! l
  = if decide (p = l) then const x <$> h !! l else _next <$> h !! l.
Proof. rewrite lookup_alter_node. case_decide; [|done]. by destruct (h !! l). Qed.

Lemma next_alter_prev h p x l :
  _next <$> alter (with_prev x) p h !! l = _next <$> h !! l.
Proof. rewrite lookup_alter_node. case_decide; [|done]. by destruct (h !! l). Qed.

Lemma next_alter_element h p v l :
  _next <$> alter (with_element v) p h !! l = _next <$> h !! l.
Proof. rewrite lookup_alter_node. case_decide; [|done]. by destruct (h !! l). Qed.

Lemma prev_alter_prev h p x l :
  _prev <$> alter (with_prev x) p h !! l
  = if decide (p = l) then const x <$> h !! l else _prev <$> h !! l.
Proof. rewrite lookup_alter_node. case_decide; [|done]. by destruct (h !! l). Qed.

Lemma prev_alter_next h p x l :
  _prev <$> alter (with_next x) p h !! l = _prev <$> h !! l.
Proof. rewrite lookup_alter_node. case_decide; [|done]. by destruct (h !! l). Qed.

Lemma prev_alter_element h p v l :
  _prev <$> alter (with_element v) p h !! l = _prev <$> h !! l.
Proof. rewrite lookup_alter_node. case_decide; [|done]. by destruct (h !! l). Qed.

Lemma element_alter_element h p v l :
  _element <$> alter (with_element v) p h !! l
  = if decide (p = l) then const v <$> h !! l else _element <$> h !! l.
Proof. rewrite lookup_alter_node. case_decide; [|done]. by destruct (h !! l). Qed.

Lemma element_alter_next h p x l :
  _element <$> alter (with_next x) p h !! l = _element <$> h !! l.
Proof. rewrite lookup_alter_node. case_decide; [|done]. by destruct (h !! l). Qed.

Lemma element_alter_prev h p x l :
  _element <$> alter (with_prev x) p h !! l = _element <$> h !! l.
Proof. rewrite lookup_alter_node. case_decide; [|done]. by destruct (h !! l). Qed.

Lemma lookup_fmap_Some {T} (f : Node -> T) h l y :
  f <$> h !! l = Some y <-> exists nd, h !! l = Some nd /\ f nd = y.
Proof.
  destruct (h !! l) as [nd|]; simpl; split.
  - intros [= <-]. eauto.
  - intros (? & [= <-] & <-). done.
  - discriminate.
  - intros (? & ? & _). discriminate.
Qed.

End HeapFacts.

Section RunFacts.
Import DoublyLinkedBase.
Variable slots : list string.

Lemma get_next_run l nd w :
  admits slots "_next" = true -> nodes w !! l = Some nd ->
  get_next slots (Some l) w = (Ok (_next nd), w).
Proof. apply node_get_eq. Qed.

Lemma get_prev_run l nd w :
  admits slots "_prev" = true -> nodes w !! l = Some nd ->
  get_prev slots (Some l) w = (Ok (_prev nd), w).
Proof. apply node_get_eq. Qed.

Lemma get_element_run l nd w :
  admits slots "_element" = true -> nodes w !! l = Some nd ->
  get_element slots (Some l) w = (Ok (_element nd), w).
Proof. apply node_get_eq. Qed.

Lemma node_set_run attr upd l w :
  admits slots attr = true -> l < length (nodes w) ->
  node_set slots attr upd (Some l) w
  = (Ok tt, mkWorld (alter upd l (nodes w)) (objs w)).
Proof.
  intros Ha Hl. apply lookup_lt_is_Some_2 in Hl as [nd Hnd].
  by eapply node_set_eq.
Qed.

Lemma size_add_run L k d w :
  objs w !! L = Some d ->
  size_add L k w = (Ok tt, mkWorld (nodes w) (alter (grow k) L (objs w))).
Proof. unfold size_add. by intros ->. Qed.

Lemma obj_run L d w : objs w !! L = Some d -> obj L w = (Ok d, w).
Proof. unfold obj. by intros ->. Qed.

Lemma unlinked_length n p s h : length (unlinked n p s h) = length h.
Proof. unfold unlinked. by rewrite !length_alter. Qed.

Lemma unlinked_cleared n p s h :
  n < length h -> unlinked n p s h !! n = Some (mkNode PyNone None None).
Proof.
  intros Hn. unfold unlinked. rewrite !list_lookup_alter_eq.
  assert (is_Some (alter (with_prev (Some p)) s
                     (alter (with_next (Some s)) p h) !! n)) as [nd ->].
  { apply lookup_lt_is_Some_2. by rewrite !length_alter. }
  reflexivity.
Qed.

Lemma delete_node_run L n nd p s d w :
  admits slots "_element" = true -> admits slots "_prev" = true ->
  admits slots "_next" = true ->
  nodes w !! n = Some nd -> _prev nd = Some p -> _next nd = Some s ->
  p < length (nodes w) -> s < length (nodes w) ->
  objs w !! L = Some d ->
  _delete_node slots L (Some n) w = (Ok (_element nd), removed L n p s w).
Proof.
  intros He Hp Hn Hnd Hpr Hnx Hpl Hsl Hd. unfold _delete_node.
  assert (n < length (nodes w)) as Hnl by (by eapply lookup_lt_Some).
  rewrite (bind_step _ _ _ _ _ (get_prev_run _ _ _ Hp Hnd)).
  rewrite (bind_step _ _ _ _ _ (get_next_run _ _ _ Hn Hnd)).
  rewrite Hpr, Hnx. unfold set_next, set_prev, set_element.
  erewrite bind_step; [|by apply node_set_run].
  erewrite bind_step; [|apply node_set_run; [done|simpl; by rewrite length_alter]].
  erewrite bind_step; [|by eapply size_add_run].
  assert (exists nd', alter (with_prev (Some p)) s
              (alter (with_next (Some s)) p (nodes w)) !! n = Some nd'
          /\ _element nd' = _element nd) as (nd' & Hnd' & Hel).
  { apply lookup_fmap_Some.
    by rewrite element_alter_prev, element_alter_next, Hnd. }
  erewrite bind_step; [|by apply get_element_run].
  erewrite bind_step; [|apply node_set_run; [done|simpl; by rewrite !length_alter]].
  erewrite bind_step; [|apply node_set_run; [done|simpl; by rewrite !length_alter]].
  erewrite bind_step; [|apply node_set_run; [done|simpl; by rewrite !length_alter]].
  unfold ret. simpl. by rewrite Hel.
Qed.

Lemma delete_node_Ok L r w e w' :
  _delete_node slots L r w = (Ok e, w') ->
  exists n nd p s d,
    r = Some n /\
    admits slots "_element" = true /\ admits slots "_prev" = true /\
    admits slots "_next" = true /\
    nodes w !! n = Some nd /\ _prev nd = Some p /\ _next nd = Some s /\
    p < length (nodes w) /\ s < length (nodes w) /\
    objs w !! L = Some d.
Proof.
  unfold _delete_node. intros H. inv_ok. simplify_eq/=.
  do 5 eexists. repeat split; try eassumption.
  - by eapply lookup_lt_Some.
  - match goal with
    | H : alter _ _ (nodes w) !! _ = Some _ |- _ =>
        apply lookup_lt_Some in H; by rewrite length_alter in H
    end.
Qed.

Lemma insert_between_run L e p s d w :
  admits slots "_element" = true -> admits slots "_prev" = true ->
  admits slots "_next" = true ->
  p < length (nodes w) -> s < length (nodes w) ->
  objs w !! L = Some d ->
  _insert_between slots L e (Some p) (Some s) w
  = (Ok (length (nodes w)), inserted L e p s w).
Proof.
  intros He Hp Hn Hpl Hsl Hd. unfold _insert_between.
  assert (Node__init__ slots e (Some p) (Some s) w
          = (Ok (length (nodes w)),
             mkWorld (nodes w ++ [mkNode e (Some p) (Some s)]) (objs w))) as Hi.
  { unfold Node__init__. by rewrite He, Hp, Hn. }
  rewrite (bind_step _ _ _ _ _ Hi). unfold set_next, set_prev.
  erewrite bind_step;
    [|apply node_set_run; [done|simpl; rewrite length_app; simpl; lia]].
  erewrite bind_step;
    [|apply node_set_run;
      [done|simpl; rewrite length_alter, length_app; simpl; lia]].
  erewrite bind_step; [|by eapply size_add_run].
  reflexivity.
Qed.

Lemma Node_init_Ok e p s w n w' :
  Node__init__ slots e p s w = (Ok n, w') ->
  admits slots "_element" = true /\ admits slots "_prev" = true /\
  admits slots "_next" = true /\ n = length (nodes w) /\
  w' = mkWorld (nodes w ++ [mkNode e p s]) (objs w).
Proof.
  unfold Node__init__.
  destruct (admits slots "_element"); [|discriminate].
  destruct (admits slots "_prev"); [|discriminate].
  destruct (admits slots "_next"); [|discriminate].
  intros [= <- <-]. auto.
Qed.
End RunFacts.

(** ** Position validation *)

Section Validation.
Import DoublyLinkedBase PositionalList.
Variable slots : list string.

Lemma validate_foreign L p w :
  _container p <> L ->
  _validate slots L (OPos p) w
  = (Raise (ValueError "p does not belong to this container."), w).
Proof. intros Hne. unfold _validate. by rewrite bool_decide_eq_false_2. Qed.

Lemma validate_deprecated L p n nd w :
  _container p = L -> _node p = Some n ->
  admits slots "_next" = true ->
  nodes w !! n = Some nd -> _next nd = None ->
  _validate slots L (OPos p) w = (Raise (ValueError "p is no longer valid."), w).
Proof.
  intros Hc Hn Ha Hnd Hnx. unfold _validate.
  rewrite bool_decide_eq_true_2 by done. rewrite Hn.
  rewrite (bind_step _ _ _ _ _ (get_next_run _ _ _ _ Ha Hnd)).
  by rewrite Hnx.
Qed.

Lemma validate_run L p n nd s w :
  _container p = L -> _node p = Some n ->
  admits slots "_next" = true ->
  nodes w !! n = Some nd -> _next nd = Some s ->
  _validate slots L (OPos p) w = (Ok (Some n), w).
Proof.
  intros Hc Hn Ha Hnd Hnx. unfold _validate.
  rewrite bool_decide_eq_true_2 by done. rewrite Hn.
  rewrite (bind_step _ _ _ _ _ (get_next_run _ _ _ _ Ha Hnd)).
  by rewrite Hnx.
Qed.

Lemma validate_Ok L a w r w' :
  _validate slots L a w = (Ok r, w') ->
  exists p n nd s,
    a = OPos p /\ _container p = L /\ _node p = Some n /\ r = Some n /\
    admits slots "_next" = true /\
    nodes w !! n = Some nd /\ _next nd = Some s /\ w' = w.
Proof.
  unfold _validate. destruct a as [p|v]; [|discriminate].
  case_bool_decide as Hc; [|discriminate].
  intros H. apply bind_Ok in H as (nx & w1 & Hg & H).
  apply node_get_Ok in Hg as (n & nd & Hn & Ha & Hnd & -> & ->).
  destruct (_next nd) as [s|] eqn:Hnx; [|discriminate].
  injection H as <- <-. rewrite Hn. eauto 12.
Qed.

(** Every method that takes a Position starts with [_validate]; when
    that raises, so does the method, with the store untouched. *)
Lemma validate_raises L a w e :
  _validate slots L a w = (Raise e, w) ->
  before slots L a w = (Raise e, w) /\
  after slots L a w = (Raise e, w) /\
  (forall x, add_before slots L a x w = (Raise e, w)) /\
  (forall x, add_after slots L a x w = (Raise e, w)) /\
  delete slots L a w = (Raise e, w) /\
  (forall x, replace slots L a x w = (Raise e, w)).
Proof.
  intros H. unfold before, after, add_before, add_after, delete, replace.
  repeat split; intros; by apply bind_Raise.
Qed.

(** [__eq__] on two Positions compares their nodes and nothing else. *)
Lemma position_eq_node (p q : Position) :
__eq__ p (OPos q) = true <-> _node q = _node p.
Proof. unfold __eq__. apply bool_decide_eq_true. Qed.

Lemma make_position_Ok L r w q w' :
  _make_position L r w = (Ok q, w') ->
  w' = w /\ (forall p, q = Some p -> p = mkPosition L r).
Proof.
  unfold _make_position. intros H.
  apply bind_Ok in H as (d & w1 & Hd & H). apply obj_Ok in Hd as (Hd & ->).
  destruct (_ || _); injection H as <- <-; split; try done.
  by intros p [= <-].
Qed.
End Validation.

(** ** What an insertion can change *)

Section Insertions.
Import DoublyLinkedBase PositionalList.
Variable slots : list string.

Lemma grows_refl w : grows w w.
Proof. intros n nd H. eauto. Qed.

Lemma grows_trans w1 w2 w3 : grows w1 w2 -> grows w2 w3 -> grows w1 w3.
Proof.
  intros H12 H23 n nd H.
  destruct (H12 _ _ H) as (nd2 & H2 & He2 & Hn2).
  destruct (H23 _ _ H2) as (nd3 & H3 & He3 & Hn3).
  exists nd3. split; [done|]. split; [congruence|auto].
Qed.

Lemma growing_bind {A B} (m : M A) (k : A -> M B) :
  growing m -> (forall a, growing (k a)) -> growing (bind m k).
Proof.
  intros Hm Hk w. unfold bind. specialize (Hm w).
  destruct (m w) as [[a|e|] w1]; simpl in *; [|done..].
  eapply grows_trans; [done|apply Hk].
Qed.

Lemma growing_ret {A} (a : A) : growing (ret a).
Proof. intros w. apply grows_refl. Qed.

Lemma growing_raise {A} e : growing (@raise A e).
Proof. intros w. apply grows_refl. Qed.

Lemma growing_node_get {T} attr (proj : Node -> T) r :
  growing (node_get slots attr proj r).
Proof.
  intros w. unfold node_get.
  destruct r as [l|]; [|apply grows_refl].
  destruct (admits slots attr); [|apply grows_refl].
  destruct (nodes w !! l); apply grows_refl.
Qed.

Lemma growing_obj L : growing (obj L).
Proof. intros w. unfold obj. destruct (objs w !! L); apply grows_refl. Qed.

Lemma growing_size_add L k : growing (size_add L k).
Proof.
  intros w. unfold size_add. destruct (objs w !! L); [|apply grows_refl].
  intros n nd H. simpl. eauto.
Qed.

Lemma growing_alter (f : Node -> Node) l w :
  (forall nd, _element (f nd) = _element nd) ->
  (forall nd, _next nd <> None -> _next (f nd) <> None) ->
  grows w (mkWorld (alter f l (nodes w)) (objs w)).
Proof.
  intros He Hn n nd H. simpl. rewrite lookup_alter_node.
  case_decide; subst; rewrite H; simpl; eauto.
Qed.

Lemma growing_set_next r x : growing (set_next slots r (Some x)).
Proof.
  intros w. unfold set_next, node_set.
  destruct r as [l|]; [|apply grows_refl].
  destruct (admits slots "_next"); [|apply grows_refl].
  destruct (nodes w !! l); [|apply grows_refl].
  by apply growing_alter.
Qed.

Lemma growing_set_prev r x : growing (set_prev slots r x).
Proof.
  intros w. unfold set_prev, node_set.
  destruct r as [l|]; [|apply grows_refl].
  destruct (admits slots "_prev"); [|apply grows_refl].
  destruct (nodes w !! l); [|apply grows_refl].
  by apply growing_alter.
Qed.

Lemma growing_Node_init e p s : growing (Node__init__ slots e p s).
Proof.
  intros w. unfold Node__init__.
  destruct (admits slots "_element"); [|apply grows_refl].
  destruct (admits slots "_prev"); [|apply grows_refl].
  destruct (admits slots "_next"); [|apply grows_refl].
  intros n nd H. simpl. exists nd. by rewrite (lookup_app_l_Some _ _ _ _ H).
Qed.

Lemma growing_validate L a : growing (_validate slots L a).
Proof.
  unfold _validate. destruct a; [|apply growing_raise].
  case_bool_decide; [|apply growing_raise].
  apply growing_bind; [apply growing_node_get|].
  intros [?|]; [apply growing_ret|apply growing_raise].
Qed.

Lemma growing_make_position L r : growing (_make_position L r).
Proof.
  unfold _make_position. apply growing_bind; [apply growing_obj|].
  intros d. destruct (_ || _); apply growing_ret.
Qed.

Lemma growing_insert_between L e p s :
  growing (PositionalList._insert_between slots L e p s).
Proof.
  unfold PositionalList._insert_between, DoublyLinkedBase._insert_between.
  repeat first
    [ apply growing_Node_init | apply growing_set_next
    | apply growing_set_prev | apply growing_size_add
    | apply growing_ret | apply growing_make_position
    | apply growing_bind; [|intros ?] ].
Qed.

Lemma growing_insert_step L i : growing (insert_step slots L i).
Proof.
  destruct i; simpl;
    unfold add_first, add_last, add_before, add_after;
    repeat first
      [ apply growing_obj | apply growing_node_get
      | apply growing_validate | apply growing_insert_between
      | apply growing_bind; [|intros ?] ].
Qed.

Lemma run_insertions_grows L ins w : grows w (run_insertions slots L ins w).
Proof.
  revert w. induction ins as [|i ins IH]; intros w; simpl.
  - apply grows_refl.
  - eapply grows_trans; [apply growing_insert_step|apply IH].
Qed.

Lemma spliced_new e p s h :
  p < length h -> s < length h ->
  spliced e p s h !! length h = Some (mkNode e (Some p) (Some s)).
Proof.
  intros Hp Hs. unfold spliced.
  rewrite !list_lookup_alter_ne by lia.
  by rewrite list_lookup_middle.
Qed.

(** The node that [_insert_between] returns holds [e] and has a
    successor. *)
Lemma insert_between_fresh L e r1 r2 w n w' :
  DoublyLinkedBase._insert_between slots L e r1 r2 w = (Ok n, w') ->
  admits slots "_element" = true /\ admits slots "_next" = true /\
  exists nd, nodes w' !! n = Some nd /\ _element nd = e /\ _next nd <> None.
Proof.
  unfold DoublyLinkedBase._insert_between. intros H.
  apply bind_Ok in H as (nw & w1 & Hi & H).
  apply Node_init_Ok in Hi as (He & Hp & Hn & -> & ->).
  inv_ok. simplify_eq/=. do 2 (split; [done|]).
  rewrite !lookup_alter_node, list_lookup_middle by done.
  repeat case_decide; simpl; eexists; (split; [reflexivity|]); done.
Qed.
End Insertions.

(** ** Doubly linked paths *)

Section Paths.
Implicit Types (h : list Node) (xs ys : list loc) (x y p s n : loc).

Lemma path_cons h x y ys :
  path h (x :: y :: ys)
  <-> nxt h x = Some (Some y) /\ prv h y = Some (Some x) /\ path h (y :: ys).
Proof. reflexivity. Qed.

Lemma path_app h xs x ys :
  path h (xs ++ x :: ys) <-> path h (xs ++ [x]) /\ path h (x :: ys).
Proof.
  induction xs as [|a xs IH]; simpl.
  - tauto.
  - destruct xs as [|b xs]; simpl in *; [tauto|].
    rewrite IH. tauto.
Qed.

Lemma path_frame h h' xs :
  (forall x, x ∈ removelast xs -> nxt h' x = nxt h x) ->
  (forall x, x ∈ tail xs -> prv h' x = prv h x) ->
  path h xs -> path h' xs.
Proof.
  induction xs as [|a xs IH]; [done|].
  destruct xs as [|b xs]; [done|].
  intros Hn Hp (H1 & H2 & H3). rewrite path_cons. split; [|split].
  - rewrite Hn; [done|]. simpl. left.
  - rewrite Hp; [done|]. simpl. left.
  - apply IH; [| |done].
    + intros x Hx. apply Hn. change (x ∈ a :: removelast (b :: xs)). by right.
    + intros x Hx. apply Hp. simpl in *. by right.
Qed.

Lemma elem_of_removelast x xs : x ∈ removelast xs -> x ∈ xs.
Proof.
  induction xs as [|a xs IH]; [done|].
  destruct xs as [|b xs]; simpl.
  - intros H. by apply elem_of_nil in H.
  - intros [->|H]%elem_of_cons; [left|right; by apply IH].
Qed.

Lemma elem_of_tail x xs : x ∈ tail xs -> x ∈ xs.
Proof. destruct xs; simpl; [done|]. by right. Qed.

(** A path only depends on the nodes on it. *)
Lemma path_ext h h' xs :
  (forall x, x ∈ xs -> h' !! x = h !! x) -> path h xs -> path h' xs.
Proof.
  intros H. apply path_frame; intros x Hx; unfold nxt, prv;
    rewrite H; auto using elem_of_removelast, elem_of_tail.
Qed.

Lemma path_allocated h xs x :
  path h xs -> 2 <= length xs -> x ∈ xs -> x < length h.
Proof.
  induction xs as [|a xs IH]; [by intros _ _ ?%elem_of_nil|].
  destruct xs as [|b xs]; [simpl; lia|].
  intros (H1 & H2 & H3) _ [->|Hx]%elem_of_cons.
  - unfold nxt in H1. apply lookup_fmap_Some in H1 as (? & H1 & _).
    by eapply lookup_lt_Some.
  - destruct xs as [|c xs].
    + apply list_elem_of_singleton in Hx as ->.
      unfold prv in H2. apply lookup_fmap_Some in H2 as (? & H2 & _).
      by eapply lookup_lt_Some.
    + apply IH; [done|simpl; lia|done].
Qed.
End Paths.

(** ** The store after an insertion or a deletion *)

Section Splicing.
Import DoublyLinkedBase.
Implicit Types (h : list Node) (xs ys ns : list loc) (l p s n : loc).

Lemma nxt_spliced e p s h l :
  l < length h ->
  nxt (spliced e p s h) l
  = if decide (p = l) then Some (Some (length h)) else nxt h l.
Proof.
  intros Hl. unfold nxt, spliced.
  rewrite next_alter_prev, next_alter_next, lookup_app_l by done.
  apply lookup_lt_is_Some_2 in Hl as [nd ->]. by case_decide.
Qed.

Lemma prv_spliced e p s h l :
  l < length h ->
  prv (spliced e p s h) l
  = if decide (s = l) then Some (Some (length h)) else prv h l.
Proof.
  intros Hl. unfold prv, spliced. rewrite prev_alter_prev.
  pose proof Hl as [nd Hnd]%lookup_lt_is_Some_2.
  case_decide.
  - rewrite lookup_alter_node, lookup_app_l, Hnd by done. by case_decide.
  - by rewrite prev_alter_next, lookup_app_l.
Qed.

Lemma spliced_other e p s h l :
  l <> p -> l <> s -> l < length h -> spliced e p s h !! l = h !! l.
Proof.
  intros Hp Hs Hl. unfold spliced.
  by rewrite !list_lookup_alter_ne, lookup_app_l.
Qed.

Lemma spliced_length e p s h : length (spliced e p s h) = S (length h).
Proof. unfold spliced. rewrite !length_alter, length_app. simpl. lia. Qed.

Lemma nxt_unlinked n p s h l :
  l < length h ->
  nxt (unlinked n p s h) l
  = if decide (n = l) then Some None
    else if decide (p = l) then Some (Some s) else nxt h l.
Proof.
  intros Hl. unfold nxt, unlinked.
  rewrite next_alter_element, next_alter_next, !next_alter_prev, next_alter_next.
  apply lookup_lt_is_Some_2 in Hl as [nd Hnd].
  repeat case_decide; subst; rewrite ?lookup_alter_node, ?Hnd;
    repeat case_decide; try done; by rewrite ?Hnd.
Qed.

Lemma prv_unlinked n p s h l :
  l < length h ->
  prv (unlinked n p s h) l
  = if decide (n = l) then Some None
    else if decide (s = l) then Some (Some p) else prv h l.
Proof.
  intros Hl. unfold prv, unlinked.
  rewrite prev_alter_element, prev_alter_next, !prev_alter_prev, prev_alter_next.
  apply lookup_lt_is_Some_2 in Hl as [nd Hnd].
  repeat case_decide; subst; rewrite ?lookup_alter_node, ?Hnd;
    repeat case_decide; try done; by rewrite ?Hnd.
Qed.

Lemma unlinked_other n p s h l :
  l <> n -> l <> p -> l <> s -> unlinked n p s h !! l = h !! l.
Proof. intros. unfold unlinked. by rewrite !list_lookup_alter_ne. Qed.

Lemma full_allocated h d ns x :
  path h (full d ns) -> x ∈ full d ns -> x < length h.
Proof.
  intros Hp. apply path_allocated; [done|].
  unfold full. simpl. rewrite length_app. simpl. lia.
Qed.

Lemma list_ok_ext h h' d ns :
  (forall x, x ∈ full d ns -> h' !! x = h !! x) ->
  list_ok h d ns -> list_ok h' d ns.
Proof.
  intros H [Hpath Hnd Hh Ht Hs]. split; try done.
  - by eapply path_ext.
  - unfold prv. rewrite H; [done|]. by left.
  - unfold nxt. rewrite H; [done|]. unfold full. set_solver.
Qed.

Lemma full_trailer_elem d ns xs s ys :
  full d ns = xs ++ s :: ys -> _trailer d ∈ s :: ys.
Proof.
  intros H.
  assert (last (full d ns) = Some (_trailer d)) as Hl.
  { unfold full. by rewrite app_comm_cons, last_snoc. }
  rewrite H, last_app in Hl. simpl in Hl.
  destruct (last (s :: ys)) as [t|] eqn:E.
  - injection Hl as ->. by apply last_Some_elem_of.
  - by apply last_None in E.
Qed.

Lemma full_header_elem d ns xs p ys :
  full d ns = xs ++ p :: ys -> _header d ∈ xs ++ [p].
Proof.
  unfold full. destruct xs as [|a xs]; simpl; intros [= -> _]; by left.
Qed.

Lemma list_ok_spliced h d ns e xs p s ys ns' :
  list_ok h d ns ->
  full d ns = xs ++ p :: s :: ys ->
  full d ns' = xs ++ p :: length h :: s :: ys ->
  length ns' = S (length ns) ->
  list_ok (spliced e p s h) (grow 1 d) ns'.
Proof.
  intros [Hpath Hnd Hh Ht Hs] Hfull Hfull' Hlen.
  assert (forall x, x ∈ full d ns -> x < length h) as Hall
      by (intros; by eapply full_allocated).
  pose proof (full_header_elem _ _ _ _ _ Hfull) as Hhd.
  pose proof (full_trailer_elem d ns (xs ++ [p]) s ys) as Htl.
  rewrite <- app_assoc in Htl. specialize (Htl Hfull).
  rewrite Hfull in Hpath, Hnd, Hall.
  assert (p < length h /\ s < length h) as [Hp Hsl] by (split; apply Hall; set_solver).
  assert (p <> s /\ (p ∉ xs) /\ (s ∉ xs) /\ (p ∉ ys) /\ (s ∉ ys))
    as (Hps & Hpx & Hsx & Hpy & Hsy).
  { apply NoDup_app in Hnd as (_ & Hd1 & Hd2).
    apply NoDup_cons in Hd2 as (Hd2 & Hd3). apply NoDup_cons in Hd3 as (Hd3 & _).
    set_solver. }
  split.
  - change (full (grow 1 d) ns') with (full d ns'). rewrite Hfull'.
    apply path_app in Hpath as (Hpre & Hsuf).
    apply path_app. split.
    + eapply path_frame; [| |exact Hpre].
      * rewrite removelast_last. intros x Hx.
        rewrite nxt_spliced by (apply Hall; set_solver).
        case_decide; [set_solver|done].
      * intros x Hx%elem_of_tail.
        rewrite prv_spliced by (apply Hall; set_solver).
        case_decide; [set_solver|done].
    + destruct Hsuf as (H1 & H2 & Hsuf).
      apply path_cons. split; [|split].
      { rewrite nxt_spliced by done. by rewrite decide_True. }
      { unfold prv. by rewrite spliced_new. }
      apply path_cons. split; [|split].
      { unfold nxt. by rewrite spliced_new. }
      { rewrite prv_spliced by done. by rewrite decide_True. }
      eapply path_frame; [| |exact Hsuf].
      * intros x Hx%elem_of_removelast.
        rewrite nxt_spliced by (apply Hall; set_solver).
        case_decide; [set_solver|done].
      * intros x Hx. simpl in Hx.
        rewrite prv_spliced by (apply Hall; set_solver).
        case_decide; [set_solver|done].
  - change (full (grow 1 d) ns') with (full d ns'). rewrite Hfull'.
    assert (length h ∉ xs ++ p :: s :: ys) as Hnew.
    { intros Hin. apply Hall in Hin. lia. }
    apply NoDup_app in Hnd as (Hd1 & Hd2 & Hd3).
    apply NoDup_app. split; [done|]. split.
    + intros x Hx. specialize (Hd2 x Hx). set_solver.
    + apply NoDup_cons in Hd3 as (Hd3 & Hd4).
      apply NoDup_cons. split; [set_solver|].
      apply NoDup_cons. split; [set_solver|done].
  - simpl. rewrite prv_spliced by (apply Hall; set_solver).
    case_decide; [set_solver|done].
  - simpl. rewrite nxt_spliced by (apply Hall; set_solver).
    case_decide; [set_solver|done].
  - simpl. lia.
Qed.

Lemma list_ok_unlinked h d ns xs p n s ys ns' :
  list_ok h d ns ->
  full d ns = xs ++ p :: n :: s :: ys ->
  full d ns' = xs ++ p :: s :: ys ->
  length ns = S (length ns') ->
  list_ok (unlinked n p s h) (grow (-1) d) ns'.
Proof.
  intros [Hpath Hnd Hh Ht Hs] Hfull Hfull' Hlen.
  assert (forall x, x ∈ full d ns -> x < length h) as Hall
      by (intros; by eapply full_allocated).
  pose proof (full_header_elem _ _ _ _ _ Hfull) as Hhd.
  pose proof (full_trailer_elem d ns (xs ++ [p; n]) s ys) as Htl.
  rewrite <- app_assoc in Htl. specialize (Htl Hfull).
  rewrite Hfull in Hpath, Hnd, Hall.
  assert (p < length h /\ s < length h /\ n < length h) as (Hp & Hsl & Hnl).
  { repeat split; apply Hall; set_solver. }
  assert (p <> s /\ p <> n /\ n <> s /\ (p ∉ xs) /\ (n ∉ xs) /\ (s ∉ xs)
          /\ (p ∉ ys) /\ (n ∉ ys) /\ (s ∉ ys))
    as (Hps & Hpn & Hns & Hpx & Hnx & Hsx & Hpy & Hny & Hsy).
  { apply NoDup_app in Hnd as (_ & Hd1 & Hd2).
    apply NoDup_cons in Hd2 as (Hd2 & Hd3). apply NoDup_cons in Hd3 as (Hd3 & Hd4).
    apply NoDup_cons in Hd4 as (Hd4 & _).
    set_solver. }
  split.
  - change (full (grow (-1) d) ns') with (full d ns'). rewrite Hfull'.
    apply path_app in Hpath as (Hpre & Hsuf).
    destruct Hsuf as (H1 & H2 & H3 & H4 & Hsuf).
    apply path_app. split.
    + eapply path_frame; [| |exact Hpre].
      * rewrite removelast_last. intros x Hx.
        rewrite nxt_unlinked by (apply Hall; set_solver).
        repeat case_decide; set_solver.
      * intros x Hx%elem_of_tail.
        rewrite prv_unlinked by (apply Hall; set_solver).
        repeat case_decide; set_solver.
    + apply path_cons. split; [|split].
      { rewrite nxt_unlinked by done.
        rewrite decide_False, decide_True by done. done. }
      { rewrite prv_unlinked by done.
        rewrite decide_False, decide_True by done. done. }
      eapply path_frame; [| |exact Hsuf].
      * intros x Hx%elem_of_removelast.
        rewrite nxt_unlinked by (apply Hall; set_solver).
        repeat case_decide; set_solver.
      * intros x Hx. simpl in Hx.
        rewrite prv_unlinked by (apply Hall; set_solver).
        repeat case_decide; set_solver.
  - change (full (grow (-1) d) ns') with (full d ns'). rewrite Hfull'.
    apply NoDup_app in Hnd as (Hd1 & Hd2 & Hd3).
    apply NoDup_app. split; [done|]. split.
    + intros x Hx. specialize (Hd2 x Hx). set_solver.
    + apply NoDup_cons in Hd3 as (Hd3 & Hd4).
      apply NoDup_cons in Hd4 as (Hd4 & Hd5).
      apply NoDup_cons. split; [set_solver|done].
  - simpl. rewrite prv_unlinked by (apply Hall; set_solver).
    repeat case_decide; set_solver.
  - simpl. rewrite nxt_unlinked by (apply Hall; set_solver).
    repeat case_decide; set_solver.
  - simpl. lia.
Qed.
End Splicing.

(** ** Insertions and deletions keep the shape *)

Section Shape.
Import DoublyLinkedBase.
Variable slots : list string.
Implicit Types (w : world) (G : ghost) (h : list Node) (d : DLB).
Implicit Types (xs ys ns : list loc) (p s n : loc).

Lemma full_split d l1 l2 xs p s ys :
  _header d :: l1 = xs ++ [p] -> l2 ++ [_trailer d] = s :: ys ->
  full d (l1 ++ l2) = xs ++ p :: s :: ys.
Proof.
  intros H1 H2. unfold full.
  rewrite <- app_assoc, app_comm_cons, H1, H2, <- app_assoc. done.
Qed.

Lemma snoc_exists n ns : exists xs p, n :: ns = xs ++ [p].
Proof.
  destruct (last (n :: ns)) as [p|] eqn:E.
  - apply last_Some in E as [xs E]. eauto.
  - by apply last_None in E.
Qed.

Lemma path_mid h xs p s ys :
  path h (xs ++ p :: s :: ys) ->
  nxt h p = Some (Some s) /\ prv h s = Some (Some p).
Proof. intros (_ & H1 & H2 & _)%path_app. done. Qed.

Lemma list_ok_insert h d l1 l2 xs p s ys e :
  list_ok h d (l1 ++ l2) ->
  _header d :: l1 = xs ++ [p] -> l2 ++ [_trailer d] = s :: ys ->
  list_ok (spliced e p s h) (grow 1 d) (l1 ++ length h :: l2).
Proof.
  intros Hok H1 H2. eapply list_ok_spliced; [done|by apply full_split| |].
  - unfold full.
    rewrite <- app_assoc, app_comm_cons, H1, <- app_comm_cons, H2, <- app_assoc.
    done.
  - rewrite !length_app. simpl. lia.
Qed.

Lemma list_ok_delete h d l1 n l2 xs p s ys :
  list_ok h d (l1 ++ n :: l2) ->
  _header d :: l1 = xs ++ [p] -> l2 ++ [_trailer d] = s :: ys ->
  list_ok (unlinked n p s h) (grow (-1) d) (l1 ++ l2).
Proof.
  intros Hok H1 H2. eapply list_ok_unlinked; [done| |by apply full_split|].
  - unfold full.
    rewrite <- app_assoc, app_comm_cons, H1, <- app_comm_cons, H2, <- app_assoc.
    done.
  - rewrite !length_app. simpl. lia.
Qed.

(** Every node on the path of a list is owned by that list. *)
Lemma wf_role w G L d ns x :
  wf slots w G -> objs w !! L = Some d -> chains G !! L = Some ns ->
  x ∈ full d ns ->
  exists r, owner G !! x = Some r /\ role_list r = L.
Proof.
  intros Hwf Hd Hns. unfold full.
  rewrite elem_of_cons, elem_of_app, list_elem_of_singleton.
  intros [->|[Hx| ->]].
  - exists (RHeader L). split; [by eapply wf_header|done].
  - exists (RReal L). split; [by eapply wf_real|done].
  - exists (RTrailer L). split; [by eapply wf_trailer|done].
Qed.

Lemma wf_disjoint w G L1 L2 d1 d2 ns1 ns2 x :
  wf slots w G -> L1 <> L2 ->
  objs w !! L1 = Some d1 -> chains G !! L1 = Some ns1 ->
  objs w !! L2 = Some d2 -> chains G !! L2 = Some ns2 ->
  x ∈ full d1 ns1 -> x ∉ full d2 ns2.
Proof.
  intros Hwf Hne Hd1 Hn1 Hd2 Hn2 Hx1 Hx2.
  destruct (wf_role _ _ _ _ _ _ Hwf Hd1 Hn1 Hx1) as (r1 & Hr1 & <-).
  destruct (wf_role _ _ _ _ _ _ Hwf Hd2 Hn2 Hx2) as (r2 & Hr2 & <-).
  congruence.
Qed.

Lemma wf_chain_exists w G L d :
  wf slots w G -> objs w !! L = Some d -> exists ns, chains G !! L = Some ns.
Proof.
  intros Hwf Hd. apply lookup_lt_is_Some_2.
  rewrite (wf_chains _ _ _ Hwf). by eapply lookup_lt_Some.
Qed.

Lemma wf_obj_exists w G L ns :
  wf slots w G -> chains G !! L = Some ns -> exists d, objs w !! L = Some d.
Proof.
  intros Hwf Hd. apply lookup_lt_is_Some_2.
  rewrite <- (wf_chains _ _ _ Hwf). by eapply lookup_lt_Some.
Qed.

Lemma wf_insert w G L d l1 l2 xs p s ys e :
  wf slots w G ->
  objs w !! L = Some d -> chains G !! L = Some (l1 ++ l2) ->
  _header d :: l1 = xs ++ [p] -> l2 ++ [_trailer d] = s :: ys ->
  wf slots (inserted L e p s w) (ghost_inserted L l1 l2 w G).
Proof.
  intros Hwf Hd Hns H1 H2.
  pose proof (wf_list _ _ _ Hwf _ _ _ Hd Hns) as Hok.
  pose proof (full_split _ _ _ _ _ _ _ H1 H2) as Hfull.
  assert (forall x, x ∈ full d (l1 ++ l2) -> x < length (nodes w)) as Hall.
  { intros x. apply full_allocated. by destruct Hok. }
  assert (p ∈ full d (l1 ++ l2) /\ s ∈ full d (l1 ++ l2)) as [Hp Hs].
  { rewrite Hfull. set_solver. }
  assert (L < length (chains G)) as HL by (by eapply lookup_lt_Some).
  split; simpl.
  - intros _. apply (wf_admits _ _ _ Hwf). intros E. apply Hall in Hp.
    rewrite E in Hp. simpl in Hp. lia.
  - rewrite length_insert, length_alter. apply (wf_chains _ _ _ Hwf).
  - rewrite length_app, spliced_length, (wf_owner _ _ _ Hwf). simpl. lia.
  - intros L2 d2 ns2. rewrite list_lookup_alter.
    destruct (decide (L = L2)) as [<-|Hne].
    + rewrite Hd, list_lookup_insert_eq by done. simpl.
      intros [= <-] [= <-]. by eapply list_ok_insert.
    + rewrite list_lookup_insert_ne by done. intros Hd2 Hns2.
      eapply list_ok_ext; [|by eapply wf_list].
      intros x Hx.
      pose proof (wf_disjoint _ _ _ _ _ _ _ _ x Hwf (not_eq_sym Hne)
                    Hd2 Hns2 Hd Hns Hx) as Hnot.
      apply spliced_other; [congruence|congruence|].
      eapply full_allocated; [|done].
      by destruct (wf_list _ _ _ Hwf _ _ _ Hd2 Hns2).
  - intros L2 d2. rewrite list_lookup_alter.
    destruct (decide (L = L2)) as [<-|Hne].
    + rewrite Hd. simpl. intros [= <-]. simpl.
      apply lookup_app_l_Some. by eapply wf_header.
    + intros Hd2. apply lookup_app_l_Some. by eapply wf_header.
  - intros L2 d2. rewrite list_lookup_alter.
    destruct (decide (L = L2)) as [<-|Hne].
    + rewrite Hd. simpl. intros [= <-]. simpl.
      apply lookup_app_l_Some. by eapply wf_trailer.
    + intros Hd2. apply lookup_app_l_Some. by eapply wf_trailer.
  - intros L2 ns2 n.
    destruct (decide (L = L2)) as [<-|Hne].
    + rewrite list_lookup_insert_eq by done. intros [= <-].
      rewrite elem_of_app, elem_of_cons. intros Hn.
      destruct (decide (n = length (nodes w))) as [->|Hnn].
      * rewrite <- (wf_owner _ _ _ Hwf). by rewrite list_lookup_middle.
      * apply lookup_app_l_Some. eapply wf_real; [done..|].
        rewrite elem_of_app. tauto.
    + rewrite list_lookup_insert_ne by done. intros Hns2 Hn.
      apply lookup_app_l_Some. by eapply wf_real.
  - intros L2 n Hn.
    assert (nxt (nodes w) p = Some (Some s)) as Hps.
    { destruct Hok as [Hpath _ _ _ _]. rewrite Hfull in Hpath.
      by apply path_mid in Hpath as [? _]. }
    apply lookup_app_Some in Hn as [Hn|[Hge Hn]].
    + pose proof (lookup_lt_Some _ _ _ Hn) as Hlt.
      rewrite (wf_owner _ _ _ Hwf) in Hlt.
      destruct (wf_dead _ _ _ Hwf _ _ Hn) as (ns2 & Hns2 & Hcase).
      assert (nxt (nodes w) n = Some None ->
              nxt (spliced e p s (nodes w)) n = Some None) as Hnone.
      { intros Hnn. rewrite nxt_spliced by done.
        case_decide; [congruence|done]. }
      destruct (decide (L = L2)) as [<-|Hne].
      * rewrite list_lookup_insert_eq by done. eexists. split; [done|].
        assert (ns2 = l1 ++ l2) as -> by congruence.
        destruct Hcase as [Hin|Hnn]; [left|right; auto].
        rewrite elem_of_app, elem_of_cons. rewrite elem_of_app in Hin. tauto.
      * rewrite list_lookup_insert_ne by done. exists ns2. split; [done|].
        destruct Hcase; auto.
    + destruct (n - length (owner G)) as [|k] eqn:E;
        [|destruct k; simpl in Hn; discriminate].
      simpl in Hn. injection Hn as <-.
      assert (n = length (nodes w)) as ->
          by (rewrite <- (wf_owner _ _ _ Hwf); lia).
      rewrite list_lookup_insert_eq by done.
      eexists; split; [done|left; set_solver].
Qed.

Lemma wf_delete w G L d l1 n l2 xs p s ys :
  wf slots w G ->
  objs w !! L = Some d -> chains G !! L = Some (l1 ++ n :: l2) ->
  _header d :: l1 = xs ++ [p] -> l2 ++ [_trailer d] = s :: ys ->
  wf slots (removed L n p s w) (ghost_removed L l1 l2 G).
Proof.
  intros Hwf Hd Hns H1 H2.
  pose proof (wf_list _ _ _ Hwf _ _ _ Hd Hns) as Hok.
  assert (full d (l1 ++ n :: l2) = xs ++ p :: n :: s :: ys) as Hfull.
  { unfold full.
    rewrite <- app_assoc, app_comm_cons, H1, <- app_comm_cons, H2, <- app_assoc.
    done. }
  assert (forall x, x ∈ full d (l1 ++ n :: l2) -> x < length (nodes w)) as Hall.
  { intros x. apply full_allocated. by destruct Hok. }
  assert (p ∈ full d (l1 ++ n :: l2) /\ n ∈ full d (l1 ++ n :: l2)
          /\ s ∈ full d (l1 ++ n :: l2)) as (Hp & Hn & Hs).
  { rewrite Hfull. set_solver. }
  assert (L < length (chains G)) as HL by (by eapply lookup_lt_Some).
  assert (nxt (nodes w) p = Some (Some n)) as Hpn.
  { destruct Hok as [Hpath _ _ _ _]. rewrite Hfull in Hpath.
    by apply path_mid in Hpath as [? _]. }
  assert (forall x, x < length (nodes w) -> nxt (nodes w) x = Some None ->
                    nxt (unlinked n p s (nodes w)) x = Some None) as Hnone.
  { intros x Hx Hnn. rewrite nxt_unlinked by done.
    repeat case_decide; congruence. }
  split; simpl.
  - intros _. apply (wf_admits _ _ _ Hwf). intros E. apply Hall in Hp.
    rewrite E in Hp. simpl in Hp. lia.
  - rewrite length_insert, length_alter. apply (wf_chains _ _ _ Hwf).
  - rewrite unlinked_length. apply (wf_owner _ _ _ Hwf).
  - intros L2 d2 ns2. rewrite list_lookup_alter.
    destruct (decide (L = L2)) as [<-|Hne].
    + rewrite Hd, list_lookup_insert_eq by done. simpl.
      intros [= <-] [= <-]. by eapply list_ok_delete.
    + rewrite list_lookup_insert_ne by done. intros Hd2 Hns2.
      eapply list_ok_ext; [|by eapply wf_list].
      intros x Hx.
      pose proof (wf_disjoint _ _ _ _ _ _ _ _ x Hwf (not_eq_sym Hne)
                    Hd2 Hns2 Hd Hns Hx) as Hnot.
      apply unlinked_other; congruence.
  - intros L2 d2. rewrite list_lookup_alter.
    destruct (decide (L = L2)) as [<-|Hne].
    + rewrite Hd. simpl. intros [= <-]. simpl. by eapply wf_header.
    + intros Hd2. by eapply wf_header.
  - intros L2 d2. rewrite list_lookup_alter.
    destruct (decide (L = L2)) as [<-|Hne].
    + rewrite Hd. simpl. intros [= <-]. simpl. by eapply wf_trailer.
    + intros Hd2. by eapply wf_trailer.
  - intros L2 ns2 x.
    destruct (decide (L = L2)) as [<-|Hne].
    + rewrite list_lookup_insert_eq by done. intros [= <-] Hx.
      eapply wf_real; [done..|]. set_solver.
    + rewrite list_lookup_insert_ne by done. intros Hns2 Hx.
      by eapply wf_real.
  - intros L2 x Hx.
    pose proof (lookup_lt_Some _ _ _ Hx) as Hlt.
    rewrite (wf_owner _ _ _ Hwf) in Hlt.
    destruct (wf_dead _ _ _ Hwf _ _ Hx) as (ns2 & Hns2 & Hcase).
    destruct (decide (L = L2)) as [<-|Hne].
    + rewrite list_lookup_insert_eq by done. eexists. split; [done|].
      assert (ns2 = l1 ++ n :: l2) as -> by congruence.
      destruct Hcase as [Hin|Hnn]; [|right; auto].
      destruct (decide (x = n)) as [->|Hxn].
      * right. rewrite nxt_unlinked by done. by rewrite decide_True.
      * left. set_solver.
    + rewrite list_lookup_insert_ne by done. exists ns2. split; [done|].
      destruct Hcase; auto.
Qed.

Lemma extends_refl G : extends G G.
Proof. exists []. by rewrite app_nil_r. Qed.

Lemma extends_trans G1 G2 G3 : extends G1 G2 -> extends G2 G3 -> extends G1 G3.
Proof. intros [k1 H1] [k2 H2]. exists (k1 ++ k2). by rewrite H2, H1, app_assoc. Qed.

Lemma genuine_extends G G' q : extends G G' -> genuine G q -> genuine G' q.
Proof.
  intros [k Hk] (n & Hn & Ho). exists n. split; [done|].
  rewrite Hk. by apply lookup_app_l_Some.
Qed.

Lemma passable_extends G G' a : extends G G' -> passable G a -> passable G' a.
Proof. destruct a; simpl; [apply genuine_extends|done]. Qed.
End Shape.

(** ** The methods on a well-formed store *)

Section Api.
Import DoublyLinkedBase PositionalList.
Variable slots : list string.
Implicit Types (w : world) (G : ghost) (d : DLB).
Implicit Types (xs ys ns : list loc) (p s n : loc).

Lemma wf_list_at w G L d :
  wf slots w G -> objs w !! L = Some d ->
  exists ns, chains G !! L = Some ns /\ list_ok (nodes w) d ns.
Proof.
  intros Hwf Hd. destruct (wf_chain_exists _ _ _ _ _ Hwf Hd) as [ns Hns].
  exists ns. split; [done|]. by eapply wf_list.
Qed.

Lemma wf_admits_obj w G L d :
  wf slots w G -> objs w !! L = Some d -> admits_all slots.
Proof.
  intros Hwf Hd. destruct (wf_list_at _ _ _ _ Hwf Hd) as (ns & Hns & Hok).
  apply (wf_admits _ _ _ Hwf). intros E.
  assert (_header d < length (nodes w)) as Hlt.
  { eapply full_allocated; [by destruct Hok|]. by left. }
  rewrite E in Hlt. simpl in Hlt. lia.
Qed.

Lemma nxt_lookup h n x :
  nxt h n = Some x -> exists nd, h !! n = Some nd /\ _next nd = x.
Proof. apply lookup_fmap_Some. Qed.

Lemma prv_lookup h n x :
  prv h n = Some x -> exists nd, h !! n = Some nd /\ _prev nd = x.
Proof. apply lookup_fmap_Some. Qed.

Lemma make_position_run L d r w :
  objs w !! L = Some d ->
  r <> Some (_header d) -> r <> Some (_trailer d) ->
  _make_position L r w = (Ok (Some (mkPosition L r)), w).
Proof.
  intros Hd Hh Ht. unfold _make_position.
  rewrite (bind_step _ _ _ _ _ (obj_run _ _ _ Hd)).
  by rewrite !bool_decide_eq_false_2.
Qed.

Lemma make_position_sentinel L d r w :
  objs w !! L = Some d ->
  r = Some (_header d) \/ r = Some (_trailer d) ->
  _make_position L r w = (Ok None, w).
Proof.
  intros Hd Hr. unfold _make_position.
  rewrite (bind_step _ _ _ _ _ (obj_run _ _ _ Hd)).
  destruct Hr as [-> | ->].
  - by rewrite bool_decide_eq_true_2.
  - rewrite (bool_decide_eq_true_2 (Some (_trailer d) = Some (_trailer d))) by done.
    by rewrite orb_true_r.
Qed.

(** The overriding [_insert_between] between two neighbours of a list. *)
Lemma insert_between_wf w G L d l1 l2 xs p s ys e :
  wf slots w G ->
  objs w !! L = Some d -> chains G !! L = Some (l1 ++ l2) ->
  _header d :: l1 = xs ++ [p] -> l2 ++ [_trailer d] = s :: ys ->
  PositionalList._insert_between slots L e (Some p) (Some s) w
  = (Ok (Some (mkPosition L (Some (length (nodes w))))), inserted L e p s w)
  /\ wf slots (inserted L e p s w) (ghost_inserted L l1 l2 w G)
  /\ genuine (ghost_inserted L l1 l2 w G) (mkPosition L (Some (length (nodes w)))).
Proof.
  intros Hwf Hd Hns H1 H2.
  destruct (wf_admits_obj _ _ _ _ Hwf Hd) as (He & Hp & Hn).
  pose proof (wf_list _ _ _ Hwf _ _ _ Hd Hns) as Hok.
  pose proof (full_split _ _ _ _ _ _ _ H1 H2) as Hfull.
  assert (forall x, x ∈ full d (l1 ++ l2) -> x < length (nodes w)) as Hall.
  { intros x. apply full_allocated. by destruct Hok. }
  assert (p < length (nodes w) /\ s < length (nodes w)) as [Hpl Hsl].
  { split; apply Hall; rewrite Hfull; set_solver. }
  split; [|split].
  - unfold PositionalList._insert_between.
    rewrite (bind_step _ _ _ _ _
               (insert_between_run slots L e p s d w He Hp Hn Hpl Hsl Hd)).
    apply make_position_run with (d := grow 1 d).
    + simpl. by rewrite list_lookup_alter_eq, Hd.
    + simpl. intros [= E].
      assert (_header d < length (nodes w)) by (apply Hall; by left). lia.
    + simpl. intros [= E].
      assert (_trailer d < length (nodes w))
        by (apply Hall; unfold full; set_solver). lia.
  - by eapply wf_insert.
  - exists (length (nodes w)). split; [done|]. simpl.
    rewrite <- (wf_owner _ _ _ Hwf). by rewrite list_lookup_middle.
Qed.

Lemma extends_inserted L l1 l2 w G : extends G (ghost_inserted L l1 l2 w G).
Proof. by exists [RReal L]. Qed.

Lemma extends_removed L l1 l2 G : extends G (ghost_removed L l1 l2 G).
Proof. exists []. simpl. by rewrite app_nil_r. Qed.

(** add_first on a well-formed list. *)
Lemma add_first_wf w G L d ns e :
  wf slots w G -> objs w !! L = Some d -> chains G !! L = Some ns ->
  exists s ys,
    ns ++ [_trailer d] = s :: ys /\
    add_first slots L e w
    = (Ok (Some (mkPosition L (Some (length (nodes w))))),
       inserted L e (_header d) s w)
    /\ wf slots (inserted L e (_header d) s w) (ghost_inserted L [] ns w G)
    /\ genuine (ghost_inserted L [] ns w G) (mkPosition L (Some (length (nodes w)))).
Proof.
  intros Hwf Hd Hns.
  destruct (wf_admits_obj _ _ _ _ Hwf Hd) as (He & Hp & Hn).
  pose proof (wf_list _ _ _ Hwf _ _ _ Hd Hns) as Hok.
  assert (exists s ys, ns ++ [_trailer d] = s :: ys) as (s & ys & H2).
  { destruct ns; simpl; eauto. }
  assert (_header d :: [] = [] ++ [_header d]) as H1 by done.
  pose proof (full_split d [] ns [] _ _ _ H1 H2) as Hfull. simpl in Hfull.
  destruct Hok as [Hpath _ _ _ _]. rewrite Hfull in Hpath.
  destruct Hpath as (Hnx & _).
  apply nxt_lookup in Hnx as (nd & Hnd & Hnx).
  exists s, ys. split; [done|]. unfold add_first.
  rewrite (bind_step _ _ _ _ _ (obj_run _ _ _ Hd)).
  rewrite (bind_step _ _ _ _ _ (get_next_run _ _ _ _ Hn Hnd)). rewrite Hnx.
  by eapply (insert_between_wf w G L d [] ns []).
Qed.

(** add_last on a well-formed list. *)
Lemma add_last_wf w G L d ns e :
  wf slots w G -> objs w !! L = Some d -> chains G !! L = Some ns ->
  exists xs p,
    _header d :: ns = xs ++ [p] /\
    add_last slots L e w
    = (Ok (Some (mkPosition L (Some (length (nodes w))))),
       inserted L e p (_trailer d) w)
    /\ wf slots (inserted L e p (_trailer d) w) (ghost_inserted L ns [] w G)
    /\ genuine (ghost_inserted L ns [] w G) (mkPosition L (Some (length (nodes w)))).
Proof.
  intros Hwf Hd Hns.
  destruct (wf_admits_obj _ _ _ _ Hwf Hd) as (He & Hp & Hn).
  pose proof (wf_list _ _ _ Hwf _ _ _ Hd Hns) as Hok.
  destruct (snoc_exists (_header d) ns) as (xs & p & H1).
  assert ([] ++ [_trailer d] = _trailer d :: []) as H2 by done.
  pose proof (full_split d ns [] xs _ _ _ H1 H2) as Hfull.
  rewrite app_nil_r in Hfull.
  destruct Hok as [Hpath _ _ _ _]. rewrite Hfull in Hpath.
  apply path_mid in Hpath as (_ & Hpr).
  apply prv_lookup in Hpr as (nd & Hnd & Hpr).
  exists xs, p. split; [done|]. unfold add_last.
  rewrite (bind_step _ _ _ _ _ (obj_run _ _ _ Hd)).
  rewrite (bind_step _ _ _ _ _ (get_prev_run _ _ _ _ Hp Hnd)). rewrite Hpr.
  rewrite <- (app_nil_r ns) in Hns.
  by eapply (insert_between_wf w G L d ns [] xs).
Qed.

(** A real node of a list, with its two neighbours on the path. *)
Lemma chain_split h d ns n :
  list_ok h d ns -> n ∈ ns ->
  exists l1 l2 xs p s ys nd,
    ns = l1 ++ n :: l2 /\
    _header d :: l1 = xs ++ [p] /\ l2 ++ [_trailer d] = s :: ys /\
    h !! n = Some nd /\ _prev nd = Some p /\ _next nd = Some s.
Proof.
  intros [Hpath _ _ _ _] (l1 & l2 & ->)%list_elem_of_split.
  destruct (snoc_exists (_header d) l1) as (xs & p & H1).
  assert (exists s ys, l2 ++ [_trailer d] = s :: ys) as (s & ys & H2).
  { destruct l2; simpl; eauto. }
  assert (full d (l1 ++ n :: l2) = xs ++ p :: n :: s :: ys) as Hfull.
  { unfold full.
    rewrite <- app_assoc, app_comm_cons, H1, <- app_comm_cons, H2, <- app_assoc.
    done. }
  rewrite Hfull in Hpath.
  pose proof (path_mid _ _ _ _ _ Hpath) as (_ & Hpr).
  replace (xs ++ p :: n :: s :: ys) with ((xs ++ [p]) ++ n :: s :: ys) in Hpath
    by (by rewrite <- app_assoc).
  pose proof (path_mid _ _ _ _ _ Hpath) as (Hnx & _).
  apply prv_lookup in Hpr as (nd & Hnd & Hpr).
  apply nxt_lookup in Hnx as (nd' & Hnd' & Hnx).
  assert (nd' = nd) as -> by congruence.
  exists l1, l2, xs, p, s, ys, nd. done.
Qed.

(** [_validate] on an argument that a caller can pass: it raises and
    leaves the store, or the argument is the Position of a real node. *)
Lemma validate_wf w G L d ns a :
  wf slots w G -> objs w !! L = Some d -> chains G !! L = Some ns ->
  passable G a ->
  (exists e, _validate slots L a w = (Raise e, w)) \/
  (exists n, a = OPos (mkPosition L (Some n)) /\ n ∈ ns /\
             _validate slots L a w = (Ok (Some n), w)).
Proof.
  intros Hwf Hd Hns Ha.
  destruct (wf_admits_obj _ _ _ _ Hwf Hd) as (He & Hp & Hn).
  destruct a as [q|v]; [|left; by eexists].
  destruct (decide (_container q = L)) as [Hc|Hc];
    [|left; eexists; by apply validate_foreign].
  destruct Ha as (n & Hq & Ho). rewrite Hc in Ho.
  destruct (wf_dead _ _ _ Hwf _ _ Ho) as (ns' & Hns' & Hcase).
  assert (ns' = ns) as -> by congruence.
  destruct Hcase as [Hin|Hnone].
  - right. exists n. split; [destruct q; simpl in *; by subst|]. split; [done|].
    destruct (chain_split _ _ _ _ (wf_list _ _ _ Hwf _ _ _ Hd Hns) Hin)
      as (l1 & l2 & xs & p & s & ys & nd & _ & _ & _ & Hnd & _ & Hnx).
    by eapply validate_run.
  - left. apply nxt_lookup in Hnone as (nd & Hnd & Hnx).
    eexists. by eapply validate_deprecated.
Qed.

(** delete on the Position of a real node. *)
Lemma delete_wf w G L d l1 n l2 xs p s ys nd :
  wf slots w G ->
  objs w !! L = Some d -> chains G !! L = Some (l1 ++ n :: l2) ->
  _header d :: l1 = xs ++ [p] -> l2 ++ [_trailer d] = s :: ys ->
  nodes w !! n = Some nd -> _prev nd = Some p -> _next nd = Some s ->
  delete slots L (OPos (mkPosition L (Some n))) w
  = (Ok (_element nd), removed L n p s w)
  /\ wf slots (removed L n p s w) (ghost_removed L l1 l2 G).
Proof.
  intros Hwf Hd Hns H1 H2 Hnd Hpr Hnx.
  destruct (wf_admits_obj _ _ _ _ Hwf Hd) as (He & Hp & Hn).
  pose proof (wf_list _ _ _ Hwf _ _ _ Hd Hns) as Hok.
  assert (full d (l1 ++ n :: l2) = xs ++ p :: n :: s :: ys) as Hfull.
  { unfold full.
    rewrite <- app_assoc, app_comm_cons, H1, <- app_comm_cons, H2, <- app_assoc.
    done. }
  assert (forall x, x ∈ full d (l1 ++ n :: l2) -> x < length (nodes w)) as Hall.
  { intros x. apply full_allocated. by destruct Hok. }
  assert (p < length (nodes w) /\ s < length (nodes w)) as [Hpl Hsl].
  { split; apply Hall; rewrite Hfull; set_solver. }
  split; [|by eapply wf_delete].
  unfold delete.
  erewrite bind_step; [|by eapply validate_run].
  by eapply delete_node_run.
Qed.

Lemma init_run w :
  admits_all slots ->
  __init__ slots w = (Ok (length (objs w)), created w).
Proof.
  intros (He & Hp & Hn). unfold __init__.
  assert (forall e (r1 r2 : ref) w0, Node__init__ slots e r1 r2 w0
            = (Ok (length (nodes w0)),
               mkWorld (nodes w0 ++ [mkNode e r1 r2]) (objs w0))) as Hi.
  { intros. unfold Node__init__. by rewrite He, Hp, Hn. }
  rewrite (bind_step _ _ _ _ _ (Hi _ _ _ _)).
  rewrite (bind_step _ _ _ _ _ (Hi _ _ _ _)). simpl.
  unfold set_next, set_prev.
  erewrite bind_step;
    [|apply node_set_run; [done|simpl; rewrite !length_app; simpl; lia]].
  erewrite bind_step;
    [|apply node_set_run;
      [done|simpl; rewrite !length_alter, !length_app; simpl; lia]].
  unfold created. simpl.
  rewrite <- app_assoc. simpl.
  rewrite length_app. simpl. rewrite Nat.add_1_r.
  rewrite (alter_app_r_alt _ _ _ (length (nodes w))) by lia.
  rewrite Nat.sub_diag. simpl.
  rewrite (alter_app_r_alt _ _ _ (S (length (nodes w)))) by lia.
  replace (S (length (nodes w)) - length (nodes w)) with 1 by lia.
  reflexivity.
Qed.

Lemma init_Ok w L w' :
  __init__ slots w = (Ok L, w') -> admits_all slots.
Proof.
  unfold __init__. intros H. apply bind_Ok in H as (n & w1 & Hi & _).
  apply Node_init_Ok in Hi as (? & ? & ? & _). done.
Qed.

Lemma wf_init w G :
  wf slots w G -> admits_all slots ->
  wf slots (created w) (ghost_created w G).
Proof.
  intros Hwf Hadm.
  pose proof (wf_chains _ _ _ Hwf) as Hlc.
  pose proof (wf_owner _ _ _ Hwf) as Hlo.
  split; simpl.
  - done.
  - rewrite !length_app. simpl. lia.
  - rewrite !length_app. simpl. lia.
  - intros L d ns [[HL Hd]|[-> <-]]%lookup_snoc_Some.
    + rewrite lookup_app_l by lia. intros Hns.
      eapply list_ok_ext; [|by eapply wf_list].
      intros x Hx. apply lookup_app_l.
      eapply full_allocated; [|done].
      by destruct (wf_list _ _ _ Hwf _ _ _ Hd Hns).
    + rewrite <- Hlc, list_lookup_middle by done. intros [= <-].
      split; simpl.
      * unfold nxt, prv.
        rewrite (list_lookup_middle (nodes w) _ _ (length (nodes w))) by done.
        rewrite (lookup_app_r _ _ (S (length (nodes w)))) by lia.
        replace (S (length (nodes w)) - length (nodes w)) with 1 by lia.
        done.
      * unfold full. simpl. apply NoDup_cons. split; [|apply NoDup_singleton].
        rewrite list_elem_of_singleton. lia.
      * unfold prv. by rewrite list_lookup_middle.
      * unfold nxt. rewrite lookup_app_r by lia.
        replace (S (length (nodes w)) - length (nodes w)) with 1 by lia.
        done.
      * done.
  - intros L d [[HL Hd]|[-> <-]]%lookup_snoc_Some.
    + apply lookup_app_l_Some. by eapply wf_header.
    + simpl. rewrite <- Hlo. by rewrite list_lookup_middle.
  - intros L d [[HL Hd]|[-> <-]]%lookup_snoc_Some.
    + apply lookup_app_l_Some. by eapply wf_trailer.
    + simpl. rewrite <- Hlo. rewrite lookup_app_r by lia.
      replace (S (length (owner G)) - length (owner G)) with 1 by lia.
      done.
  - intros L ns n [[HL Hns]|[-> <-]]%lookup_snoc_Some Hn.
    + apply lookup_app_l_Some. by eapply wf_real.
    + by apply elem_of_nil in Hn.
  - intros L n [Hn|[Hge Hn]]%lookup_app_Some.
    + destruct (wf_dead _ _ _ Hwf _ _ Hn) as (ns & Hns & Hcase).
      exists ns. split; [by apply lookup_app_l_Some|].
      destruct Hcase as [?|Hnone]; [by left|right].
      unfold nxt in *. rewrite lookup_app_l; [done|].
      rewrite <- Hlo. by eapply lookup_lt_Some.
    + destruct (n - length (owner G)) as [|[|k]]; simpl in Hn; discriminate.
Qed.

Lemma wf_empty : wf slots empty_world (mkGhost [] []).
Proof.
  split; simpl; done.
Qed.

Lemma iter_from_None fuel L w : iter_from slots fuel L None w = Some (Ok []).
Proof. by destruct fuel. Qed.

Lemma chain_from_None fuel L w : chain_from slots fuel L None w = Some (Ok []).
Proof. by destruct fuel. Qed.

(** The loop of [__iter__] and the chain of [after] calls, from a real
    node to the trailer. *)
Lemma iter_from_path w L d rest n fuel :
  admits_all slots -> objs w !! L = Some d ->
  path (nodes w) (n :: rest ++ [_trailer d]) ->
  (forall x, x ∈ n :: rest -> x <> _header d /\ x <> _trailer d) ->
  length (n :: rest) <= fuel ->
  exists vs,
    iter_from slots fuel L (Some (mkPosition L (Some n))) w = Some (Ok vs) /\
    chain_from slots fuel L (Some (mkPosition L (Some n))) w
    = Some (Ok (map (fun x => mkPosition L (Some x)) (n :: rest))) /\
    Forall2 (fun x v => element slots (mkPosition L (Some x)) w = (Ok v, w))
      (n :: rest) vs.
Proof.
  intros (He & Hp & Hn) Hd. revert n fuel.
  induction rest as [|m rest IH]; intros n fuel Hpath Hreal Hfuel.
  - destruct fuel as [|fuel]; [simpl in Hfuel; lia|].
    simpl in Hpath. destruct Hpath as (Hnx & _ & _).
    apply nxt_lookup in Hnx as (nd & Hnd & Hnx).
    assert (after slots L (OPos (mkPosition L (Some n))) w = (Ok None, w)) as Haf.
    { unfold after.
      erewrite bind_step; [|by eapply validate_run].
      rewrite (bind_step _ _ _ _ _ (get_next_run _ _ _ _ Hn Hnd)). rewrite Hnx.
      eapply make_position_sentinel; [done|by right]. }
    assert (element slots (mkPosition L (Some n)) w = (Ok (_element nd), w))
      as Hel by (by apply get_element_run).
    exists [_element nd]. cbn [iter_from chain_from map].
    rewrite Hel, Haf, iter_from_None, chain_from_None.
    split; [done|]. split; [done|].
    by constructor; [|constructor].
  - destruct fuel as [|fuel]; [simpl in Hfuel; lia|].
    change (path (nodes w) (n :: m :: rest ++ [_trailer d])) in Hpath.
    destruct Hpath as (Hnx & _ & Hpath).
    apply nxt_lookup in Hnx as (nd & Hnd & Hnx).
    assert (after slots L (OPos (mkPosition L (Some n))) w
            = (Ok (Some (mkPosition L (Some m))), w)) as Haf.
    { unfold after.
      erewrite bind_step; [|by eapply validate_run].
      rewrite (bind_step _ _ _ _ _ (get_next_run _ _ _ _ Hn Hnd)). rewrite Hnx.
      destruct (Hreal m) as [Hmh Hmt]; [set_solver|].
      eapply make_position_run; [done|congruence|congruence]. }
    destruct (IH m fuel Hpath) as (vs & Hit & Hch & Hall).
    { intros x Hx. apply Hreal. by right. }
    { simpl in *. lia. }
    assert (element slots (mkPosition L (Some n)) w = (Ok (_element nd), w))
      as Hel by (by apply get_element_run).
    exists (_element nd :: vs).
    cbn [iter_from chain_from]. rewrite Hel, Haf, Hit, Hch.
    split; [done|]. split; [done|].
    by constructor.
Qed.

(** add_after and add_before on the Position of a real node. *)
Lemma add_after_wf w G L d l1 n l2 s ys e :
  wf slots w G ->
  objs w !! L = Some d -> chains G !! L = Some (l1 ++ n :: l2) ->
  l2 ++ [_trailer d] = s :: ys ->
  add_after slots L (OPos (mkPosition L (Some n))) e w
  = (Ok (Some (mkPosition L (Some (length (nodes w))))), inserted L e n s w)
  /\ wf slots (inserted L e n s w) (ghost_inserted L (l1 ++ [n]) l2 w G)
  /\ genuine (ghost_inserted L (l1 ++ [n]) l2 w G)
       (mkPosition L (Some (length (nodes w)))).
Proof.
  intros Hwf Hd Hns H2.
  destruct (wf_admits_obj _ _ _ _ Hwf Hd) as (He & Hp & Hn).
  pose proof (wf_list _ _ _ Hwf _ _ _ Hd Hns) as Hok.
  assert (_header d :: l1 ++ [n] = (_header d :: l1) ++ [n]) as H1 by done.
  assert (chains G !! L = Some ((l1 ++ [n]) ++ l2)) as Hns'
      by (by rewrite <- app_assoc).
  pose proof (full_split d (l1 ++ [n]) l2 _ _ _ _ H1 H2) as Hfull.
  rewrite <- app_assoc in Hfull. simpl in Hfull.
  destruct Hok as [Hpath _ _ _ _]. rewrite Hfull in Hpath.
  change (path (nodes w) ((_header d :: l1) ++ n :: s :: ys)) in Hpath.
  apply path_mid in Hpath as (Hnx & _).
  apply nxt_lookup in Hnx as (nd & Hnd & Hnx).
  unfold add_after.
  erewrite bind_step; [|by eapply validate_run].
  rewrite (bind_step _ _ _ _ _ (get_next_run _ _ _ _ Hn Hnd)). rewrite Hnx.
  by eapply (insert_between_wf w G L d (l1 ++ [n]) l2 (_header d :: l1)).
Qed.

Lemma add_before_wf w G L d l1 n l2 xs p e :
  wf slots w G ->
  objs w !! L = Some d -> chains G !! L = Some (l1 ++ n :: l2) ->
  _header d :: l1 = xs ++ [p] ->
  add_before slots L (OPos (mkPosition L (Some n))) e w
  = (Ok (Some (mkPosition L (Some (length (nodes w))))), inserted L e p n w)
  /\ wf slots (inserted L e p n w) (ghost_inserted L l1 (n :: l2) w G)
  /\ genuine (ghost_inserted L l1 (n :: l2) w G)
       (mkPosition L (Some (length (nodes w)))).
Proof.
  intros Hwf Hd Hns H1.
  destruct (wf_admits_obj _ _ _ _ Hwf Hd) as (He & Hp & Hn).
  pose proof (wf_list _ _ _ Hwf _ _ _ Hd Hns) as Hok.
  assert ((n :: l2) ++ [_trailer d] = n :: (l2 ++ [_trailer d])) as H2 by done.
  pose proof (full_split d l1 (n :: l2) _ _ _ _ H1 H2) as Hfull.
  destruct Hok as [Hpath _ _ _ _]. rewrite Hfull in Hpath.
  pose proof (path_mid _ _ _ _ _ Hpath) as (_ & Hpr).
  apply prv_lookup in Hpr as (nd & Hnd & Hpr).
  assert (exists s, _next nd = Some s) as (s & Hnx).
  { replace (xs ++ p :: n :: l2 ++ [_trailer d])
      with ((xs ++ [p]) ++ n :: l2 ++ [_trailer d]) in Hpath
      by (by rewrite <- app_assoc).
    destruct (l2 ++ [_trailer d]) as [|s ys] eqn:E; [by destruct l2|].
    apply path_mid in Hpath as (Hnx & _).
    apply nxt_lookup in Hnx as (nd' & Hnd' & Hnx).
    exists s. congruence. }
  unfold add_before.
  erewrite bind_step; [|by eapply validate_run].
  rewrite (bind_step _ _ _ _ _ (get_prev_run _ _ _ _ Hp Hnd)). rewrite Hpr.
  by eapply (insert_between_wf w G L d l1 (n :: l2) xs).
Qed.

End Api.

(** ** Every call keeps the store well formed *)

Section Calls.
Import DoublyLinkedBase PositionalList.
Variable slots : list string.
Implicit Types (w : world) (G : ghost) (d : DLB).
Implicit Types (xs ys ns : list loc) (p s n : loc).

Lemma kept_unchanged G w :
  wf slots w G -> kept slots G (None, w).
Proof. intros Hwf. exists G. split; [done|]. split; [apply extends_refl|done]. Qed.

Lemma kept_real G w L d ns n :
  wf slots w G -> objs w !! L = Some d -> chains G !! L = Some ns -> n ∈ ns ->
  kept slots G (Some (mkPosition L (Some n)), w).
Proof.
  intros Hwf Hd Hns Hn. exists G. split; [done|]. split; [apply extends_refl|].
  intros q [= <-]. exists n. split; [done|]. by eapply wf_real.
Qed.

Lemma real_of_full d ns x :
  x ∈ full d ns -> x <> _header d -> x <> _trailer d -> x ∈ ns.
Proof. unfold full. set_solver. Qed.

(** [_make_position] on a node of the path of the list. *)
Lemma make_position_kept G w L d ns x :
  wf slots w G -> objs w !! L = Some d -> chains G !! L = Some ns ->
  x ∈ full d ns ->
  exists r, _make_position L (Some x) w = (Ok r, w) /\ kept slots G (r, w).
Proof.
  intros Hwf Hd Hns Hx.
  destruct (decide (x = _header d)) as [->|Hh].
  { exists None. split; [|by apply kept_unchanged].
    eapply make_position_sentinel; [done|by left]. }
  destruct (decide (x = _trailer d)) as [->|Ht].
  { exists None. split; [|by apply kept_unchanged].
    eapply make_position_sentinel; [done|by right]. }
  exists (Some (mkPosition L (Some x))). split.
  - eapply make_position_run; [done|congruence|congruence].
  - eapply kept_real; [done..|]. by eapply real_of_full.
Qed.

Lemma first_kept G w L d :
  wf slots w G -> objs w !! L = Some d ->
  kept slots G (handed id (first slots L w)).
Proof.
  intros Hwf Hd.
  destruct (wf_admits_obj _ _ _ _ _ Hwf Hd) as (He & Hp & Hn).
  destruct (wf_list_at _ _ _ _ _ Hwf Hd) as (ns & Hns & Hok).
  assert (exists s ys, ns ++ [_trailer d] = s :: ys) as (s & ys & H2).
  { destruct ns; simpl; eauto. }
  assert (full d ns = [] ++ _header d :: s :: ys) as Hfull.
  { unfold full. by rewrite H2. }
  destruct Hok as [Hpath _ _ _ _]. rewrite Hfull in Hpath.
  apply path_mid in Hpath as (Hnx & _).
  apply nxt_lookup in Hnx as (nd & Hnd & Hnx).
  destruct (make_position_kept G w L d ns s Hwf Hd Hns) as (r & Hr & Hk).
  { rewrite Hfull. set_solver. }
  unfold first.
  rewrite (bind_step _ _ _ _ _ (obj_run _ _ _ Hd)).
  rewrite (bind_step _ _ _ _ _ (get_next_run _ _ _ _ Hn Hnd)). by rewrite Hnx, Hr.
Qed.

Lemma last_kept G w L d :
  wf slots w G -> objs w !! L = Some d ->
  kept slots G (handed id (last slots L w)).
Proof.
  intros Hwf Hd.
  destruct (wf_admits_obj _ _ _ _ _ Hwf Hd) as (He & Hp & Hn).
  destruct (wf_list_at _ _ _ _ _ Hwf Hd) as (ns & Hns & Hok).
  destruct (snoc_exists (_header d) ns) as (xs & p & H1).
  assert (full d ns = xs ++ p :: _trailer d :: []) as Hfull.
  { unfold full. by rewrite app_comm_cons, H1, <- app_assoc. }
  destruct Hok as [Hpath _ _ _ _]. rewrite Hfull in Hpath.
  apply path_mid in Hpath as (_ & Hpr).
  apply prv_lookup in Hpr as (nd & Hnd & Hpr).
  destruct (make_position_kept G w L d ns p Hwf Hd Hns) as (r & Hr & Hk).
  { rewrite Hfull. set_solver. }
  unfold last.
  rewrite (bind_step _ _ _ _ _ (obj_run _ _ _ Hd)).
  rewrite (bind_step _ _ _ _ _ (get_prev_run _ _ _ _ Hp Hnd)). by rewrite Hpr, Hr.
Qed.

(** A method that starts with [_validate]: when that raises, the store is
    kept; otherwise the argument is the Position of a real node. *)
Lemma validated_kept {A} G w L d a (k : ref -> M A) (f : A -> option Position) :
  wf slots w G -> objs w !! L = Some d -> passable G a ->
  (forall ns n, chains G !! L = Some ns -> n ∈ ns ->
                kept slots G (handed f (k (Some n) w))) ->
  kept slots G (handed f (bind (_validate slots L a) k w)).
Proof.
  intros Hwf Hd Ha Hk.
  destruct (wf_chain_exists _ _ _ _ _ Hwf Hd) as [ns Hns].
  destruct (validate_wf _ _ _ _ _ _ _ Hwf Hd Hns Ha)
    as [(err & Hv)|(n & _ & Hin & Hv)].
  - rewrite (bind_Raise _ _ _ _ _ Hv). by apply kept_unchanged.
  - rewrite (bind_step _ _ _ _ _ Hv). by eapply Hk.
Qed.

Lemma before_kept G w L d a :
  wf slots w G -> objs w !! L = Some d -> passable G a ->
  kept slots G (handed id (before slots L a w)).
Proof.
  intros Hwf Hd Ha. unfold before.
  eapply validated_kept; [done..|]. intros ns n Hns Hin.
  destruct (wf_admits_obj _ _ _ _ _ Hwf Hd) as (He & Hp & Hn).
  destruct (chain_split _ _ _ _ (wf_list _ _ _ Hwf _ _ _ Hd Hns) Hin)
    as (l1 & l2 & xs & p & s & ys & nd & -> & H1 & H2 & Hnd & Hpr & Hnx).
  destruct (make_position_kept G w L d (l1 ++ n :: l2) p Hwf Hd Hns) as (r & Hr & Hk).
  { unfold full. rewrite <- app_assoc, app_comm_cons, H1. set_solver. }
  rewrite (bind_step _ _ _ _ _ (get_prev_run _ _ _ _ Hp Hnd)). by rewrite Hpr, Hr.
Qed.

Lemma after_kept G w L d a :
  wf slots w G -> objs w !! L = Some d -> passable G a ->
  kept slots G (handed id (after slots L a w)).
Proof.
  intros Hwf Hd Ha. unfold after.
  eapply validated_kept; [done..|]. intros ns n Hns Hin.
  destruct (wf_admits_obj _ _ _ _ _ Hwf Hd) as (He & Hp & Hn).
  destruct (chain_split _ _ _ _ (wf_list _ _ _ Hwf _ _ _ Hd Hns) Hin)
    as (l1 & l2 & xs & p & s & ys & nd & -> & H1 & H2 & Hnd & Hpr & Hnx).
  destruct (make_position_kept G w L d (l1 ++ n :: l2) s Hwf Hd Hns) as (r & Hr & Hk).
  { unfold full. rewrite <- app_assoc, <- app_comm_cons, H2. set_solver. }
  rewrite (bind_step _ _ _ _ _ (get_next_run _ _ _ _ Hn Hnd)). by rewrite Hnx, Hr.
Qed.

Lemma kept_inserted G w L e p s l1 l2 :
  wf slots (inserted L e p s w) (ghost_inserted L l1 l2 w G) ->
  genuine (ghost_inserted L l1 l2 w G) (mkPosition L (Some (length (nodes w)))) ->
  kept slots G (Some (mkPosition L (Some (length (nodes w)))), inserted L e p s w).
Proof.
  intros Hwf Hgen. exists (ghost_inserted L l1 l2 w G).
  split; [done|]. split; [apply extends_inserted|]. by intros q [= <-].
Qed.

Lemma add_first_kept G w L d e :
  wf slots w G -> objs w !! L = Some d ->
  kept slots G (handed id (add_first slots L e w)).
Proof.
  intros Hwf Hd. destruct (wf_chain_exists _ _ _ _ _ Hwf Hd) as [ns Hns].
  destruct (add_first_wf _ _ _ _ _ _ e Hwf Hd Hns) as (s & ys & _ & -> & Hwf' & Hgen).
  by eapply kept_inserted.
Qed.

Lemma add_last_kept G w L d e :
  wf slots w G -> objs w !! L = Some d ->
  kept slots G (handed id (add_last slots L e w)).
Proof.
  intros Hwf Hd. destruct (wf_chain_exists _ _ _ _ _ Hwf Hd) as [ns Hns].
  destruct (add_last_wf _ _ _ _ _ _ e Hwf Hd Hns) as (xs & p & _ & -> & Hwf' & Hgen).
  by eapply kept_inserted.
Qed.

Lemma add_before_kept G w L d a e :
  wf slots w G -> objs w !! L = Some d -> passable G a ->
  kept slots G (handed id (add_before slots L a e w)).
Proof.
  intros Hwf Hd Ha. destruct (wf_chain_exists _ _ _ _ _ Hwf Hd) as [ns Hns].
  destruct (validate_wf _ _ _ _ _ _ _ Hwf Hd Hns Ha)
    as [(err & Hv)|(n & -> & Hin & _)].
  - destruct (validate_raises _ _ _ _ _ Hv) as (_ & _ & -> & _).
    by apply kept_unchanged.
  - destruct (chain_split _ _ _ _ (wf_list _ _ _ Hwf _ _ _ Hd Hns) Hin)
      as (l1 & l2 & xs & p & s & ys & nd & -> & H1 & H2 & Hnd & Hpr & Hnx).
    destruct (add_before_wf _ _ _ _ _ _ _ _ _ _ e Hwf Hd Hns H1) as (-> & Hwf' & Hgen).
    by eapply kept_inserted.
Qed.

Lemma add_after_kept G w L d a e :
  wf slots w G -> objs w !! L = Some d -> passable G a ->
  kept slots G (handed id (add_after slots L a e w)).
Proof.
  intros Hwf Hd Ha. destruct (wf_chain_exists _ _ _ _ _ Hwf Hd) as [ns Hns].
  destruct (validate_wf _ _ _ _ _ _ _ Hwf Hd Hns Ha)
    as [(err & Hv)|(n & -> & Hin & _)].
  - destruct (validate_raises _ _ _ _ _ Hv) as (_ & _ & _ & -> & _).
    by apply kept_unchanged.
  - destruct (chain_split _ _ _ _ (wf_list _ _ _ Hwf _ _ _ Hd Hns) Hin)
      as (l1 & l2 & xs & p & s & ys & nd & -> & H1 & H2 & Hnd & Hpr & Hnx).
    destruct (add_after_wf _ _ _ _ _ _ _ _ _ _ e Hwf Hd Hns H2) as (-> & Hwf' & Hgen).
    by eapply kept_inserted.
Qed.

Lemma kept_removed G w L n p s l1 l2 :
  wf slots (removed L n p s w) (ghost_removed L l1 l2 G) ->
  kept slots G (None, removed L n p s w).
Proof.
  intros Hwf. exists (ghost_removed L l1 l2 G).
  split; [done|]. split; [apply extends_removed|done].
Qed.

Lemma delete_kept G w L d a :
  wf slots w G -> objs w !! L = Some d -> passable G a ->
  kept slots G (handed (fun _ => None) (delete slots L a w)).
Proof.
  intros Hwf Hd Ha. destruct (wf_chain_exists _ _ _ _ _ Hwf Hd) as [ns Hns].
  destruct (validate_wf _ _ _ _ _ _ _ Hwf Hd Hns Ha)
    as [(err & Hv)|(n & -> & Hin & _)].
  - destruct (validate_raises _ _ _ _ _ Hv) as (_ & _ & _ & _ & -> & _).
    by apply kept_unchanged.
  - destruct (chain_split _ _ _ _ (wf_list _ _ _ Hwf _ _ _ Hd Hns) Hin)
      as (l1 & l2 & xs & p & s & ys & nd & -> & H1 & H2 & Hnd & Hpr & Hnx).
    destruct (delete_wf _ _ _ _ _ _ _ _ _ _ _ _ _ Hwf Hd Hns H1 H2 Hnd Hpr Hnx)
      as (-> & Hwf').
    by eapply kept_removed.
Qed.

(** Assigning an element changes no link. *)
Lemma wf_element w G n e :
  wf slots w G ->
  wf slots (mkWorld (alter (with_element e) n (nodes w)) (objs w)) G.
Proof.
  intros Hwf.
  assert (forall x, nxt (alter (with_element e) n (nodes w)) x = nxt (nodes w) x)
    as Hnx by (intros; apply next_alter_element).
  assert (forall x, prv (alter (with_element e) n (nodes w)) x = prv (nodes w) x)
    as Hpr by (intros; apply prev_alter_element).
  split; simpl.
  - intros Hne. apply (wf_admits _ _ _ Hwf). intros E. apply Hne.
    by rewrite E.
  - apply (wf_chains _ _ _ Hwf).
  - rewrite length_alter. apply (wf_owner _ _ _ Hwf).
  - intros L d ns Hd Hns.
    destruct (wf_list _ _ _ Hwf _ _ _ Hd Hns) as [Hpath Hnodup Hh Ht Hs].
    split; try done.
    + eapply path_frame; [| |done]; auto.
    + by rewrite Hpr.
    + by rewrite Hnx.
  - apply (wf_header _ _ _ Hwf).
  - apply (wf_trailer _ _ _ Hwf).
  - apply (wf_real _ _ _ Hwf).
  - intros L x Hx. destruct (wf_dead _ _ _ Hwf _ _ Hx) as (ns & Hns & Hcase).
    exists ns. split; [done|]. rewrite Hnx. done.
Qed.

Lemma replace_kept G w L d a e :
  wf slots w G -> objs w !! L = Some d -> passable G a ->
  kept slots G (handed (fun _ => None) (replace slots L a e w)).
Proof.
  intros Hwf Hd Ha. unfold replace.
  eapply validated_kept; [done..|]. intros ns n Hns Hin.
  destruct (wf_admits_obj _ _ _ _ _ Hwf Hd) as (He & Hp & Hn).
  destruct (chain_split _ _ _ _ (wf_list _ _ _ Hwf _ _ _ Hd Hns) Hin)
    as (l1 & l2 & xs & p & s & ys & nd & -> & H1 & H2 & Hnd & Hpr & Hnx).
  rewrite (bind_step _ _ _ _ _ (get_element_run _ _ _ _ He Hnd)).
  unfold set_element.
  erewrite bind_step;
    [|apply node_set_run; [done|by eapply lookup_lt_Some]].
  unfold ret, handed. simpl.
  exists G. split; [by apply wf_element|]. split; [apply extends_refl|done].
Qed.

Lemma insert_first_kept G w L d e :
  wf slots w G -> objs w !! L = Some d ->
  kept slots G (handed (fun _ => None) (LinkedDeque.insert_first slots L e w)).
Proof.
  intros Hwf Hd. destruct (wf_chain_exists _ _ _ _ _ Hwf Hd) as [ns Hns].
  destruct (wf_admits_obj _ _ _ _ _ Hwf Hd) as (He & Hp & Hn).
  pose proof (wf_list _ _ _ Hwf _ _ _ Hd Hns) as Hok.
  assert (exists s ys, ns ++ [_trailer d] = s :: ys) as (s & ys & H2).
  { destruct ns; simpl; eauto. }
  assert (_header d :: [] = [] ++ [_header d]) as H1 by done.
  pose proof (full_split d [] ns [] _ _ _ H1 H2) as Hfull. simpl in Hfull.
  assert (forall x, x ∈ full d ns -> x < length (nodes w)) as Hall.
  { intros x. apply full_allocated. by destruct Hok. }
  destruct Hok as [Hpath _ _ _ _]. rewrite Hfull in Hpath, Hall.
  destruct Hpath as (Hnx & _).
  apply nxt_lookup in Hnx as (nd & Hnd & Hnx).
  unfold LinkedDeque.insert_first.
  rewrite (bind_step _ _ _ _ _ (obj_run _ _ _ Hd)).
  rewrite (bind_step _ _ _ _ _ (get_next_run _ _ _ _ Hn Hnd)). rewrite Hnx.
  erewrite bind_step;
    [|apply (insert_between_run slots L e _ _ d); try done; apply Hall; set_solver].
  unfold ret, handed. simpl.
  exists (ghost_inserted L [] ns w G).
  split; [by eapply (wf_insert slots w G L d [] ns [])|].
  split; [apply extends_inserted|done].
Qed.

Lemma insert_last_kept G w L d e :
  wf slots w G -> objs w !! L = Some d ->
  kept slots G (handed (fun _ => None) (LinkedDeque.insert_last slots L e w)).
Proof.
  intros Hwf Hd. destruct (wf_chain_exists _ _ _ _ _ Hwf Hd) as [ns Hns].
  destruct (wf_admits_obj _ _ _ _ _ Hwf Hd) as (He & Hp & Hn).
  pose proof (wf_list _ _ _ Hwf _ _ _ Hd Hns) as Hok.
  destruct (snoc_exists (_header d) ns) as (xs & p & H1).
  assert ([] ++ [_trailer d] = _trailer d :: []) as H2 by done.
  pose proof (full_split d ns [] xs _ _ _ H1 H2) as Hfull.
  rewrite app_nil_r in Hfull.
  assert (forall x, x ∈ full d ns -> x < length (nodes w)) as Hall.
  { intros x. apply full_allocated. by destruct Hok. }
  destruct Hok as [Hpath _ _ _ _]. rewrite Hfull in Hpath, Hall.
  apply path_mid in Hpath as (_ & Hpr).
  apply prv_lookup in Hpr as (nd & Hnd & Hpr).
  unfold LinkedDeque.insert_last.
  rewrite (bind_step _ _ _ _ _ (obj_run _ _ _ Hd)).
  rewrite (bind_step _ _ _ _ _ (get_prev_run _ _ _ _ Hp Hnd)). rewrite Hpr.
  erewrite bind_step;
    [|apply (insert_between_run slots L e _ _ d); try done; apply Hall; set_solver].
  unfold ret, handed. simpl.
  exists (ghost_inserted L ns [] w G).
  rewrite <- (app_nil_r ns) in Hns.
  split; [by eapply (wf_insert slots w G L d ns [] xs)|].
  split; [apply extends_inserted|done].
Qed.

(** [_delete_node] on a real node of the list. *)
Lemma delete_node_kept G w L d ns n :
  wf slots w G -> objs w !! L = Some d -> chains G !! L = Some ns -> n ∈ ns ->
  kept slots G (handed (fun _ => None) (_delete_node slots L (Some n) w)).
Proof.
  intros Hwf Hd Hns Hin.
  destruct (wf_admits_obj _ _ _ _ _ Hwf Hd) as (He & Hp & Hn).
  pose proof (wf_list _ _ _ Hwf _ _ _ Hd Hns) as Hok.
  destruct (chain_split _ _ _ _ Hok Hin)
    as (l1 & l2 & xs & p & s & ys & nd & -> & H1 & H2 & Hnd & Hpr & Hnx).
  assert (forall x, x ∈ full d (l1 ++ n :: l2) -> x < length (nodes w)) as Hall.
  { intros x. apply full_allocated. by destruct Hok. }
  assert (full d (l1 ++ n :: l2) = xs ++ p :: n :: s :: ys) as Hfull.
  { unfold full.
    rewrite <- app_assoc, app_comm_cons, H1, <- app_comm_cons, H2, <- app_assoc.
    done. }
  rewrite Hfull in Hall.
  erewrite delete_node_run; try done; [|apply Hall; set_solver..].
  eapply kept_removed. by eapply wf_delete.
Qed.

Lemma is_empty_run w L d :
  objs w !! L = Some d -> is_empty L w = (Ok (Z.eqb (_size d) 0), w).
Proof. intros Hd. unfold is_empty. by rewrite (bind_step _ _ _ _ _ (obj_run _ _ _ Hd)). Qed.

Lemma delete_first_kept G w L d :
  wf slots w G -> objs w !! L = Some d ->
  kept slots G (handed (fun _ => None) (LinkedDeque.delete_first slots L w)).
Proof.
  intros Hwf Hd. destruct (wf_chain_exists _ _ _ _ _ Hwf Hd) as [ns Hns].
  destruct (wf_admits_obj _ _ _ _ _ Hwf Hd) as (He & Hp & Hn).
  pose proof (wf_list _ _ _ Hwf _ _ _ Hd Hns) as Hok.
  unfold LinkedDeque.delete_first.
  rewrite (bind_step _ _ _ _ _ (is_empty_run _ _ _ Hd)).
  destruct (Z.eqb_spec (_size d) 0) as [Hz|Hz]; [by apply kept_unchanged|].
  destruct ns as [|n rest].
  { destruct Hok as [_ _ _ _ Hs]. simpl in Hs. lia. }
  destruct Hok as [Hpath _ _ _ _].
  change (path (nodes w) (_header d :: n :: rest ++ [_trailer d])) in Hpath.
  destruct Hpath as (Hnx & _).
  apply nxt_lookup in Hnx as (nd & Hnd & Hnx).
  rewrite (bind_step _ _ _ _ _ (obj_run _ _ _ Hd)).
  rewrite (bind_step _ _ _ _ _ (get_next_run _ _ _ _ Hn Hnd)). rewrite Hnx.
  eapply delete_node_kept; [done..|by left].
Qed.

Lemma delete_last_kept G w L d :
  wf slots w G -> objs w !! L = Some d ->
  kept slots G (handed (fun _ => None) (LinkedDeque.delete_last slots L w)).
Proof.
  intros Hwf Hd. destruct (wf_chain_exists _ _ _ _ _ Hwf Hd) as [ns Hns].
  destruct (wf_admits_obj _ _ _ _ _ Hwf Hd) as (He & Hp & Hn).
  pose proof (wf_list _ _ _ Hwf _ _ _ Hd Hns) as Hok.
  unfold LinkedDeque.delete_last.
  rewrite (bind_step _ _ _ _ _ (is_empty_run _ _ _ Hd)).
  destruct (Z.eqb_spec (_size d) 0) as [Hz|Hz]; [by apply kept_unchanged|].
  destruct ns as [|m rest].
  { destruct Hok as [_ _ _ _ Hs]. simpl in Hs. lia. }
  destruct (snoc_exists m rest) as (l1 & n & Hsn).
  destruct Hok as [Hpath _ _ _ _].
  assert (full d (m :: rest) = (_header d :: l1) ++ n :: _trailer d :: []) as Hfull.
  { unfold full. by rewrite Hsn, <- app_assoc. }
  rewrite Hfull in Hpath. apply path_mid in Hpath as (_ & Hpr).
  apply prv_lookup in Hpr as (nd & Hnd & Hpr).
  rewrite (bind_step _ _ _ _ _ (obj_run _ _ _ Hd)).
  rewrite (bind_step _ _ _ _ _ (get_prev_run _ _ _ _ Hp Hnd)). rewrite Hpr.
  eapply delete_node_kept; [done..|]. rewrite Hsn. set_solver.
Qed.

(** The constructor returns, or raises and leaves the store. *)
Lemma init_cases w :
  (admits_all slots /\ __init__ slots w = (Ok (length (objs w)), created w)) \/
  (exists e, __init__ slots w = (Raise e, w)).
Proof.
  destruct (admits slots "_element") eqn:He;
    [destruct (admits slots "_prev") eqn:Hp;
     [destruct (admits slots "_next") eqn:Hn|]|].
  - left. split; [done|]. by apply init_run.
  - right. eexists. unfold __init__, Node__init__, bind. by rewrite He, Hp, Hn.
  - right. eexists. unfold __init__, Node__init__, bind. by rewrite He, Hp.
  - right. eexists. unfold __init__, Node__init__, bind. by rewrite He.
Qed.

Lemma init_kept G w :
  wf slots w G -> kept slots G (handed (fun _ => None) (__init__ slots w)).
Proof.
  intros Hwf. destruct (init_cases w) as [(Hadm & ->)|(e & ->)].
  - exists (ghost_created w G). split; [by apply wf_init|].
    split; [|done]. by eexists.
  - by apply kept_unchanged.
Qed.

(** Every call a caller can make on a well-formed store leaves a
    well-formed store, whether it returns or raises, and hands out only
    genuine Positions.  With [wf_empty], every store that is built from the
    empty one by such calls is well formed. *)
Theorem run_call_kept G w c :
  wf slots w G -> callable w G c -> kept slots G (run_call slots c w).
Proof.
  intros Hwf Hc.
  destruct c; simpl in Hc |- *;
    repeat match goal with
           | H : _ /\ _ |- _ => destruct H as [? ?]
           | H : _ < length (objs w) |- _ => apply lookup_lt_is_Some_2 in H as [d Hd]
           end.
  - by apply init_kept.
  - by eapply insert_first_kept.
  - by eapply insert_last_kept.
  - by eapply delete_first_kept.
  - by eapply delete_last_kept.
  - by eapply first_kept.
  - by eapply last_kept.
  - by eapply before_kept.
  - by eapply after_kept.
  - by eapply add_first_kept.
  - by eapply add_last_kept.
  - by eapply add_before_kept.
  - by eapply add_after_kept.
  - by eapply delete_kept.
  - by eapply replace_kept.
Qed.
(** [_make_position], [first] and [last] on a well-formed list return,
    leave the store, and what they return can be passed back. *)
Lemma make_position_passable G w L d ns x :
  wf slots w G -> objs w !! L = Some d -> chains G !! L = Some ns ->
  x ∈ full d ns ->
  exists r, _make_position L (Some x) w = (Ok r, w) /\ passable G (as_arg r).
Proof.
  intros Hwf Hd Hns Hx.
  destruct (decide (x = _header d)) as [->|Hh].
  { exists None. split; [|done]. eapply make_position_sentinel; [done|by left]. }
  destruct (decide (x = _trailer d)) as [->|Ht].
  { exists None. split; [|done]. eapply make_position_sentinel; [done|by right]. }
  exists (Some (mkPosition L (Some x))). split.
  - eapply make_position_run; [done|congruence|congruence].
  - exists x. split; [done|]. eapply wf_real; [done..|]. by eapply real_of_full.
Qed.

Lemma first_passable G w L d :
  wf slots w G -> objs w !! L = Some d ->
  exists r, first slots L w = (Ok r, w) /\ passable G (as_arg r).
Proof.
  intros Hwf Hd.
  destruct (wf_admits_obj _ _ _ _ _ Hwf Hd) as (He & Hp & Hn).
  destruct (wf_list_at _ _ _ _ _ Hwf Hd) as (ns & Hns & Hok).
  assert (exists s ys, ns ++ [_trailer d] = s :: ys) as (s & ys & H2).
  { destruct ns; simpl; eauto. }
  assert (full d ns = [] ++ _header d :: s :: ys) as Hfull.
  { unfold full. by rewrite H2. }
  destruct Hok as [Hpath _ _ _ _]. rewrite Hfull in Hpath.
  apply path_mid in Hpath as (Hnx & _).
  apply nxt_lookup in Hnx as (nd & Hnd & Hnx).
  destruct (make_position_passable G w L d ns s Hwf Hd Hns) as (r & Hr & Hk).
  { rewrite Hfull. set_solver. }
  exists r. split; [|done]. unfold first.
  rewrite (bind_step _ _ _ _ _ (obj_run _ _ _ Hd)).
  rewrite (bind_step _ _ _ _ _ (get_next_run _ _ _ _ Hn Hnd)). by rewrite Hnx.
Qed.

Lemma last_passable G w L d :
  wf slots w G -> objs w !! L = Some d ->
  exists r, last slots L w = (Ok r, w) /\ passable G (as_arg r).
Proof.
  intros Hwf Hd.
  destruct (wf_admits_obj _ _ _ _ _ Hwf Hd) as (He & Hp & Hn).
  destruct (wf_list_at _ _ _ _ _ Hwf Hd) as (ns & Hns & Hok).
  destruct (snoc_exists (_header d) ns) as (xs & p & H1).
  assert (full d ns = xs ++ p :: _trailer d :: []) as Hfull.
  { unfold full. by rewrite app_comm_cons, H1, <- app_assoc. }
  destruct Hok as [Hpath _ _ _ _]. rewrite Hfull in Hpath.
  apply path_mid in Hpath as (_ & Hpr).
  apply prv_lookup in Hpr as (nd & Hnd & Hpr).
  destruct (make_position_passable G w L d ns p Hwf Hd Hns) as (r & Hr & Hk).
  { rewrite Hfull. set_solver. }
  exists r. split; [|done]. unfold last.
  rewrite (bind_step _ _ _ _ _ (obj_run _ _ _ Hd)).
  rewrite (bind_step _ _ _ _ _ (get_prev_run _ _ _ _ Hp Hnd)). by rewrite Hpr.
Qed.

(** ** Scripts *)

Lemma run_delete_inv L w hs del k G d a :
  wf slots w G -> objs w !! L = Some d ->
  Forall (passable G) hs -> _size d = (k - del)%Z -> passable G a ->
  script_inv slots L (run_delete slots L a (mkScript w hs del)) k.
Proof.
  intros Hwf Hd Hh Hk Hpass. unfold run_delete. simpl.
  destruct (wf_chain_exists _ _ _ _ _ Hwf Hd) as [ns Hns].
  destruct (validate_wf _ _ _ _ _ _ _ Hwf Hd Hns Hpass)
    as [(err & Hv)|(n & -> & Hin & Hv)].
  - unfold delete. rewrite (bind_Raise _ _ _ _ _ Hv). simpl.
    by exists G, d.
  - destruct (chain_split _ _ _ _ (wf_list _ _ _ Hwf _ _ _ Hd Hns) Hin)
      as (l1 & l2 & xs & p & s & ys & nd & -> & H1 & H2 & Hnd & Hpr & Hnx).
    destruct (delete_wf _ _ _ _ _ _ _ _ _ _ _ _ _ Hwf Hd Hns H1 H2 Hnd Hpr Hnx)
      as (Hdel & Hwf').
    rewrite Hdel. simpl.
    exists (ghost_removed L l1 l2 G), (grow (-1) d).
    split; [done|]. split; [simpl; by rewrite list_lookup_alter_eq, Hd|].
    split; [|simpl; lia].
    eapply Forall_impl; [done|]. intros a.
    apply passable_extends, extends_removed.
Qed.

Lemma run_op_inv L st k o :
  script_inv slots L st k ->
  script_inv slots L (run_op slots L st o) (k + (if is_add o then 1 else 0))%Z.
Proof.
  intros (G & d & Hwf & Hd & Hh & Hk). destruct st as [w hs del]. simpl in *.
  destruct (wf_chain_exists _ _ _ _ _ Hwf Hd) as [ns Hns].
  destruct o as [e|e|i| |]; simpl.
  - destruct (add_first_wf _ _ _ _ _ _ e Hwf Hd Hns)
      as (s & ys & _ & Hadd & Hwf' & Hgen).
    rewrite Hadd. simpl.
    exists (ghost_inserted L [] ns w G), (grow 1 d).
    split; [done|]. split; [simpl; by rewrite list_lookup_alter_eq, Hd|].
    split; [|simpl; lia].
    apply Forall_app. split; [|by constructor].
    eapply Forall_impl; [done|]. intros a.
    apply passable_extends, extends_inserted.
  - destruct (add_last_wf _ _ _ _ _ _ e Hwf Hd Hns)
      as (xs & p & _ & Hadd & Hwf' & Hgen).
    rewrite Hadd. simpl.
    exists (ghost_inserted L ns [] w G), (grow 1 d).
    split; [done|]. split; [simpl; by rewrite list_lookup_alter_eq, Hd|].
    split; [|simpl; lia].
    apply Forall_app. split; [|by constructor].
    eapply Forall_impl; [done|]. intros a.
    apply passable_extends, extends_inserted.
  - rewrite Z.add_0_r. eapply run_delete_inv; try done.
    destruct (hs !! i) as [a|] eqn:E; simpl; [|done].
    eapply Forall_lookup_1; done.
  - destruct (first_passable G w L d Hwf Hd) as (r & -> & Hpass). simpl.
    rewrite Z.add_0_r. by eapply run_delete_inv.
  - destruct (last_passable G w L d Hwf Hd) as (r & -> & Hpass). simpl.
    rewrite Z.add_0_r. by eapply run_delete_inv.
Qed.

Lemma count_adds_cons o ops :
  count_adds (o :: ops) = ((if is_add o then 1 else 0) + count_adds ops)%Z.
Proof.
  unfold count_adds. rewrite filter_cons.
  destruct (is_add o); simpl; lia.
Qed.

Lemma run_ops_inv L ops st k :
  script_inv slots L st k ->
  script_inv slots L (run_ops slots L ops st) (k + count_adds ops)%Z.
Proof.
  revert st k.
  induction ops as [|o ops IH]; intros st k Hinv.
  - unfold run_ops, count_adds. simpl. by rewrite Z.add_0_r.
  - apply (run_op_inv L st k o) in Hinv. apply IH in Hinv.
    rewrite count_adds_cons, Z.add_assoc. exact Hinv.
Qed.
End Calls.

(** ** The scenario of the specification, run *)

Section Scenario.
Import DoublyLinkedBase PositionalList.

Lemma init_slots_admit : admits_all init_slots.
Proof. repeat split; reflexivity. Qed.

Example scenario_positions :
  fst (__init__ init_slots empty_world) = Ok 0 /\
  fst (add_last init_slots 0 (PyInt 10) w_new) = Ok (Some p1) /\
  fst (add_last init_slots 0 (PyInt 20) w_10) = Ok (Some p2) /\
  fst (add_before init_slots 0 (OPos p2) (PyInt 15) w_20) = Ok (Some p3).
Proof. repeat split; reflexivity. Qed.

Example scenario_iteration :
  __iter__ init_slots 3 0 w_15 = Some (Ok [PyInt 10; PyInt 15; PyInt 20]).
Proof. reflexivity. Qed.

Example scenario_delete :
  let r := delete init_slots 0 (OPos p3) w_15 in
  fst r = Ok (PyInt 15) /\
  __iter__ init_slots 2 0 (snd r) = Some (Ok [PyInt 10; PyInt 20]) /\
  fst (after init_slots 0 (OPos p3) (snd r))
  = Raise (ValueError "p is no longer valid.").
Proof. repeat split; reflexivity. Qed.

(** The deque scenario of the specification. *)
Example scenario_deque :
  let w1 := snd (LinkedDeque.insert_first init_slots 0 (PyInt 1) w_new) in
  let w2 := snd (LinkedDeque.insert_last init_slots 0 (PyInt 2) w1) in
  let w3 := snd (LinkedDeque.insert_first init_slots 0 (PyInt 0) w2) in
  let r1 := LinkedDeque.delete_first init_slots 0 w3 in
  let r2 := LinkedDeque.delete_first init_slots 0 (snd r1) in
  let r3 := LinkedDeque.delete_first init_slots 0 (snd r2) in
  let r4 := LinkedDeque.delete_first init_slots 0 (snd r3) in
  fst (LinkedDeque.first init_slots 0 w3) = Ok (PyInt 0) /\
  fst (LinkedDeque.last init_slots 0 w3) = Ok (PyInt 2) /\
  fst r1 = Ok (PyInt 0) /\ fst r2 = Ok (PyInt 1) /\ fst r3 = Ok (PyInt 2) /\
  fst r4 = Raise (NameError "Empty").
Proof. repeat split; reflexivity. Qed.

(** With the tuple of the source no list can be built. *)
Example source_constructor_raises :
  __init__ Node_slots empty_world
  = (Raise (AttributeError "_Node" "_element"), empty_world).
Proof. reflexivity. Qed.

(** With the tuple of the source a well-formed store holds nothing. *)
Lemma source_store_empty w G :
  wf Node_slots w G -> nodes w = [] /\ objs w = [].
Proof.
  intros Hwf.
  assert (nodes w = []) as Hn.
  { destruct (nodes w) as [|nd h] eqn:E; [done|].
    destruct (wf_admits _ _ _ Hwf) as (He & _); [by rewrite E|].
    discriminate He. }
  split; [done|].
  destruct (objs w) as [|d ds] eqn:E; [done|].
  assert (objs w !! 0 = Some d) as Hd by (by rewrite E).
  destruct (wf_admits_obj _ _ _ _ _ Hwf Hd) as (He & _). discriminate He.
Qed.

Lemma wf_w_new : wf init_slots w_new G_new.
Proof. apply (wf_init init_slots empty_world); [apply wf_empty|apply init_slots_admit]. Qed.

Lemma wf_w_10 : wf init_slots w_10 G_10.
Proof.
  apply (insert_between_wf init_slots w_new G_new 0 (mkDLB 0 1 0)
           [] [] [] 0 1 [] (PyInt 10) wf_w_new); reflexivity.
Qed.

Lemma wf_w_20 : wf init_slots w_20 G_20.
Proof.
  apply (insert_between_wf init_slots w_10 G_10 0 (mkDLB 0 1 1)
           [2] [] [0] 2 1 [] (PyInt 20) wf_w_10); reflexivity.
Qed.

Lemma wf_w_15 : wf init_slots w_15 G_15.
Proof.
  apply (insert_between_wf init_slots w_20 G_20 0 (mkDLB 0 1 2)
           [2] [3] [0] 2 3 [1] (PyInt 15) wf_w_20); reflexivity.
Qed.

Lemma wf_w_two : wf init_slots w_two G_two.
Proof. apply (wf_init init_slots w_10); [apply wf_w_10|apply init_slots_admit]. Qed.
End Scenario.

Section Exact.
Import DoublyLinkedBase PositionalList.
Variable slots : list string.

Lemma list_ok_real h d ns x :
  list_ok h d ns -> x ∈ ns -> x <> _header d /\ x <> _trailer d.
Proof.
  intros [_ Hnodup _ _ _] Hx. unfold full in Hnodup.
  apply NoDup_cons in Hnodup as (Hh & Hnodup).
  apply NoDup_app in Hnodup as (_ & Ht & _). split.
  - intros ->. apply Hh. set_solver.
  - intros ->. apply (Ht _ Hx). set_solver.
Qed.

Lemma items_from_stop h stop fuel : items_from h stop fuel (Some stop) = Some [].
Proof. destruct fuel; simpl; by rewrite decide_True. Qed.

Lemma iter_from_exact w L d rest n fuel :
  admits_all slots -> objs w !! L = Some d ->
  path (nodes w) (n :: rest ++ [_trailer d]) ->
  (forall x, x ∈ n :: rest -> x <> _header d /\ x <> _trailer d) ->
  iter_from slots fuel L (Some (pos L n)) w
  = (if decide (length (n :: rest) <= fuel)
     then Some (Ok (elements (nodes w) (n :: rest))) else None) /\
  chain_from slots fuel L (Some (pos L n)) w
  = (if decide (length (n :: rest) <= fuel)
     then Some (Ok (map (pos L) (n :: rest))) else None) /\
  items_from (nodes w) (_trailer d) fuel (Some n)
  = (if decide (length (n :: rest) <= fuel)
     then Some (elements (nodes w) (n :: rest)) else None).
Proof.
  intros (He & Hp & Hn) Hd. revert n fuel.
  induction rest as [|m rest IH]; intros n fuel Hpath Hreal.
  - simpl in Hpath. destruct Hpath as (Hnx & _ & _).
    apply nxt_lookup in Hnx as (nd & Hnd & Hnx).
    destruct (Hreal n) as [_ Hnt]; [by left|].
    destruct fuel as [|fuel].
    { simpl. rewrite !decide_False by (done || lia). done. }
    assert (after slots L (OPos (pos L n)) w = (Ok None, w)) as Haf.
    { unfold after.
      erewrite bind_step; [|by eapply validate_run].
      rewrite (bind_step _ _ _ _ _ (get_next_run _ _ _ _ Hn Hnd)). rewrite Hnx.
      eapply make_position_sentinel; [done|by right]. }
    assert (element slots (pos L n) w = (Ok (_element nd), w))
      as Hel by (by apply get_element_run).
    cbn [iter_from chain_from items_from map].
    rewrite Hel, Haf, iter_from_None, chain_from_None.
    rewrite (decide_False (P := n = _trailer d)) by done.
    rewrite Hnd, Hnx, items_from_stop. rewrite !decide_True by (simpl; lia).
    unfold elements. simpl. by rewrite Hnd.
  - change (path (nodes w) (n :: m :: rest ++ [_trailer d])) in Hpath.
    destruct Hpath as (Hnx & _ & Hpath).
    apply nxt_lookup in Hnx as (nd & Hnd & Hnx).
    destruct (Hreal n) as [_ Hnt]; [by left|].
    destruct fuel as [|fuel].
    { simpl. rewrite !decide_False by (done || lia). done. }
    assert (after slots L (OPos (pos L n)) w = (Ok (Some (pos L m)), w)) as Haf.
    { unfold after.
      erewrite bind_step; [|by eapply validate_run].
      rewrite (bind_step _ _ _ _ _ (get_next_run _ _ _ _ Hn Hnd)). rewrite Hnx.
      destruct (Hreal m) as [Hmh Hmt]; [set_solver|].
      eapply make_position_run; [done|congruence|congruence]. }
    destruct (IH m fuel Hpath) as (Hit & Hch & Hws).
    { intros x Hx. apply Hreal. by right. }
    assert (element slots (pos L n) w = (Ok (_element nd), w))
      as Hel by (by apply get_element_run).
    cbn [iter_from chain_from items_from].
    rewrite Hel, Haf, Hit, Hch.
    rewrite (decide_False (P := n = _trailer d)) by done.
    rewrite Hnd, Hnx, Hws.
    destruct (decide (length (m :: rest) <= fuel)) as [Hle|Hle].
    + rewrite !decide_True by (simpl in *; lia).
      unfold elements. simpl. by rewrite Hnd.
    + rewrite !decide_False by (simpl in *; lia). done.
Qed.

Lemma iter_exact w L d ns fuel :
  admits_all slots -> objs w !! L = Some d -> list_ok (nodes w) d ns ->
  __iter__ slots fuel L w
  = (if decide (length ns <= fuel)
     then Some (Ok (elements (nodes w) ns)) else None) /\
  after_chain slots fuel L w
  = (if decide (length ns <= fuel)
     then Some (Ok (map (pos L) ns)) else None) /\
  items fuel L w
  = (if decide (length ns <= fuel)
     then Some (elements (nodes w) ns) else None).
Proof.
  intros Hadm Hd Hok. pose proof Hadm as (He & Hp & Hn).
  pose proof (fun x => list_ok_real _ _ _ x Hok) as Hreal.
  destruct Hok as [Hpath Hnodup _ _ Hsize].
  unfold after_chain, __iter__, items, first. rewrite Hd.
  rewrite (bind_step _ _ _ _ _ (obj_run _ _ _ Hd)).
  destruct ns as [|n rest].
  - simpl in Hpath. destruct Hpath as (Hnx & _ & _).
    apply nxt_lookup in Hnx as (nh & Hnh & Hnx).
    rewrite (bind_step _ _ _ _ _ (get_next_run _ _ _ _ Hn Hnh)). rewrite Hnh, Hnx.
    erewrite make_position_sentinel; [|done|by right].
    rewrite iter_from_None, chain_from_None.
    rewrite !decide_True by (simpl; lia). by rewrite items_from_stop.
  - change (path (nodes w) (_header d :: n :: rest ++ [_trailer d])) in Hpath.
    destruct Hpath as (Hnx & _ & Hpath).
    apply nxt_lookup in Hnx as (nh & Hnh & Hnx).
    rewrite (bind_step _ _ _ _ _ (get_next_run _ _ _ _ Hn Hnh)). rewrite Hnh, Hnx.
    erewrite make_position_run; [|done|..].
    2: { destruct (Hreal n) as [? _]; [by left|congruence]. }
    2: { destruct (Hreal n) as [_ ?]; [by left|congruence]. }
    by apply iter_from_exact.
Qed.
End Exact.

Section Elements.

Lemma elements_ext h h' ns :
  (forall x, x ∈ ns -> _element <$> h' !! x = _element <$> h !! x) ->
  elements h' ns = elements h ns.
Proof.
  intros H. unfold elements. apply map_ext_in. intros x Hx.
  rewrite H; [done|]. by apply list_elem_of_In.
Qed.

Lemma elements_app h l1 l2 : elements h (l1 ++ l2) = elements h l1 ++ elements h l2.
Proof. apply map_app. Qed.

Lemma elements_length h ns : length (elements h ns) = length ns.
Proof. apply length_map. Qed.

Lemma elements_lookup h ns i n nd :
  ns !! i = Some n -> h !! n = Some nd -> elements h ns !! i = Some (_element nd).
Proof.
  intros Hi Hn. unfold elements.
  change (map ?f ns) with (f <$> ns). rewrite list_lookup_fmap, Hi. simpl.
  by rewrite Hn.
Qed.

Lemma elements_spliced e p s h ns :
  (forall x, x ∈ ns -> x < length h) ->
  elements (spliced e p s h) ns = elements h ns.
Proof.
  intros Hall. apply elements_ext. intros x Hx. unfold spliced.
  rewrite element_alter_prev, element_alter_next.
  rewrite lookup_app_l; [done|]. by apply Hall.
Qed.

Lemma elements_spliced_new e p s h :
  p < length h -> s < length h ->
  elements (spliced e p s h) [length h] = [e].
Proof.
  intros Hp Hs. unfold elements. simpl. by rewrite spliced_new.
Qed.

Lemma elements_unlinked n p s h ns :
  n ∉ ns -> elements (unlinked n p s h) ns = elements h ns.
Proof.
  intros Hn. apply elements_ext. intros x Hx. unfold unlinked.
  rewrite element_alter_element. rewrite decide_False by set_solver.
  by rewrite element_alter_next, !element_alter_prev, element_alter_next.
Qed.

Lemma elements_replaced e n h l1 l2 :
  n < length h -> n ∉ l1 -> n ∉ l2 ->
  elements (alter (with_element e) n h) (l1 ++ n :: l2)
  = elements h l1 ++ e :: elements h l2.
Proof.
  intros Hlt H1 H2. rewrite elements_app. f_equal; [|simpl; f_equal].
  - apply elements_ext. intros x Hx. rewrite element_alter_element.
    rewrite decide_False by set_solver. done.
  - rewrite list_lookup_alter_eq.
    destruct (lookup_lt_is_Some_2 h n Hlt) as [nd ->]. done.
  - apply elements_ext. intros x Hx. rewrite element_alter_element.
    rewrite decide_False by set_solver. done.
Qed.

(** A real node of a list whose place in the chain is known, with its two
    neighbours on the path. *)
Lemma chain_at h d l1 n l2 :
  list_ok h d (l1 ++ n :: l2) ->
  exists xs p s ys nd,
    _header d :: l1 = xs ++ [p] /\ l2 ++ [_trailer d] = s :: ys /\
    h !! n = Some nd /\ _prev nd = Some p /\ _next nd = Some s /\
    p = default (_header d) (list.last l1) /\
    s = default (_trailer d) (head l2).
Proof.
  intros [Hpath _ _ _ _].
  destruct (snoc_exists (_header d) l1) as (xs & p & H1).
  assert (exists s ys, l2 ++ [_trailer d] = s :: ys) as (s & ys & H2).
  { destruct l2; simpl; eauto. }
  assert (full d (l1 ++ n :: l2) = xs ++ p :: n :: s :: ys) as Hfull.
  { unfold full.
    rewrite <- app_assoc, app_comm_cons, H1, <- app_comm_cons, H2, <- app_assoc.
    done. }
  rewrite Hfull in Hpath.
  pose proof (path_mid _ _ _ _ _ Hpath) as (_ & Hpr).
  replace (xs ++ p :: n :: s :: ys) with ((xs ++ [p]) ++ n :: s :: ys) in Hpath
    by (by rewrite <- app_assoc).
  pose proof (path_mid _ _ _ _ _ Hpath) as (Hnx & _).
  apply prv_lookup in Hpr as (nd & Hnd & Hpr).
  apply nxt_lookup in Hnx as (nd' & Hnd' & Hnx).
  assert (nd' = nd) as -> by congruence.
  exists xs, p, s, ys, nd. repeat split; try done.
  - assert (list.last (_header d :: l1) = Some p) as Hl by (rewrite H1; apply last_snoc).
    destruct l1 as [|a l1] using rev_ind.
    + simpl in Hl. by injection Hl as <-.
    + rewrite app_comm_cons, last_snoc in Hl. injection Hl as <-.
      by rewrite last_snoc.
  - destruct l2; simpl in *; by injection H2 as <- _.
Qed.

Lemma list_ok_nodup h d ns : list_ok h d ns -> NoDup ns.
Proof.
  intros [_ Hnodup _ _ _]. unfold full in Hnodup.
  apply NoDup_cons in Hnodup as (_ & Hnodup).
  by apply NoDup_app in Hnodup as (? & _).
Qed.

Lemma list_ok_allocated h d ns x : list_ok h d ns -> x ∈ full d ns -> x < length h.
Proof. intros [Hpath _ _ _ _]. by apply full_allocated. Qed.

Lemma elem_of_full_real d ns x : x ∈ ns -> x ∈ full d ns.
Proof. unfold full. set_solver. Qed.

Lemma pos_inj L : Inj (=) (=) (pos L).
Proof. intros x y [= ->]. done. Qed.

End Elements.

Section Navigation.
Import DoublyLinkedBase.
Variable slots : list string.

Lemma first_exact w L d ns :
  admits_all slots -> objs w !! L = Some d -> list_ok (nodes w) d ns ->
  PositionalList.first slots L w = (Ok (pos L <$> head ns), w).
Proof.
  intros (He & Hp & Hn) Hd Hok.
  pose proof (fun x => list_ok_real _ _ _ x Hok) as Hreal.
  destruct Hok as [Hpath _ _ _ _]. unfold PositionalList.first.
  rewrite (bind_step _ _ _ _ _ (obj_run _ _ _ Hd)).
  destruct ns as [|n rest].
  - simpl in Hpath. destruct Hpath as (Hnx & _ & _).
    apply nxt_lookup in Hnx as (nh & Hnh & Hnx).
    rewrite (bind_step _ _ _ _ _ (get_next_run _ _ _ _ Hn Hnh)). rewrite Hnx.
    eapply make_position_sentinel; [done|by right].
  - change (path (nodes w) (_header d :: n :: rest ++ [_trailer d])) in Hpath.
    destruct Hpath as (Hnx & _ & Hpath).
    apply nxt_lookup in Hnx as (nh & Hnh & Hnx).
    rewrite (bind_step _ _ _ _ _ (get_next_run _ _ _ _ Hn Hnh)). rewrite Hnx.
    destruct (Hreal n) as [? ?]; [by left|].
    eapply make_position_run; [done|congruence..].
Qed.

Lemma last_exact w L d ns :
  admits_all slots -> objs w !! L = Some d -> list_ok (nodes w) d ns ->
  PositionalList.last slots L w = (Ok (pos L <$> list.last ns), w).
Proof.
  intros (He & Hp & Hn) Hd Hok.
  pose proof (fun x => list_ok_real _ _ _ x Hok) as Hreal.
  destruct Hok as [Hpath _ _ _ _]. unfold PositionalList.last.
  rewrite (bind_step _ _ _ _ _ (obj_run _ _ _ Hd)).
  destruct (snoc_exists (_header d) ns) as (xs & p & H1).
  assert (full d ns = xs ++ p :: _trailer d :: []) as Hfull.
  { unfold full. by rewrite app_comm_cons, H1, <- app_assoc. }
  rewrite Hfull in Hpath.
  apply path_mid in Hpath as (_ & Hpr).
  apply prv_lookup in Hpr as (nd & Hnd & Hpr).
  rewrite (bind_step _ _ _ _ _ (get_prev_run _ _ _ _ Hp Hnd)). rewrite Hpr.
  destruct ns as [|a ns] using rev_ind.
  - simpl in H1. destruct xs as [|? [|? ?]]; simplify_eq/=.
    eapply make_position_sentinel; [done|by left].
  - clear IHns. rewrite app_comm_cons in H1. apply app_inj_tail in H1 as [_ <-].
    rewrite last_snoc. simpl.
    destruct (Hreal a) as [? ?]; [set_solver|].
    eapply make_position_run; [done|congruence..].
Qed.

Lemma make_position_default_last L d w l1 :
  objs w !! L = Some d ->
  (forall x, x ∈ l1 -> x <> _header d /\ x <> _trailer d) ->
  PositionalList._make_position L (Some (default (_header d) (list.last l1))) w
  = (Ok (pos L <$> list.last l1), w).
Proof.
  intros Hd Hreal. destruct (list.last l1) as [x|] eqn:E; simpl.
  - apply last_Some in E as [l' ->].
    destruct (Hreal x) as [? ?]; [set_solver|].
    eapply make_position_run; [done|congruence..].
  - eapply make_position_sentinel; [done|by left].
Qed.

Lemma make_position_default_head L d w l2 :
  objs w !! L = Some d ->
  (forall x, x ∈ l2 -> x <> _header d /\ x <> _trailer d) ->
  PositionalList._make_position L (Some (default (_trailer d) (head l2))) w
  = (Ok (pos L <$> head l2), w).
Proof.
  intros Hd Hreal. destruct l2 as [|x l2]; simpl.
  - eapply make_position_sentinel; [done|by right].
  - destruct (Hreal x) as [? ?]; [set_solver|].
    eapply make_position_run; [done|congruence..].
Qed.

Lemma validate_exact w L d l1 n l2 :
  admits_all slots -> objs w !! L = Some d ->
  list_ok (nodes w) d (l1 ++ n :: l2) ->
  PositionalList._validate slots L (OPos (pos L n)) w = (Ok (Some n), w).
Proof.
  intros (He & Hp & Hn) Hd Hok.
  destruct (chain_at _ _ _ _ _ Hok) as (xs & p & s & ys & nd & _ & _ & Hnd & _ & Hnx & _).
  by eapply validate_run.
Qed.

Lemma before_exact w L d l1 n l2 :
  admits_all slots -> objs w !! L = Some d ->
  list_ok (nodes w) d (l1 ++ n :: l2) ->
  PositionalList.before slots L (OPos (pos L n)) w = (Ok (pos L <$> list.last l1), w).
Proof.
  intros Hadm Hd Hok. pose proof Hadm as (He & Hp & Hn).
  pose proof (fun x => list_ok_real _ _ _ x Hok) as Hreal.
  destruct (chain_at _ _ _ _ _ Hok)
    as (xs & p & s & ys & nd & _ & _ & Hnd & Hpr & Hnx & -> & ->).
  unfold PositionalList.before.
  erewrite bind_step; [|by eapply validate_exact].
  rewrite (bind_step _ _ _ _ _ (get_prev_run _ _ _ _ Hp Hnd)). rewrite Hpr.
  apply make_position_default_last; [done|]. intros x Hx. apply Hreal. set_solver.
Qed.

Lemma after_exact w L d l1 n l2 :
  admits_all slots -> objs w !! L = Some d ->
  list_ok (nodes w) d (l1 ++ n :: l2) ->
  PositionalList.after slots L (OPos (pos L n)) w = (Ok (pos L <$> head l2), w).
Proof.
  intros Hadm Hd Hok. pose proof Hadm as (He & Hp & Hn).
  pose proof (fun x => list_ok_real _ _ _ x Hok) as Hreal.
  destruct (chain_at _ _ _ _ _ Hok)
    as (xs & p & s & ys & nd & _ & _ & Hnd & Hpr & Hnx & -> & ->).
  unfold PositionalList.after.
  erewrite bind_step; [|by eapply validate_exact].
  rewrite (bind_step _ _ _ _ _ (get_next_run _ _ _ _ Hn Hnd)). rewrite Hnx.
  apply make_position_default_head; [done|]. intros x Hx. apply Hreal. set_solver.
Qed.

Lemma element_exact w L d ns n :
  admits_all slots -> list_ok (nodes w) d ns -> n ∈ ns ->
  exists nd, nodes w !! n = Some nd /\
    PositionalList.element slots (pos L n) w = (Ok (_element nd), w).
Proof.
  intros (He & Hp & Hn) Hok Hin.
  assert (n < length (nodes w)) as Hlt.
  { eapply list_ok_allocated; [done|]. by apply elem_of_full_real. }
  destruct (lookup_lt_is_Some_2 _ _ Hlt) as [nd Hnd].
  exists nd. split; [done|]. by apply get_element_run.
Qed.

Lemma len_exact w L d ns :
  objs w !! L = Some d -> list_ok (nodes w) d ns ->
  __len__ L w = (Ok (Z.of_nat (length ns)), w) /\
  is_empty L w = (Ok (bool_decide (ns = [])), w).
Proof.
  intros Hd [_ _ _ _ Hs]. unfold __len__, is_empty.
  rewrite !(bind_step _ _ _ _ _ (obj_run _ _ _ Hd)). unfold ret. rewrite Hs.
  split; [done|]. do 2 f_equal.
  destruct ns as [|n ns]; [done|].
  rewrite (bool_decide_eq_false_2 (n :: ns = [])) by done.
  apply Z.eqb_neq. simpl. lia.
Qed.

(** What a run of the chain of [after] calls tells about the ghost chain. *)
Lemma chain_known w G L d fuel ps :
  wf slots w G -> objs w !! L = Some d ->
  after_chain slots fuel L w = Some (Ok ps) ->
  exists ns, chains G !! L = Some ns /\ list_ok (nodes w) d ns /\
             ps = map (pos L) ns /\ length ns <= fuel /\ admits_all slots.
Proof.
  intros Hwf Hd Hch.
  pose proof (wf_admits_obj _ _ _ _ _ Hwf Hd) as Hadm.
  destruct (wf_list_at _ _ _ _ _ Hwf Hd) as (ns & Hns & Hok).
  destruct (iter_exact slots w L d ns fuel Hadm Hd Hok) as (_ & Hac & _).
  rewrite Hac in Hch. case_decide; [|done]. injection Hch as <-.
  by exists ns.
Qed.

Lemma chain_known_at w G L d fuel ps1 p ps2 :
  wf slots w G -> objs w !! L = Some d ->
  after_chain slots fuel L w = Some (Ok (ps1 ++ p :: ps2)) ->
  exists l1 n l2, chains G !! L = Some (l1 ++ n :: l2) /\
    list_ok (nodes w) d (l1 ++ n :: l2) /\
    ps1 = map (pos L) l1 /\ p = pos L n /\ ps2 = map (pos L) l2 /\
    length (l1 ++ n :: l2) <= fuel /\ admits_all slots.
Proof.
  intros Hwf Hd Hch.
  destruct (chain_known _ _ _ _ _ _ Hwf Hd Hch) as (ns & Hns & Hok & Hps & Hfuel & Hadm).
  symmetry in Hps. change (map (pos L) ns) with (pos L <$> ns) in Hps.
  apply fmap_app_inv in Hps as (l1 & l2' & -> & Hps & ->).
  symmetry in Hps. apply fmap_cons_inv in Hps as (n & l2 & -> & -> & ->).
  by exists l1, n, l2.
Qed.

Lemma iter_known w L d ns fuel vs :
  admits_all slots -> objs w !! L = Some d -> list_ok (nodes w) d ns ->
  PositionalList.__iter__ slots fuel L w = Some (Ok vs) ->
  vs = elements (nodes w) ns /\ length ns <= fuel.
Proof.
  intros Hadm Hd Hok Hit.
  destruct (iter_exact slots w L d ns fuel Hadm Hd Hok) as (Hi & _ & _).
  rewrite Hi in Hit. case_decide; [|done]. by injection Hit as <-.
Qed.

Lemma iter_run w L d ns fuel :
  admits_all slots -> objs w !! L = Some d -> list_ok (nodes w) d ns ->
  length ns <= fuel ->
  PositionalList.__iter__ slots fuel L w = Some (Ok (elements (nodes w) ns)) /\
  after_chain slots fuel L w = Some (Ok (map (pos L) ns)) /\
  items fuel L w = Some (elements (nodes w) ns).
Proof.
  intros Hadm Hd Hok Hfuel.
  destruct (iter_exact slots w L d ns fuel Hadm Hd Hok) as (Hi & Hc & Hw).
  rewrite Hi, Hc, Hw. by rewrite !decide_True.
Qed.

End Navigation.

Section Effects.
Import DoublyLinkedBase.
Variable slots : list string.

(** The list [L] after an insertion between two neighbours of its path. *)
Lemma inserted_list w G L d l1 l2 xs p s ys e :
  wf slots w G ->
  objs w !! L = Some d -> chains G !! L = Some (l1 ++ l2) ->
  _header d :: l1 = xs ++ [p] -> l2 ++ [_trailer d] = s :: ys ->
  let w' := inserted L e p s w in
  let new := length (nodes w) in
  wf slots w' (ghost_inserted L l1 l2 w G) /\
  objs w' !! L = Some (grow 1 d) /\
  list_ok (nodes w') (grow 1 d) (l1 ++ new :: l2) /\
  elements (nodes w') (l1 ++ new :: l2)
  = elements (nodes w) l1 ++ e :: elements (nodes w) l2.
Proof.
  intros Hwf Hd Hns H1 H2 w' new.
  pose proof (wf_list _ _ _ Hwf _ _ _ Hd Hns) as Hok.
  pose proof (wf_insert slots w G L d l1 l2 xs p s ys e Hwf Hd Hns H1 H2) as Hwf'.
  assert (objs w' !! L = Some (grow 1 d)) as Hd'.
  { simpl. by rewrite list_lookup_alter_eq, Hd. }
  assert (chains (ghost_inserted L l1 l2 w G) !! L = Some (l1 ++ new :: l2)) as Hns'.
  { simpl. rewrite list_lookup_insert_eq; [done|]. by eapply lookup_lt_Some. }
  pose proof (full_split _ _ _ _ _ _ _ H1 H2) as Hfull.
  assert (forall x, x ∈ full d (l1 ++ l2) -> x < length (nodes w)) as Hall.
  { intros x. by apply list_ok_allocated. }
  assert (p < length (nodes w) /\ s < length (nodes w)) as [Hpl Hsl].
  { split; apply Hall; rewrite Hfull; set_solver. }
  split; [done|]. split; [done|]. split; [by eapply wf_list|].
  rewrite elements_app. simpl.
  change (default PyNone (_element <$> spliced e p s (nodes w) !! new)
          :: elements (spliced e p s (nodes w)) l2)
    with (elements (spliced e p s (nodes w)) [new]
          ++ elements (spliced e p s (nodes w)) l2).
  rewrite elements_spliced_new by done.
  rewrite !elements_spliced; [done|..];
    intros x Hx; apply Hall; unfold full; set_solver.
Qed.

(** The list [L] after the deletion of one of its real nodes. *)
Lemma removed_list w G L d l1 n l2 xs p s ys :
  wf slots w G ->
  objs w !! L = Some d -> chains G !! L = Some (l1 ++ n :: l2) ->
  _header d :: l1 = xs ++ [p] -> l2 ++ [_trailer d] = s :: ys ->
  let w' := removed L n p s w in
  wf slots w' (ghost_removed L l1 l2 G) /\
  objs w' !! L = Some (grow (-1) d) /\
  list_ok (nodes w') (grow (-1) d) (l1 ++ l2) /\
  elements (nodes w') (l1 ++ l2) = elements (nodes w) (l1 ++ l2).
Proof.
  intros Hwf Hd Hns H1 H2 w'.
  pose proof (wf_list _ _ _ Hwf _ _ _ Hd Hns) as Hok.
  pose proof (wf_delete slots w G L d l1 n l2 xs p s ys Hwf Hd Hns H1 H2) as Hwf'.
  assert (objs w' !! L = Some (grow (-1) d)) as Hd'.
  { simpl. by rewrite list_lookup_alter_eq, Hd. }
  assert (chains (ghost_removed L l1 l2 G) !! L = Some (l1 ++ l2)) as Hns'.
  { simpl. rewrite list_lookup_insert_eq; [done|]. by eapply lookup_lt_Some. }
  split; [done|]. split; [done|]. split; [by eapply wf_list|].
  apply elements_unlinked.
  apply list_ok_nodup in Hok. apply NoDup_app in Hok as (_ & Hl1 & Hl2).
  apply NoDup_cons in Hl2 as (Hl2 & _).
  intros [Hin|Hin]%elem_of_app; [|done]. apply (Hl1 _ Hin). by left.
Qed.

Lemma replace_run w L d l1 n l2 e nd :
  admits_all slots -> objs w !! L = Some d ->
  list_ok (nodes w) d (l1 ++ n :: l2) -> nodes w !! n = Some nd ->
  PositionalList.replace slots L (OPos (pos L n)) e w
  = (Ok (_element nd), mkWorld (alter (with_element e) n (nodes w)) (objs w)).
Proof.
  intros Hadm Hd Hok Hnd. pose proof Hadm as (He & Hp & Hn).
  unfold PositionalList.replace.
  erewrite bind_step; [|by eapply validate_exact].
  rewrite (bind_step _ _ _ _ _ (get_element_run _ _ _ _ He Hnd)).
  unfold set_element.
  erewrite bind_step; [|apply node_set_run; [done|by eapply lookup_lt_Some]].
  done.
Qed.

End Effects.

Section Reads.
Import DoublyLinkedBase.
Variable slots : list string.

Lemma reads_ret {A} (a : A) : reads (ret a).
Proof. done. Qed.

Lemma reads_raise {A} e : reads (@raise A e).
Proof. done. Qed.

Lemma reads_bind {A B} (m : M A) (k : A -> M B) :
  reads m -> (forall a, reads (k a)) -> reads (bind m k).
Proof.
  intros Hm Hk w. unfold bind. specialize (Hm w).
  destruct (m w) as [[a|e|] w1]; simpl in Hm; subst; [apply Hk|done..].
Qed.

Lemma reads_node_get {T} attr (proj : Node -> T) r : reads (node_get slots attr proj r).
Proof.
  intros w. unfold node_get. destruct r as [l|]; [|done].
  destruct (admits slots attr); [|done]. by destruct (nodes w !! l).
Qed.

Lemma reads_obj L : reads (obj L).
Proof. intros w. unfold obj. by destruct (objs w !! L). Qed.

Lemma reads_validate L a : reads (PositionalList._validate slots L a).
Proof.
  destruct a as [p|v]; simpl; [|apply reads_raise].
  case_bool_decide; [|apply reads_raise].
  apply reads_bind; [apply reads_node_get|].
  intros [x|]; [apply reads_ret|apply reads_raise].
Qed.

Lemma reads_make_position L r : reads (PositionalList._make_position L r).
Proof.
  apply reads_bind; [apply reads_obj|]. intros d.
  destruct (_ || _); apply reads_ret.
Qed.

Lemma reads_is_empty L : reads (is_empty L).
Proof. apply reads_bind; [apply reads_obj|]. intros d. apply reads_ret. Qed.

End Reads.

Section NavigationFacts.

Lemma head_drop {A} (l : list A) k : head (drop k l) = l !! k.
Proof. by rewrite head_lookup, lookup_drop, Nat.add_0_r. Qed.

Lemma last_take {A} (l : list A) j :
  j < length l -> list.last (take (S j) l) = l !! j.
Proof.
  intros Hj. rewrite last_lookup, length_take.
  replace (Init.Nat.pred (S j `min` length l)) with j by lia.
  apply lookup_take_lt. lia.
Qed.

Lemma head_fmap {A B} (f : A -> B) (l : list A) : head (f <$> l) = f <$> head l.
Proof. by destruct l. Qed.

End NavigationFacts.

Section DequeRuns.
Import DoublyLinkedBase.
Variable slots : list string.

Lemma items_known w L d ns fuel vs :
  admits_all slots -> objs w !! L = Some d -> list_ok (nodes w) d ns ->
  items fuel L w = Some vs ->
  vs = elements (nodes w) ns /\ length ns <= fuel.
Proof.
  intros Hadm Hd Hok Hit.
  destruct (iter_exact slots w L d ns fuel Hadm Hd Hok) as (_ & _ & Hi).
  rewrite Hi in Hit. case_decide; [|done]. by injection Hit as <-.
Qed.

Lemma is_empty_false w L d n ns :
  objs w !! L = Some d -> list_ok (nodes w) d (n :: ns) ->
  is_empty L w = (Ok false, w).
Proof. intros Hd Hok. by destruct (len_exact _ _ _ _ Hd Hok) as (_ & ->). Qed.

Lemma deque_first_run w L d n rest :
  admits_all slots -> objs w !! L = Some d -> list_ok (nodes w) d (n :: rest) ->
  exists nd, nodes w !! n = Some nd /\
    LinkedDeque.first slots L w = (Ok (_element nd), w).
Proof.
  intros (He & Hp & Hn) Hd Hok.
  destruct (chain_at _ _ [] _ _ Hok)
    as (xs & p & s & ys & nd & H1 & _ & Hnd & Hpr & _ & -> & _).
  simpl in Hpr.
  pose proof (is_empty_false _ _ _ _ _ Hd Hok) as Hemp.
  destruct Hok as [Hpath _ _ _ _].
  change (path (nodes w) (_header d :: n :: rest ++ [_trailer d])) in Hpath.
  destruct Hpath as (Hnx & _).
  apply nxt_lookup in Hnx as (nh & Hnh & Hnx).
  exists nd. split; [done|]. unfold LinkedDeque.first.
  rewrite (bind_step _ _ _ _ _ Hemp).
  rewrite (bind_step _ _ _ _ _ (obj_run _ _ _ Hd)).
  rewrite (bind_step _ _ _ _ _ (get_next_run _ _ _ _ Hn Hnh)). rewrite Hnx.
  by apply get_element_run.
Qed.

Lemma deque_last_run w L d l1 n :
  admits_all slots -> objs w !! L = Some d -> list_ok (nodes w) d (l1 ++ [n]) ->
  exists nd, nodes w !! n = Some nd /\
    LinkedDeque.last slots L w = (Ok (_element nd), w).
Proof.
  intros (He & Hp & Hn) Hd Hok.
  destruct (chain_at _ _ _ _ _ Hok)
    as (xs & p & s & ys & nd & _ & _ & Hnd & _ & _).
  assert (is_empty L w = (Ok false, w)) as Hemp.
  { destruct (len_exact _ _ _ _ Hd Hok) as (_ & ->). by destruct l1. }
  destruct Hok as [Hpath _ _ _ _].
  assert (full d (l1 ++ [n]) = (_header d :: l1) ++ n :: _trailer d :: []) as Hfull.
  { unfold full. by rewrite <- app_assoc. }
  rewrite Hfull in Hpath. apply path_mid in Hpath as (_ & Hpr).
  apply prv_lookup in Hpr as (nt & Hnt & Hpr).
  exists nd. split; [done|]. unfold LinkedDeque.last.
  rewrite (bind_step _ _ _ _ _ Hemp).
  rewrite (bind_step _ _ _ _ _ (obj_run _ _ _ Hd)).
  rewrite (bind_step _ _ _ _ _ (get_prev_run _ _ _ _ Hp Hnt)). rewrite Hpr.
  by apply get_element_run.
Qed.

Lemma insert_first_run w G L d ns e :
  wf slots w G -> objs w !! L = Some d -> chains G !! L = Some ns ->
  exists s ys,
    ns ++ [_trailer d] = s :: ys /\
    LinkedDeque.insert_first slots L e w = (Ok tt, inserted L e (_header d) s w).
Proof.
  intros Hwf Hd Hns.
  destruct (wf_admits_obj _ _ _ _ _ Hwf Hd) as (He & Hp & Hn).
  pose proof (wf_list _ _ _ Hwf _ _ _ Hd Hns) as Hok.
  assert (exists s ys, ns ++ [_trailer d] = s :: ys) as (s & ys & H2).
  { destruct ns; simpl; eauto. }
  assert (_header d :: [] = [] ++ [_header d]) as H1 by done.
  pose proof (full_split d [] ns [] _ _ _ H1 H2) as Hfull. simpl in Hfull.
  assert (forall x, x ∈ full d ns -> x < length (nodes w)) as Hall.
  { intros x. by apply list_ok_allocated. }
  destruct Hok as [Hpath _ _ _ _]. rewrite Hfull in Hpath, Hall.
  destruct Hpath as (Hnx & _).
  apply nxt_lookup in Hnx as (nd & Hnd & Hnx).
  exists s, ys. split; [done|].
  unfold LinkedDeque.insert_first.
  rewrite (bind_step _ _ _ _ _ (obj_run _ _ _ Hd)).
  rewrite (bind_step _ _ _ _ _ (get_next_run _ _ _ _ Hn Hnd)). rewrite Hnx.
  erewrite bind_step;
    [|apply (insert_between_run slots L e _ _ d); try done; apply Hall; set_solver].
  done.
Qed.

Lemma insert_last_run w G L d ns e :
  wf slots w G -> objs w !! L = Some d -> chains G !! L = Some ns ->
  exists xs p,
    _header d :: ns = xs ++ [p] /\
    LinkedDeque.insert_last slots L e w = (Ok tt, inserted L e p (_trailer d) w).
Proof.
  intros Hwf Hd Hns.
  destruct (wf_admits_obj _ _ _ _ _ Hwf Hd) as (He & Hp & Hn).
  pose proof (wf_list _ _ _ Hwf _ _ _ Hd Hns) as Hok.
  destruct (snoc_exists (_header d) ns) as (xs & p & H1).
  assert ([] ++ [_trailer d] = _trailer d :: []) as H2 by done.
  pose proof (full_split d ns [] xs _ _ _ H1 H2) as Hfull.
  rewrite app_nil_r in Hfull.
  assert (forall x, x ∈ full d ns -> x < length (nodes w)) as Hall.
  { intros x. by apply list_ok_allocated. }
  destruct Hok as [Hpath _ _ _ _]. rewrite Hfull in Hpath, Hall.
  apply path_mid in Hpath as (_ & Hpr).
  apply prv_lookup in Hpr as (nd & Hnd & Hpr).
  exists xs, p. split; [done|].
  unfold LinkedDeque.insert_last.
  rewrite (bind_step _ _ _ _ _ (obj_run _ _ _ Hd)).
  rewrite (bind_step _ _ _ _ _ (get_prev_run _ _ _ _ Hp Hnd)). rewrite Hpr.
  erewrite bind_step;
    [|apply (insert_between_run slots L e _ _ d); try done; apply Hall; set_solver].
  done.
Qed.

(** [_delete_node] on a real node whose place in the chain is known. *)
Lemma delete_node_at w L d l1 n l2 :
  admits_all slots -> objs w !! L = Some d ->
  list_ok (nodes w) d (l1 ++ n :: l2) ->
  exists xs p s ys nd,
    _header d :: l1 = xs ++ [p] /\ l2 ++ [_trailer d] = s :: ys /\
    nodes w !! n = Some nd /\
    _delete_node slots L (Some n) w = (Ok (_element nd), removed L n p s w).
Proof.
  intros (He & Hp & Hn) Hd Hok.
  destruct (chain_at _ _ _ _ _ Hok)
    as (xs & p & s & ys & nd & H1 & H2 & Hnd & Hpr & Hnx & _).
  assert (forall x, x ∈ full d (l1 ++ n :: l2) -> x < length (nodes w)) as Hall.
  { intros x. by apply list_ok_allocated. }
  assert (full d (l1 ++ n :: l2) = xs ++ p :: n :: s :: ys) as Hfull.
  { unfold full.
    rewrite <- app_assoc, app_comm_cons, H1, <- app_comm_cons, H2, <- app_assoc.
    done. }
  rewrite Hfull in Hall.
  exists xs, p, s, ys, nd. do 3 (split; [done|]).
  eapply delete_node_run; try done; apply Hall; set_solver.
Qed.

Lemma delete_first_run w L d n rest :
  admits_all slots -> objs w !! L = Some d -> list_ok (nodes w) d (n :: rest) ->
  exists s ys nd,
    rest ++ [_trailer d] = s :: ys /\ nodes w !! n = Some nd /\
    LinkedDeque.delete_first slots L w
    = (Ok (_element nd), removed L n (_header d) s w).
Proof.
  intros Hadm Hd Hok. pose proof Hadm as (He & Hp & Hn).
  destruct (delete_node_at w L d [] n rest Hadm Hd Hok)
    as (xs & p & s & ys & nd & H1 & H2 & Hnd & Hdel).
  assert (p = _header d) as ->.
  { destruct xs as [|? [|? ?]]; simplify_eq/=. done. }
  pose proof (is_empty_false _ _ _ _ _ Hd Hok) as Hemp.
  destruct Hok as [Hpath _ _ _ _].
  change (path (nodes w) (_header d :: n :: rest ++ [_trailer d])) in Hpath.
  destruct Hpath as (Hnx & _).
  apply nxt_lookup in Hnx as (nh & Hnh & Hnx).
  exists s, ys, nd. do 2 (split; [done|]). unfold LinkedDeque.delete_first.
  rewrite (bind_step _ _ _ _ _ Hemp).
  rewrite (bind_step _ _ _ _ _ (obj_run _ _ _ Hd)).
  rewrite (bind_step _ _ _ _ _ (get_next_run _ _ _ _ Hn Hnh)). by rewrite Hnx.
Qed.

Lemma delete_last_run w L d l1 n :
  admits_all slots -> objs w !! L = Some d -> list_ok (nodes w) d (l1 ++ [n]) ->
  exists xs p nd,
    _header d :: l1 = xs ++ [p] /\ nodes w !! n = Some nd /\
    LinkedDeque.delete_last slots L w
    = (Ok (_element nd), removed L n p (_trailer d) w).
Proof.
  intros Hadm Hd Hok. pose proof Hadm as (He & Hp & Hn).
  destruct (delete_node_at w L d l1 n [] Hadm Hd Hok)
    as (xs & p & s & ys & nd & H1 & H2 & Hnd & Hdel).
  simpl in H2. injection H2 as <- <-.
  assert (is_empty L w = (Ok false, w)) as Hemp.
  { destruct (len_exact _ _ _ _ Hd Hok) as (_ & ->). by destruct l1. }
  destruct Hok as [Hpath _ _ _ _].
  assert (full d (l1 ++ [n]) = (_header d :: l1) ++ n :: _trailer d :: []) as Hfull.
  { unfold full. by rewrite <- app_assoc. }
  rewrite Hfull in Hpath. apply path_mid in Hpath as (_ & Hpr).
  apply prv_lookup in Hpr as (nt & Hnt & Hpr).
  exists xs, p, nd. do 2 (split; [done|]). unfold LinkedDeque.delete_last.
  rewrite (bind_step _ _ _ _ _ Hemp).
  rewrite (bind_step _ _ _ _ _ (obj_run _ _ _ Hd)).
  rewrite (bind_step _ _ _ _ _ (get_prev_run _ _ _ _ Hp Hnt)). by rewrite Hpr.
Qed.

End DequeRuns.

Section Effect.
Import DoublyLinkedBase.
Variable slots : list string.

Lemma validate_kinds w G L d ns a :
  wf slots w G -> objs w !! L = Some d -> chains G !! L = Some ns ->
  passable G a ->
  (exists e, e ∈ list_errors /\
             PositionalList._validate slots L a w = (Raise e, w)) \/
  (exists l1 n l2, a = OPos (pos L n) /\ ns = l1 ++ n :: l2 /\
             PositionalList._validate slots L a w = (Ok (Some n), w)).
Proof.
  intros Hwf Hd Hns Ha.
  destruct (wf_admits_obj _ _ _ _ _ Hwf Hd) as (He & Hp & Hn).
  destruct a as [q|v].
  2: { left. eexists. split; [|done]. unfold list_errors. set_solver. }
  destruct (decide (_container q = L)) as [Hc|Hc].
  2: { left. eexists. split; [|by apply validate_foreign].
       unfold list_errors. set_solver. }
  destruct Ha as (n & Hq & Ho). rewrite Hc in Ho.
  destruct (wf_dead _ _ _ Hwf _ _ Ho) as (ns' & Hns' & Hcase).
  assert (ns' = ns) as -> by congruence.
  destruct Hcase as [Hin|Hnone].
  - right. apply list_elem_of_split in Hin as (l1 & l2 & ->).
    exists l1, n, l2. split; [destruct q; simpl in *; by subst|]. split; [done|].
    destruct (chain_at _ _ _ _ _ (wf_list _ _ _ Hwf _ _ _ Hd Hns))
      as (xs & p & s & ys & nd & _ & _ & Hnd & _ & Hnx & _).
    by eapply validate_run.
  - left. apply nxt_lookup in Hnone as (nd & Hnd & Hnx).
    eexists. split; [|by eapply validate_deprecated].
    unfold list_errors. set_solver.
Qed.

Lemma status_Ok {A} (m : outcome A * world) a w' :
  m = (Ok a, w') -> status m = (Ok tt, w').
Proof. by intros ->. Qed.

Lemma status_Raise {A} (m : outcome A * world) e w' :
  m = (Raise e, w') -> status m = (Raise e, w').
Proof. by intros ->. Qed.

Lemma full_pred d l1 l2 xs p :
  _header d :: l1 = xs ++ [p] -> p ∈ full d (l1 ++ l2).
Proof.
  intros H1. unfold full. rewrite <- app_assoc, app_comm_cons, H1. set_solver.
Qed.

Lemma full_succ d l1 l2 s ys :
  l2 ++ [_trailer d] = s :: ys -> s ∈ full d (l1 ++ l2).
Proof.
  intros H2. unfold full. rewrite <- app_assoc, H2. set_solver.
Qed.

Lemma full_mid d l1 n l2 : n ∈ full d (l1 ++ n :: l2).
Proof. unfold full. set_solver. Qed.

Lemma full_pred' d l1 n l2 xs p :
  _header d :: l1 = xs ++ [p] -> p ∈ full d (l1 ++ n :: l2).
Proof. apply full_pred. Qed.

Lemma full_succ' d l1 n l2 s ys :
  l2 ++ [_trailer d] = s :: ys -> s ∈ full d (l1 ++ n :: l2).
Proof.
  intros H2. unfold full. rewrite <- app_assoc, <- app_comm_cons, H2. set_solver.
Qed.

Lemma call_effect w G c L :
  wf slots w G -> callable w G c -> call_list c = Some L ->
  effect G w L (call_status slots c w).
Proof.
  intros Hwf Hc HL.
  destruct c; simpl in Hc, HL; try discriminate; injection HL as ->;
    repeat match goal with
           | H : _ /\ _ |- _ => destruct H as [? ?]
           | H : _ < length (objs w) |- _ => apply lookup_lt_is_Some_2 in H as [d Hd]
           end;
    pose proof (wf_admits_obj _ _ _ _ _ Hwf Hd) as Hadm;
    destruct (wf_list_at _ _ _ _ _ Hwf Hd) as (ns & Hns & Hok);
    cbn [call_status].
  - (* insert_first *)
    destruct (insert_first_run slots w G L d ns e Hwf Hd Hns) as (s & ys & H2 & ->).
    eapply eff_insert; [done..| |].
    + unfold full. set_solver.
    + apply (full_succ d [] ns s ys H2).
  - (* insert_last *)
    destruct (insert_last_run slots w G L d ns e Hwf Hd Hns) as (xs & p & H1 & ->).
    eapply eff_insert; [done..| |].
    + rewrite <- (app_nil_r ns). by eapply full_pred.
    + unfold full. set_solver.
  - (* delete_first *)
    destruct ns as [|n rest].
    + unfold LinkedDeque.delete_first.
      destruct (len_exact _ _ _ _ Hd Hok) as (_ & Hemp).
      rewrite (bind_step _ _ _ _ _ Hemp). simpl.
      apply eff_raise. unfold list_errors. set_solver.
    + destruct (delete_first_run slots w L d n rest Hadm Hd Hok)
        as (s & ys & nd & H2 & Hnd & ->).
      eapply eff_remove; [done..| | |].
      * apply (full_mid d []).
      * unfold full. set_solver.
      * apply (full_succ' d [] n rest s ys H2).
  - (* delete_last *)
    destruct ns as [|n l1 _] using rev_ind.
    + unfold LinkedDeque.delete_last.
      destruct (len_exact _ _ _ _ Hd Hok) as (_ & Hemp).
      rewrite (bind_step _ _ _ _ _ Hemp). simpl.
      apply eff_raise. unfold list_errors. set_solver.
    + destruct (delete_last_run slots w L d l1 n Hadm Hd Hok)
        as (xs & p & nd & H1 & Hnd & ->).
      eapply eff_remove; [done..| | |].
      * apply full_mid.
      * by eapply full_pred'.
      * unfold full. set_solver.
  - rewrite (first_exact slots w L d ns Hadm Hd Hok). apply eff_read.
  - rewrite (last_exact slots w L d ns Hadm Hd Hok). apply eff_read.
  - (* before *)
    destruct (validate_kinds w G L d ns a Hwf Hd Hns)
      as [(err & Herr & Hv)|(l1 & n & l2 & -> & -> & Hv)]; [done|..].
    + destruct (validate_raises _ _ _ _ _ Hv) as (-> & _). by apply eff_raise.
    + rewrite (before_exact slots w L d _ _ _ Hadm Hd Hok). apply eff_read.
  - (* after *)
    destruct (validate_kinds w G L d ns a Hwf Hd Hns)
      as [(err & Herr & Hv)|(l1 & n & l2 & -> & -> & Hv)]; [done|..].
    + destruct (validate_raises _ _ _ _ _ Hv) as (_ & -> & _). by apply eff_raise.
    + rewrite (after_exact slots w L d _ _ _ Hadm Hd Hok). apply eff_read.
  - (* add_first *)
    destruct (add_first_wf slots w G L d ns e Hwf Hd Hns) as (s & ys & H2 & -> & _).
    eapply eff_insert; [done..| |].
    + unfold full. set_solver.
    + apply (full_succ d [] ns s ys H2).
  - (* add_last *)
    destruct (add_last_wf slots w G L d ns e Hwf Hd Hns) as (xs & p & H1 & -> & _).
    eapply eff_insert; [done..| |].
    + rewrite <- (app_nil_r ns). by eapply full_pred.
    + unfold full. set_solver.
  - (* add_before *)
    destruct (validate_kinds w G L d ns a Hwf Hd Hns)
      as [(err & Herr & Hv)|(l1 & n & l2 & -> & -> & Hv)]; [done|..].
    + destruct (validate_raises _ _ _ _ _ Hv) as (_ & _ & -> & _). by apply eff_raise.
    + destruct (chain_at _ _ _ _ _ Hok) as (xs & p & s & ys & nd & H1 & H2 & _).
      destruct (add_before_wf slots w G L d l1 n l2 xs p e Hwf Hd Hns H1) as (Hadd & _).
      unfold pos. rewrite Hadd.
      eapply eff_insert; [done..| |].
      * by eapply full_pred'.
      * apply full_mid.
  - (* add_after *)
    destruct (validate_kinds w G L d ns a Hwf Hd Hns)
      as [(err & Herr & Hv)|(l1 & n & l2 & -> & -> & Hv)]; [done|..].
    + destruct (validate_raises _ _ _ _ _ Hv) as (_ & _ & _ & -> & _).
      by apply eff_raise.
    + destruct (chain_at _ _ _ _ _ Hok) as (xs & p & s & ys & nd & H1 & H2 & _).
      destruct (add_after_wf slots w G L d l1 n l2 s ys e Hwf Hd Hns H2) as (Hadd & _).
      unfold pos. rewrite Hadd.
      eapply eff_insert; [done..| |].
      * apply full_mid.
      * by eapply full_succ'.
  - (* delete *)
    destruct (validate_kinds w G L d ns a Hwf Hd Hns)
      as [(err & Herr & Hv)|(l1 & n & l2 & -> & -> & Hv)]; [done|..].
    + destruct (validate_raises _ _ _ _ _ Hv) as (_ & _ & _ & _ & -> & _).
      by apply eff_raise.
    + destruct (chain_at _ _ _ _ _ Hok)
        as (xs & p & s & ys & nd & H1 & H2 & Hnd & Hpr & Hnx & _).
      destruct (delete_wf slots w G L d l1 n l2 xs p s ys nd Hwf Hd Hns H1 H2 Hnd Hpr Hnx)
        as (Hdel & _).
      unfold pos. rewrite Hdel.
      eapply eff_remove; [done..| | |].
      * apply full_mid.
      * by eapply full_pred'.
      * by eapply full_succ'.
  - (* replace *)
    destruct (validate_kinds w G L d ns a Hwf Hd Hns)
      as [(err & Herr & Hv)|(l1 & n & l2 & -> & -> & Hv)]; [done|..].
    + destruct (validate_raises _ _ _ _ _ Hv) as (_ & _ & _ & _ & _ & Hr).
      rewrite Hr. by apply eff_raise.
    + destruct (chain_at _ _ _ _ _ Hok)
        as (xs & p & s & ys & nd & H1 & H2 & Hnd & Hpr & Hnx & _).
      rewrite (replace_run slots w L d l1 n l2 e nd Hadm Hd Hok Hnd).
      eapply eff_assign; [done..|]. apply full_mid.
Qed.

Lemma run_call_status c w : snd (run_call slots c w) = snd (call_status slots c w).
Proof. by destruct c. Qed.

(** A list whose object and whose nodes a step leaves alone looks the
    same afterwards. *)
Lemma frame_list w w' B d ns fuel :
  admits_all slots ->
  objs w !! B = Some d -> list_ok (nodes w) d ns ->
  objs w' !! B = Some d ->
  (forall x, x ∈ full d ns -> nodes w' !! x = nodes w !! x) ->
  PositionalList.__iter__ slots fuel B w' = PositionalList.__iter__ slots fuel B w /\
  after_chain slots fuel B w' = after_chain slots fuel B w /\
  items fuel B w' = items fuel B w /\
  __len__ B w' = (fst (__len__ B w), w').
Proof.
  intros Hadm Hd Hok Hd' Hsame.
  assert (list_ok (nodes w') d ns) as Hok' by (by eapply list_ok_ext).
  destruct (iter_exact slots w B d ns fuel Hadm Hd Hok) as (-> & -> & ->).
  destruct (iter_exact slots w' B d ns fuel Hadm Hd' Hok') as (-> & -> & ->).
  assert (elements (nodes w') ns = elements (nodes w) ns) as ->.
  { apply elements_ext. intros x Hx. rewrite Hsame; [done|].
    by apply elem_of_full_real. }
  do 3 (split; [done|]).
  destruct (len_exact _ _ _ _ Hd Hok) as (-> & _).
  destruct (len_exact _ _ _ _ Hd' Hok') as (-> & _).
  done.
Qed.

End Effect.

Section Programs.
Variable slots : list string.

Lemma step_kept w hs G a :
  wf slots w G -> Forall (passable G) hs ->
  exists G', wf slots (fst (step slots (w, hs) a)) G' /\
             Forall (passable G') (snd (step slots (w, hs) a)).
Proof.
  intros Hwf Hhs. unfold step. cbn [fst snd].
  destruct (match call_list (the_call hs a) with
            | Some L => bool_decide (L < length (objs w))
            | None => true
            end) eqn:HL; [|by exists G].
  assert (forall x, passable G (the_arg hs x)) as Harg.
  { intros [i|v]; simpl; [|done].
    destruct (hs !! i) as [y|] eqn:E; simpl; [|done].
    by eapply Forall_lookup_1. }
  assert (callable w G (the_call hs a)) as Hc.
  { destruct a; simpl in HL |- *; try apply bool_decide_eq_true in HL; auto. }
  destruct (run_call_kept slots G w _ Hwf Hc) as (G' & Hwf' & Hext & Hgen).
  exists G'. split; [done|]. apply Forall_app. split.
  - eapply Forall_impl; [done|]. intros y. by apply passable_extends.
  - constructor; [|done].
    destruct (fst (run_call slots (the_call hs a) w)) as [q|]; simpl; [|done].
    by apply Hgen.
Qed.

Lemma run_program_kept prog w hs G :
  wf slots w G -> Forall (passable G) hs ->
  exists G', wf slots (fst (fold_left (step slots) prog (w, hs))) G' /\
             Forall (passable G') (snd (fold_left (step slots) prog (w, hs))).
Proof.
  revert w hs G. induction prog as [|a prog IH]; intros w hs G Hwf Hhs.
  - by exists G.
  - simpl. destruct (step_kept w hs G a Hwf Hhs) as (G' & Hwf' & Hhs').
    destruct (step slots (w, hs) a) as [w1 hs1]. by eapply IH.
Qed.

End Programs.

Section PqSortFacts.
Import DoublyLinkedBase PqSort.
Variable slots : list string.
Variable Q : Type.
Variable PriorityQueue : Q.
Variable add : value -> value -> Q -> outcome unit * Q.
Variable remove_min : Q -> outcome (value * value) * Q.

Lemma bindQ_step {A B} (m : MQ Q A) (k : A -> MQ Q B) st a st' :
  m st = (Ok a, st') -> bindQ Q m k st = k a st'.
Proof. unfold bindQ. by intros ->. Qed.

Lemma on_list_step {A} (m : M A) w q a w' :
  m w = (Ok a, w') -> on_list Q m (w, q) = (Ok a, (w', q)).
Proof. unfold on_list. simpl. by intros ->. Qed.

Lemma elements_cons h n nd rest :
  h !! n = Some nd -> elements h (n :: rest) = _element nd :: elements h rest.
Proof. intros Hnd. unfold elements. simpl. by rewrite Hnd. Qed.

(** The first loop on a list with the real nodes [ns]: every element goes
    to the queue, in order, and the list is left without a real node. *)
Lemma drain_run C ns : forall w G d q q1,
  wf slots w G -> objs w !! C = Some d -> chains G !! C = Some ns ->
  adds Q add (elements (nodes w) ns) q = Some q1 ->
  exists w1 G1 d1,
    for_range Q (length ns) (move_to_queue slots Q add C) (w, q) = (Ok tt, (w1, q1)) /\
    wf slots w1 G1 /\ objs w1 !! C = Some d1 /\ chains G1 !! C = Some [].
Proof.
  induction ns as [|n rest IH]; intros w G d q q1 Hwf Hd Hns Hadds.
  - simpl in Hadds. injection Hadds as <-. by exists w, G, d.
  - pose proof (wf_admits_obj _ _ _ _ _ Hwf Hd) as Hadm.
    pose proof (wf_list _ _ _ Hwf _ _ _ Hd Hns) as Hok.
    pose proof (first_exact slots w C d _ Hadm Hd Hok) as Hfirst. simpl in Hfirst.
    destruct (chain_at _ _ [] _ _ Hok)
      as (xs & p & s & ys & nd & H1 & H2 & Hnd & Hpr & Hnx & _).
    destruct (delete_wf slots w G C d [] n rest xs p s ys nd Hwf Hd Hns H1 H2 Hnd Hpr Hnx)
      as (Hdel & _).
    destruct (removed_list slots w G C d [] n rest xs p s ys Hwf Hd Hns H1 H2)
      as (Hwf' & Hd' & Hok' & Hel).
    cbv zeta in Hwf', Hd', Hok', Hel. rewrite app_nil_l in Hok', Hel.
    rewrite (elements_cons _ _ _ _ Hnd) in Hadds. cbn [adds] in Hadds.
    destruct (add (_element nd) (_element nd) q) as [[u|e|] q'] eqn:Hadd; try done.
    rewrite <- Hel in Hadds.
    destruct (IH _ _ _ q' q1 Hwf' Hd') as (w1 & G1 & d1 & Hloop & Hwf1 & Hd1 & Hns1);
      [simpl; rewrite list_lookup_insert_eq; [done|by eapply lookup_lt_Some]|done|].
    exists w1, G1, d1. split; [|done].
    cbn [for_range length]. unfold move_to_queue at 1.
    erewrite bindQ_step.
    2: { erewrite bindQ_step; [|by apply on_list_step].
         erewrite bindQ_step; [|apply on_list_step; exact Hdel].
         unfold on_queue. simpl. rewrite Hadd. destruct u. reflexivity. }
    exact Hloop.
Qed.

(** The second loop: each value that [remove_min] returns is added at the
    back of the list. *)
Lemma refill_run C k : forall w G d ns q out q2,
  wf slots w G -> objs w !! C = Some d -> chains G !! C = Some ns ->
  removes Q remove_min k q = Some (out, q2) ->
  exists w2 G2 d2 ns2,
    for_range Q k (move_to_list slots Q remove_min C) (w, q) = (Ok tt, (w2, q2)) /\
    wf slots w2 G2 /\ objs w2 !! C = Some d2 /\ chains G2 !! C = Some ns2 /\
    elements (nodes w2) ns2 = elements (nodes w) ns ++ out.
Proof.
  induction k as [|k IH]; intros w G d ns q out q2 Hwf Hd Hns Hrem.
  - simpl in Hrem. injection Hrem as <- <-. exists w, G, d, ns.
    by rewrite app_nil_r.
  - cbn [removes] in Hrem.
    destruct (remove_min q) as [[kv|e|] q'] eqn:Hmin; try done.
    destruct (removes Q remove_min k q') as [[out' q'']|] eqn:Hrest; [|done].
    injection Hrem as <- <-.
    destruct (add_last_wf slots w G C d ns (snd kv) Hwf Hd Hns) as (xs & p & H1 & Hadd & _).
    pose proof Hns as Hns0. rewrite <- (app_nil_r ns) in Hns0.
    destruct (inserted_list slots w G C d ns [] xs p (_trailer d) [] (snd kv)
                Hwf Hd Hns0 H1 eq_refl) as (Hwf' & Hd' & Hok' & Hel).
    cbv zeta in Hwf', Hd', Hok', Hel.
    destruct (IH _ _ _ (ns ++ [length (nodes w)]) q' out' q'' Hwf' Hd')
      as (w2 & G2 & d2 & ns2 & Hloop & Hwf2 & Hd2 & Hns2 & Hel2);
      [simpl; rewrite list_lookup_insert_eq; [done|by eapply lookup_lt_Some]|done|].
    exists w2, G2, d2, ns2. split; [|split; [done|split; [done|split; [done|]]]].
    + cbn [for_range]. unfold move_to_list at 1.
      erewrite bindQ_step.
      2: { erewrite bindQ_step; [|unfold on_queue; simpl; by rewrite Hmin].
           erewrite bindQ_step; [|apply on_list_step; exact Hadd].
           reflexivity. }
      exact Hloop.
    + rewrite Hel2, Hel. simpl. by rewrite <- app_assoc.
Qed.

End PqSortFacts.

Section StackFacts.
Context {T : Type}.

Lemma is_empty_nil : ArrayStack.is_empty (@nil T) = true.
Proof. done. Qed.

Lemma is_empty_snoc (stk : list T) x : ArrayStack.is_empty (stk ++ [x]) = false.
Proof.
  unfold ArrayStack.is_empty. rewrite length_app. simpl. apply Z.eqb_neq. lia.
Qed.

Lemma pop_snoc (stk : list T) x : ArrayStack.pop (stk ++ [x]) = (Return x, stk).
Proof.
  unfold ArrayStack.pop, PyList.pop.
  by rewrite is_empty_snoc, last_snoc, removelast_last.
Qed.

Lemma top_snoc (stk : list T) x : ArrayStack.top (stk ++ [x]) = Return x.
Proof.
  unfold ArrayStack.top, PyList.last_item. by rewrite is_empty_snoc, last_snoc.
Qed.

Lemma push_all_app (xs : list T) stk : ArrayStack.push_all xs stk = stk ++ xs.
Proof.
  revert stk. induction xs as [|x xs IH]; intros stk; simpl.
  - by rewrite app_nil_r.
  - unfold ArrayStack.push_all in *. cbn [fold_left]. rewrite IH.
    unfold ArrayStack.push. by rewrite <- app_assoc.
Qed.

Lemma pop_many_app (xs : list T) stk :
  ArrayStack.pop_many (length xs) (stk ++ xs) = (Return (rev xs), stk).
Proof.
  induction xs as [|x xs IH] using rev_ind; [by rewrite app_nil_r|].
  rewrite length_app, Nat.add_1_r, app_assoc. cbn [ArrayStack.pop_many].
  rewrite pop_snoc, IH. by rewrite rev_unit.
Qed.
End StackFacts.

Section StrFacts.
Import PyStr.

Lemma bound_nat n len : bound (Z.of_nat n) len = Nat.min n len.
Proof.
  unfold bound. destruct (Z.ltb_spec (Z.of_nat n) 0); [lia|]. by rewrite Nat2Z.id.
Qed.

Lemma bound_le i len : bound i len <= len.
Proof. unfold bound. destruct (Z.ltb_spec i 0); lia. Qed.

Lemma bound_nonneg i len : (0 <= i)%Z -> bound i len = Nat.min (Z.to_nat i) len.
Proof. intros Hi. unfold bound. destruct (Z.ltb_spec i 0); [lia|done]. Qed.

Lemma index_lt c s i : index c s = Some i -> i < length s.
Proof.
  revert i. induction s as [|x s IH]; intros i; simpl; [done|].
  destruct (Ascii.eqb x c); [intros [= <-]; lia|].
  destruct (index c s) as [k|]; simpl; [|done]. intros [= <-].
  specialize (IH k eq_refl). lia.
Qed.

Lemma index_notin c s : c ∉ s -> index c s = None.
Proof.
  induction s as [|x s IH]; intros Hc; simpl; [done|].
  destruct (Ascii.eqb_spec x c) as [->|Hne]; [set_solver|].
  rewrite IH; [done|]. set_solver.
Qed.

Lemma index_app_notin c s t :
  c ∉ s -> index c (s ++ t) = (fun i => length s + i) <$> index c t.
Proof.
  induction s as [|x s IH]; intros Hc; simpl.
  - by destruct (index c t).
  - destruct (Ascii.eqb_spec x c) as [->|Hne]; [set_solver|].
    rewrite IH by set_solver. by destruct (index c t).
Qed.

Lemma index_here c t : index c (c :: t) = Some 0.
Proof. simpl. by rewrite Ascii.eqb_refl. Qed.

(** [find] from the end of a prefix. *)
Lemma find_app c pre s :
  find c (Z.of_nat (length pre)) (pre ++ s)
  = match index c s with
    | Some i => Z.of_nat (length pre + i)
    | None => (-1)%Z
    end.
Proof.
  unfold find. rewrite bound_nat, length_app.
  replace (length pre `min` (length pre + length s)) with (length pre) by lia.
  by rewrite drop_app_length.
Qed.

Lemma find_at c pre s raw z :
  raw = pre ++ s -> z = Z.of_nat (length pre) ->
  find c z raw
  = match index c s with
    | Some i => Z.of_nat (length pre + i)
    | None => (-1)%Z
    end.
Proof. intros -> ->. apply find_app. Qed.

Lemma slice_at pre s rest raw a b :
  raw = pre ++ s ++ rest ->
  a = Z.of_nat (length pre) -> b = Z.of_nat (length pre + length s) ->
  slice a b raw = s.
Proof.
  intros -> -> ->. unfold slice. rewrite !bound_nat, !length_app.
  replace (length pre `min` (length pre + (length s + length rest)))
    with (length pre) by lia.
  replace ((length pre + length s) `min` (length pre + (length s + length rest)))
    with (length pre + length s) by lia.
  rewrite drop_app_length.
  replace (length pre + length s - length pre) with (length s) by lia.
  by rewrite take_app_length.
Qed.

(** Where [find] points when it finds. *)
Lemma find_range c start s :
  (0 <= start)%Z ->
  find c start s = (-1)%Z \/
  (start <= find c start s < Z.of_nat (length s))%Z.
Proof.
  intros Hs. unfold find. rewrite bound_nonneg by done.
  destruct (index c _) as [i|] eqn:E; [right|by left].
  apply index_lt in E. rewrite length_drop in E. lia.
Qed.

Lemma slice_from_one x s : slice_from 1 (x :: s) = s.
Proof. done. Qed.

End StrFacts.

Ltac norm_app := repeat first [rewrite <- app_assoc | progress cbn [app]].

Section HtmlFacts.
Import PyStr.

Lemma html_loop_end fuel raw stk :
  html_loop fuel raw (-1) stk = Some (Return (ArrayStack.is_empty stk)).
Proof. by destruct fuel. Qed.

Lemma is_empty_decide {T} `{EqDecision T} (stk : list T) :
  ArrayStack.is_empty stk = bool_decide (stk = []).
Proof. destruct stk; [done|]. unfold ArrayStack.is_empty. simpl. done. Qed.

Lemma pop_nonempty {T} (stk : list T) :
  ArrayStack.is_empty stk = false ->
  exists x stk', stk = stk' ++ [x] /\ ArrayStack.pop stk = (Return x, stk').
Proof.
  intros He. destruct stk as [|y stk _] using rev_ind; [done|].
  exists y, stk. split; [done|]. apply pop_snoc.
Qed.

Lemma count_tags_cons p ps :
  count_tags (p :: ps) = (if is_tag p then 1 else 0) + count_tags ps.
Proof. unfold count_tags. rewrite filter_cons. by destruct (is_tag p). Qed.

Lemma render_cons p ps : render (p :: ps) = render_piece p ++ render ps.
Proof. done. Qed.

(** The loop on the text of a sequence of pieces, from the first '<' at
    or after the start of the sequence. *)
Lemma html_loop_render ps : forall pre stk fuel raw,
  Forall valid_piece ps -> count_tags ps <= fuel ->
  raw = pre ++ render ps ->
  html_loop fuel raw (find "<" (Z.of_nat (length pre)) raw) stk
  = Some (Return (balanced ps stk)).
Proof.
  induction ps as [|p ps IH]; intros pre stk fuel raw Hval Hfuel ->.
  - unfold render. simpl. rewrite (find_at "<" pre [] _ _ eq_refl eq_refl). simpl.
    by rewrite html_loop_end, is_empty_decide.
  - apply Forall_cons in Hval as (Hp & Hval). rewrite count_tags_cons in Hfuel.
    rewrite render_cons. destruct p as [s|name|name]; simpl in Hp, Hfuel.
    + (* text *)
      cbn [render_piece balanced].
      rewrite (find_at "<" pre (s ++ render ps) _ _ eq_refl eq_refl).
      rewrite index_app_notin by done.
      specialize (IH (pre ++ s) stk fuel (pre ++ s ++ render ps) Hval Hfuel).
      rewrite (find_at "<" (pre ++ s) (render ps) _ _) in IH;
        [|by rewrite <- app_assoc|done].
      rewrite length_app in IH.
      destruct (index "<" (render ps)) as [i|]; simpl.
      * rewrite Nat.add_assoc. apply IH. by rewrite <- app_assoc.
      * apply IH. by rewrite <- app_assoc.
    + (* opening tag *)
      destruct Hp as (Hgt & Hslash). destruct fuel as [|fuel]; [lia|].
      cbn [render_piece balanced].
      remember (pre ++ ("<"%char :: name ++ [">"%char]) ++ render ps) as raw eqn:Hraw.
      assert (find "<" (Z.of_nat (length pre)) raw = Z.of_nat (length pre)) as Hj.
      { rewrite (find_at "<" pre _ raw _ Hraw eq_refl).
        simpl. f_equal. lia. }
      assert (raw = (pre ++ ["<"%char]) ++ name ++ ">"%char :: render ps) as Hraw1.
      { rewrite Hraw. by norm_app. }
      assert (find ">" (Z.of_nat (length pre) + 1) raw
              = Z.of_nat (length (pre ++ ["<"%char]) + length name)) as Hk.
      { rewrite (find_at ">" _ _ _ _ Hraw1); [|rewrite length_app; simpl; lia].
        rewrite index_app_notin by done. rewrite index_here. simpl.
        f_equal. lia. }
      assert (slice (Z.of_nat (length pre) + 1)
                (Z.of_nat (length (pre ++ ["<"%char]) + length name)) raw = name) as Htag.
      { apply (slice_at (pre ++ ["<"%char]) name (">"%char :: render ps));
          [done|rewrite length_app; simpl; lia|done]. }
      rewrite Hj. cbn [html_loop].
      destruct (Z.eqb_spec (Z.of_nat (length pre)) (-1)) as [?|_]; [lia|].
      rewrite Hk.
      destruct (Z.eqb_spec (Z.of_nat (length (pre ++ ["<"%char]) + length name)) (-1))
        as [?|_]; [lia|].
      rewrite Htag, Hslash. cbn [negb].
      unfold ArrayStack.push.
      specialize (IH (pre ++ "<"%char :: name ++ [">"%char]) (stk ++ [name]) fuel raw Hval).
      replace (Z.of_nat (length (pre ++ ["<"%char]) + length name) + 1)%Z
        with (Z.of_nat (length (pre ++ "<"%char :: name ++ [">"%char]))).
      2: { rewrite !length_app. simpl. rewrite length_app. simpl. lia. }
      apply IH; [lia|]. rewrite Hraw. by norm_app.
    + (* closing tag *)
      destruct fuel as [|fuel]; [lia|].
      cbn [render_piece balanced].
      remember (pre ++ ("<"%char :: "/"%char :: name ++ [">"%char]) ++ render ps)
        as raw eqn:Hraw.
      assert (find "<" (Z.of_nat (length pre)) raw = Z.of_nat (length pre)) as Hj.
      { rewrite (find_at "<" pre _ raw _ Hraw eq_refl).
        simpl. f_equal. lia. }
      assert (raw = (pre ++ ["<"%char]) ++ ("/"%char :: name) ++ ">"%char :: render ps)
        as Hraw1.
      { rewrite Hraw. by norm_app. }
      assert (find ">" (Z.of_nat (length pre) + 1) raw
              = Z.of_nat (length (pre ++ ["<"%char]) + length ("/"%char :: name))) as Hk.
      { rewrite (find_at ">" _ _ _ _ Hraw1); [|rewrite length_app; simpl; lia].
        rewrite index_app_notin.
        - rewrite index_here. simpl. f_equal. lia.
        - apply not_elem_of_cons. split; [done|done]. }
      assert (slice (Z.of_nat (length pre) + 1)
                (Z.of_nat (length (pre ++ ["<"%char]) + length ("/"%char :: name))) raw
              = "/"%char :: name) as Htag.
      { apply (slice_at (pre ++ ["<"%char]) ("/"%char :: name) (">"%char :: render ps));
          [done|rewrite length_app; simpl; lia|done]. }
      rewrite Hj. cbn [html_loop].
      destruct (Z.eqb_spec (Z.of_nat (length pre)) (-1)) as [?|_]; [lia|].
      rewrite Hk.
      destruct (Z.eqb_spec
                  (Z.of_nat (length (pre ++ ["<"%char]) + length ("/"%char :: name))) (-1))
        as [?|_]; [lia|].
      rewrite Htag. cbn [startswith]. rewrite Ascii.eqb_refl. cbn [negb].
      rewrite slice_from_one.
      destruct (ArrayStack.is_empty stk) eqn:Hemp.
      { rewrite is_empty_decide in Hemp. apply bool_decide_eq_true in Hemp as ->.
        done. }
      destruct (pop_nonempty stk Hemp) as (x & stk' & -> & ->).
      rewrite last_snoc, removelast_last.
      rewrite (bool_decide_ext (name = x) (x = name)) by done.
      destruct (bool_decide (x = name)); cbn [negb andb]; [|done].
      specialize (IH (pre ++ "<"%char :: "/"%char :: name ++ [">"%char]) stk' fuel raw Hval).
      replace (Z.of_nat (length (pre ++ ["<"%char]) + length ("/"%char :: name)) + 1)%Z
        with (Z.of_nat (length (pre ++ "<"%char :: "/"%char :: name ++ [">"%char]))).
      2: { rewrite !length_app. simpl. rewrite length_app. simpl. lia. }
      apply IH; [lia|]. rewrite Hraw. by norm_app.
Qed.

(** The loop terminates within [length raw] turns and returns a bool. *)
Lemma html_loop_returns raw : forall fuel j stk,
  (j = -1 \/ (0 <= j < Z.of_nat (length raw) /\ Z.of_nat (length raw) - j <= Z.of_nat fuel))%Z ->
  exists b, html_loop fuel raw j stk = Some (Return b).
Proof.
  induction fuel as [|fuel IH]; intros j stk Hj.
  - destruct Hj as [->|Hj]; [by eexists|lia].
  - destruct Hj as [->|(Hj & Hfuel)]; [by eexists|].
    cbn [html_loop]. destruct (Z.eqb_spec j (-1)) as [?|_]; [lia|].
    destruct (find_range ">" (j + 1) raw) as [->|Hk]; [lia|by eexists|].
    destruct (Z.eqb_spec (find ">" (j + 1) raw) (-1)) as [?|_]; [lia|].
    assert (forall stk', exists b,
              html_loop fuel raw (find "<" (find ">" (j + 1) raw + 1) raw) stk'
              = Some (Return b)) as Hnext.
    { intros stk'. apply IH.
      destruct (find_range "<" (find ">" (j + 1) raw + 1) raw) as [->|Hj'];
        [lia|by left|right; lia]. }
    destruct (negb _); [apply Hnext|].
    destruct (ArrayStack.is_empty stk) eqn:Hemp; [by eexists|].
    destruct (pop_nonempty stk Hemp) as (x & stk' & -> & ->).
    destruct (negb _); [by eexists|apply Hnext].
Qed.

(** Nested pieces in front leave the stack discipline where it was. *)
Lemma balanced_nested ps : nested ps ->
  forall rest stk, balanced (ps ++ rest) stk = balanced rest stk.
Proof.
  induction 1 as [|s ps Hps IH|name inner ps Hin IHin Hps IHps]; intros rest stk.
  - done.
  - simpl. apply IH.
  - simpl. rewrite <- app_assoc. rewrite IHin. simpl.
    rewrite last_snoc, removelast_last. rewrite bool_decide_eq_true_2 by done.
    apply IHps.
Qed.

Lemma nested_app ps qs : nested ps -> nested qs -> nested (ps ++ qs).
Proof.
  induction 1 as [|s ps Hps IH|name inner ps Hin IHin Hps IHps]; intros Hq.
  - done.
  - simpl. constructor. by apply IH.
  - simpl. rewrite <- app_assoc. simpl. constructor; [done|]. by apply IHps.
Qed.

Lemma balanced_closes ps : forall stk,
  balanced ps stk = true -> closes ps (rev stk).
Proof.
  induction ps as [|p ps IH]; intros stk Hb.
  - simpl in Hb. apply bool_decide_eq_true in Hb as ->. constructor.
  - destruct p as [s|name|name]; simpl in Hb.
    + apply IH in Hb. destruct (rev stk) as [|x opened]; simpl in *.
      * by constructor.
      * destruct Hb as (inner & rest & -> & Hin & Hrest).
        exists (Text s :: inner), rest. split; [done|]. split; [by constructor|done].
    + apply IH in Hb. rewrite rev_unit in Hb. simpl in Hb.
      destruct Hb as (inner & rest & -> & Hin & Hrest).
      destruct (rev stk) as [|x opened]; simpl in *.
      * by constructor.
      * destruct Hrest as (inner' & rest' & -> & Hin' & Hrest').
        exists (Open name :: inner ++ Close name :: inner'), rest'.
        split; [simpl; by rewrite <- app_assoc|]. split; [by constructor|done].
    + destruct stk as [|x stk _] using rev_ind; [done|].
      rewrite last_snoc, removelast_last in Hb.
      apply andb_true_iff in Hb as (Hx & Hb). apply bool_decide_eq_true in Hx as ->.
      apply IH in Hb. rewrite rev_unit. simpl.
      exists [], ps. split; [done|]. split; [constructor|done].
Qed.

Lemma html_follows_tags ps fuel :
  Forall valid_piece ps -> count_tags ps <= fuel ->
  is_matched_html fuel (render ps) = Some (Return (balanced ps [])).
Proof.
  intros Hval Hfuel. unfold is_matched_html.
  by apply (html_loop_render ps [] [] fuel (render ps)).
Qed.

End HtmlFacts.

Section PqSortFailure.
Import DoublyLinkedBase PqSort.
Variable slots : list string.
Variable Q : Type.
Variable add : value -> value -> Q -> outcome unit * Q.

Lemma for_range_add a b (body : MQ Q unit) st :
  for_range Q (a + b) body st
  = bindQ Q (for_range Q a body) (fun _ => for_range Q b body) st.
Proof.
  revert st. induction a as [|a IH]; intros st; cbn [for_range Nat.add].
  - by unfold bindQ, retQ.
  - unfold bindQ at 1 2 3. destruct (body st) as [[u|e|] st1]; [|done..].
    rewrite IH. by unfold bindQ.
Qed.

(** One turn of the first loop on a list whose first real node is [n]:
    the node is deleted and its element goes to [add]. *)
Lemma move_first w G C d n rest q :
  wf slots w G -> objs w !! C = Some d -> chains G !! C = Some (n :: rest) ->
  exists nd w1 G1 d1,
    nodes w !! n = Some nd /\
    wf slots w1 G1 /\ objs w1 !! C = Some d1 /\ chains G1 !! C = Some rest /\
    elements (nodes w1) rest = elements (nodes w) rest /\
    move_to_queue slots Q add C (w, q)
    = (fst (add (_element nd) (_element nd) q),
       (w1, snd (add (_element nd) (_element nd) q))).
Proof.
  intros Hwf Hd Hns.
  pose proof (wf_admits_obj _ _ _ _ _ Hwf Hd) as Hadm.
  pose proof (wf_list _ _ _ Hwf _ _ _ Hd Hns) as Hok.
  pose proof (first_exact slots w C d _ Hadm Hd Hok) as Hfirst. simpl in Hfirst.
  destruct (chain_at _ _ [] _ _ Hok)
    as (xs & p & s & ys & nd & H1 & H2 & Hnd & Hpr & Hnx & _).
  destruct (delete_wf slots w G C d [] n rest xs p s ys nd Hwf Hd Hns H1 H2 Hnd Hpr Hnx)
    as (Hdel & _).
  destruct (removed_list slots w G C d [] n rest xs p s ys Hwf Hd Hns H1 H2)
    as (Hwf' & Hd' & Hok' & Hel).
  cbv zeta in Hwf', Hd', Hok', Hel. rewrite app_nil_l in Hok', Hel.
  exists nd, (removed C n p s w), (ghost_removed C [] rest G), (grow (-1) d).
  split; [done|]. split; [done|]. split; [done|].
  split; [simpl; rewrite list_lookup_insert_eq; [done|by eapply lookup_lt_Some]|].
  split; [done|].
  unfold move_to_queue.
  erewrite bindQ_step; [|by apply on_list_step].
  erewrite bindQ_step; [|apply on_list_step; exact Hdel].
  reflexivity.
Qed.

(** The first turns of the first loop, on the real nodes [l1] that are
    followed by [rest]. *)
Lemma drain_prefix C l1 : forall w G d rest q q1,
  wf slots w G -> objs w !! C = Some d -> chains G !! C = Some (l1 ++ rest) ->
  adds Q add (elements (nodes w) l1) q = Some q1 ->
  exists w1 G1 d1,
    for_range Q (length l1) (move_to_queue slots Q add C) (w, q) = (Ok tt, (w1, q1)) /\
    wf slots w1 G1 /\ objs w1 !! C = Some d1 /\ chains G1 !! C = Some rest /\
    elements (nodes w1) rest = elements (nodes w) rest.
Proof.
  induction l1 as [|n l1 IH]; intros w G d rest q q1 Hwf Hd Hns Hadds.
  - simpl in Hadds. injection Hadds as <-. by exists w, G, d.
  - destruct (move_first w G C d n (l1 ++ rest) q Hwf Hd Hns)
      as (nd & w1 & G1 & d1 & Hnd & Hwf1 & Hd1 & Hns1 & Hel1 & Hmove).
    rewrite (elements_cons _ _ _ _ Hnd) in Hadds. cbn [adds] in Hadds.
    destruct (add (_element nd) (_element nd) q) as [[u|e|] q'] eqn:Hadd; try done.
    rewrite !elements_app in Hel1.
    apply app_inj_1 in Hel1 as (Hel1 & Hel1'); [|by rewrite !elements_length].
    rewrite <- Hel1 in Hadds.
    destruct (IH w1 G1 d1 rest q' q1 Hwf1 Hd1 Hns1 Hadds)
      as (w2 & G2 & d2 & Hloop & Hwf2 & Hd2 & Hns2 & Hel2).
    exists w2, G2, d2. split; [|split; [done|split; [done|split; [done|congruence]]]].
    cbn [for_range length].
    erewrite bindQ_step; [exact Hloop|]. rewrite Hmove. simpl. by destruct u.
Qed.

End PqSortFailure.

Section SourceLayout.

Lemma source_program_store prog w hs G :
  wf Node_slots w G -> Forall (passable G) hs ->
  fst (fold_left (step Node_slots) prog (w, hs)) = empty_world.
Proof.
  intros Hwf Hhs.
  destruct (run_program_kept Node_slots prog w hs G Hwf Hhs) as (G' & Hwf' & _).
  destruct (source_store_empty _ _ Hwf') as (Hn & Ho).
  destruct (fst (fold_left (step Node_slots) prog (w, hs))) as [ns os].
  simpl in Hn, Ho. by subst.
Qed.

End SourceLayout.

Section HtmlUnterminated.
Import PyStr.

(** The loop on the text of a sequence of pieces that is followed by a
    '<' with no '>' after it. *)
Lemma html_loop_unterminated ps : forall pre stk fuel raw s,
  Forall valid_piece ps -> ">"%char ∉ s -> count_tags ps < fuel ->
  raw = pre ++ render ps ++ "<"%char :: s ->
  html_loop fuel raw (find "<" (Z.of_nat (length pre)) raw) stk
  = Some (Return false).
Proof.
  induction ps as [|p ps IH]; intros pre stk fuel raw s Hval Hs Hfuel Hraw.
  - unfold render in Hraw. simpl in Hraw.
    destruct fuel as [|fuel]; [unfold count_tags in Hfuel; simpl in Hfuel; lia|].
    assert (find "<" (Z.of_nat (length pre)) raw = Z.of_nat (length pre)) as Hj.
    { rewrite (find_at "<" pre _ raw _ Hraw eq_refl). rewrite index_here.
      f_equal. lia. }
    assert (raw = (pre ++ ["<"%char]) ++ s) as Hraw1 by (rewrite Hraw; by norm_app).
    assert (find ">" (Z.of_nat (length pre) + 1) raw = (-1)%Z) as Hk.
    { rewrite (find_at ">" _ _ _ _ Hraw1); [|rewrite length_app; simpl; lia].
      by rewrite index_notin. }
    rewrite Hj. cbn [html_loop].
    destruct (Z.eqb_spec (Z.of_nat (length pre)) (-1)) as [?|_]; [lia|].
    by rewrite Hk.
  - apply Forall_cons in Hval as (Hp & Hval). rewrite count_tags_cons in Hfuel.
    rewrite render_cons in Hraw.
    set (rest := render ps ++ "<"%char :: s) in *.
    destruct p as [t|name|name]; simpl in Hp, Hfuel; cbn [render_piece] in Hraw.
    + (* text *)
      assert (raw = pre ++ t ++ rest) as Hraw0 by (rewrite Hraw; by norm_app).
      assert (raw = (pre ++ t) ++ rest) as Hraw1 by (rewrite Hraw; by norm_app).
      rewrite (find_at "<" pre (t ++ rest) raw _ Hraw0 eq_refl).
      rewrite index_app_notin by done.
      specialize (IH (pre ++ t) stk fuel raw s Hval Hs Hfuel Hraw1).
      rewrite (find_at "<" (pre ++ t) rest raw _ Hraw1 eq_refl) in IH.
      rewrite length_app in IH.
      destruct (index "<" rest) as [i|]; simpl.
      * rewrite Nat.add_assoc. apply IH.
      * apply IH.
    + (* opening tag *)
      destruct Hp as (Hgt & Hslash). destruct fuel as [|fuel]; [lia|].
      assert (raw = pre ++ "<"%char :: name ++ ">"%char :: rest) as Hraw0
        by (rewrite Hraw; by norm_app).
      assert (find "<" (Z.of_nat (length pre)) raw = Z.of_nat (length pre)) as Hj.
      { rewrite (find_at "<" pre _ raw _ Hraw0 eq_refl). rewrite index_here.
        f_equal. lia. }
      assert (raw = (pre ++ ["<"%char]) ++ name ++ ">"%char :: rest) as Hraw1.
      { rewrite Hraw0. by norm_app. }
      assert (find ">" (Z.of_nat (length pre) + 1) raw
              = Z.of_nat (length (pre ++ ["<"%char]) + length name)) as Hk.
      { rewrite (find_at ">" _ _ _ _ Hraw1); [|rewrite length_app; simpl; lia].
        rewrite index_app_notin by done. rewrite index_here. simpl.
        f_equal. lia. }
      assert (slice (Z.of_nat (length pre) + 1)
                (Z.of_nat (length (pre ++ ["<"%char]) + length name)) raw = name) as Htag.
      { apply (slice_at (pre ++ ["<"%char]) name (">"%char :: rest));
          [done|rewrite length_app; simpl; lia|done]. }
      rewrite Hj. cbn [html_loop].
      destruct (Z.eqb_spec (Z.of_nat (length pre)) (-1)) as [?|_]; [lia|].
      rewrite Hk.
      destruct (Z.eqb_spec (Z.of_nat (length (pre ++ ["<"%char]) + length name)) (-1))
        as [?|_]; [lia|].
      rewrite Htag, Hslash. cbn [negb].
      specialize (IH (pre ++ "<"%char :: name ++ [">"%char])
                    (ArrayStack.push name stk) fuel raw s Hval Hs).
      replace (Z.of_nat (length (pre ++ ["<"%char]) + length name) + 1)%Z
        with (Z.of_nat (length (pre ++ "<"%char :: name ++ [">"%char]))).
      2: { rewrite !length_app. simpl. rewrite length_app. simpl. lia. }
      apply IH; [lia|]. rewrite Hraw0. unfold rest. by norm_app.
    + (* closing tag *)
      destruct fuel as [|fuel]; [lia|].
      assert (raw = pre ++ "<"%char :: "/"%char :: name ++ ">"%char :: rest) as Hraw0
        by (rewrite Hraw; by norm_app).
      assert (find "<" (Z.of_nat (length pre)) raw = Z.of_nat (length pre)) as Hj.
      { rewrite (find_at "<" pre _ raw _ Hraw0 eq_refl). rewrite index_here.
        f_equal. lia. }
      assert (raw = (pre ++ ["<"%char]) ++ ("/"%char :: name) ++ ">"%char :: rest)
        as Hraw1.
      { rewrite Hraw0. by norm_app. }
      assert (find ">" (Z.of_nat (length pre) + 1) raw
              = Z.of_nat (length (pre ++ ["<"%char]) + length ("/"%char :: name))) as Hk.
      { rewrite (find_at ">" _ _ _ _ Hraw1); [|rewrite length_app; simpl; lia].
        rewrite index_app_notin.
        - rewrite index_here. simpl. f_equal. lia.
        - apply not_elem_of_cons. split; [done|done]. }
      assert (slice (Z.of_nat (length pre) + 1)
                (Z.of_nat (length (pre ++ ["<"%char]) + length ("/"%char :: name))) raw
              = "/"%char :: name) as Htag.
      { apply (slice_at (pre ++ ["<"%char]) ("/"%char :: name) (">"%char :: rest));
          [done|rewrite length_app; simpl; lia|done]. }
      rewrite Hj. cbn [html_loop].
      destruct (Z.eqb_spec (Z.of_nat (length pre)) (-1)) as [?|_]; [lia|].
      rewrite Hk.
      destruct (Z.eqb_spec
                  (Z.of_nat (length (pre ++ ["<"%char]) + length ("/"%char :: name))) (-1))
        as [?|_]; [lia|].
      rewrite Htag. cbn [startswith]. rewrite Ascii.eqb_refl. cbn [negb].
      rewrite slice_from_one.
      destruct (ArrayStack.is_empty stk) eqn:Hemp; [done|].
      destruct (pop_nonempty stk Hemp) as (x & stk' & -> & ->).
      destruct (negb _); [done|].
      specialize (IH (pre ++ "<"%char :: "/"%char :: name ++ [">"%char]) stk' fuel raw s
                    Hval Hs).
      replace (Z.of_nat (length (pre ++ ["<"%char]) + length ("/"%char :: name)) + 1)%Z
        with (Z.of_nat (length (pre ++ "<"%char :: "/"%char :: name ++ [">"%char]))).
      2: { rewrite !length_app. simpl. rewrite length_app. simpl. lia. }
      apply IH; [lia|]. rewrite Hraw0. unfold rest. by norm_app.
Qed.

End HtmlUnterminated.

(** ** The methods under the [__slots__] tuple of the source

    [Node_slots] does not admit [_element].  Creating a node and reading
    or assigning the element of a node raise AttributeError, whatever the
    store, and so does every method that gets that far. *)

Section Source.
Import DoublyLinkedBase.

Lemma returns_bind_l {A B} (m : M A) (k : A -> M B) w :
  returns (m w) = false -> returns (bind m k w) = false.
Proof.
  unfold returns, bind. by destruct (m w) as [[a|e|] w1].
Qed.

Lemma returns_bind_r {A B} (m : M A) (k : A -> M B) w :
  (forall a w1, returns (k a w1) = false) -> returns (bind m k w) = false.
Proof.
  intros Hk. unfold bind. destruct (m w) as [[a|e|] w1]; [apply Hk|done..].
Qed.

Lemma source_get_element r w :
  exists cls, get_element Node_slots r w = (Raise (AttributeError cls "_element"), w).
Proof.
  destruct r as [l|]; [by exists "_Node"|by exists "NoneType"].
Qed.

Lemma source_get_element_returns r w :
  returns (get_element Node_slots r w) = false.
Proof. by destruct (source_get_element r w) as (cls & ->). Qed.

Lemma source_insert_between L e p s w :
  PositionalList._insert_between Node_slots L e p s w
  = (Raise (AttributeError "_Node" "_element"), w).
Proof. reflexivity. Qed.

Lemma source_delete_node L r w :
  returns (_delete_node Node_slots L r w) = false.
Proof.
  unfold _delete_node.
  do 5 (apply returns_bind_r; intros ? ?).
  apply returns_bind_l, source_get_element_returns.
Qed.

Lemma source_iter_from fuel : forall L c w vs,
  PositionalList.iter_from Node_slots fuel L c w = Some (Ok vs) -> vs = [].
Proof.
  destruct fuel as [|fuel]; intros L [c|] w vs H; simpl in H; try congruence.
  unfold PositionalList.element in H.
  destruct (source_get_element (_node c) w) as (cls & Hg).
  by rewrite Hg in H.
Qed.

End Source.

Section SourceMethods.
Import DoublyLinkedBase PositionalList.

Lemma source_add_first L e w :
  returns (add_first Node_slots L e w) = false /\
  snd (add_first Node_slots L e w) = w.
Proof.
  split.
  - unfold add_first. do 2 (apply returns_bind_r; intros ? ?).
    by rewrite source_insert_between.
  - revert w. apply reads_bind; [apply reads_obj|]. intros d.
    apply reads_bind; [apply reads_node_get|]. intros s w.
    by rewrite source_insert_between.
Qed.

Lemma source_add_last L e w :
  returns (add_last Node_slots L e w) = false /\
  snd (add_last Node_slots L e w) = w.
Proof.
  split.
  - unfold add_last. do 2 (apply returns_bind_r; intros ? ?).
    by rewrite source_insert_between.
  - revert w. apply reads_bind; [apply reads_obj|]. intros d.
    apply reads_bind; [apply reads_node_get|]. intros s w.
    by rewrite source_insert_between.
Qed.

End SourceMethods.

(** ** The classes under a declaration that admits [_element]

    What the methods do once nodes can be created.  The statements are
    for an arbitrary declaration, but their hypotheses (a call that
    returned, a list of a well-formed store) are met only by one that
    admits the three attributes that [_Node.__init__] assigns, which the
    tuple of the source does not.  They state the behaviour that the
    docstrings announce; the examples run on [init_slots]. *)

Module Intended.
Import DoublyLinkedBase PositionalList.

(** Once [delete(p)] has returned, each of [before], [after],
    [add_before], [add_after], [delete] and [replace] called on the same
    list with [p] raises the ValueError of [_validate] for a deprecated
    node, and leaves the store as it is. *)
Theorem delete_invalidates_position slots L p w e w' :
  delete slots L p w = (Ok e, w') ->
  let err := ValueError "p is no longer valid." in
  before slots L p w' = (Raise err, w') /\
  after slots L p w' = (Raise err, w') /\
  (forall x, add_before slots L p x w' = (Raise err, w')) /\
  (forall x, add_after slots L p x w' = (Raise err, w')) /\
  delete slots L p w' = (Raise err, w') /\
  (forall x, replace slots L p x w' = (Raise err, w')).
Proof.
  intros H err. apply validate_raises.
  unfold delete in H. apply bind_Ok in H as (r & w1 & Hv & Hd).
  apply validate_Ok in Hv as (q & n & nd & s & -> & Hc & Hn & -> & Ha & Hnd & Hnx & ->).
  pose proof Hd as Hd'.
  apply delete_node_Ok in Hd' as (n' & nd' & p' & s' & d & [= <-] & He & Hp & _
                                  & Hnd' & Hpr & Hnx' & Hpl & Hsl & Hobj).
  erewrite delete_node_run in Hd by eassumption.
  injection Hd as _ <-.
  eapply validate_deprecated; try eassumption.
  - simpl. apply unlinked_cleared. by eapply lookup_lt_Some.
  - reflexivity.
Qed.

Lemma delete_invalidates_position_witness :
  let w' := snd (delete init_slots 0 (OPos p1) w_10) in
  let err := ValueError "p is no longer valid." in
  delete init_slots 0 (OPos p1) w_10 = (Ok (PyInt 10), w') /\
  (before init_slots 0 (OPos p1) w' = (Raise err, w') /\
   after init_slots 0 (OPos p1) w' = (Raise err, w') /\
   (forall x, add_before init_slots 0 (OPos p1) x w' = (Raise err, w')) /\
   (forall x, add_after init_slots 0 (OPos p1) x w' = (Raise err, w')) /\
   delete init_slots 0 (OPos p1) w' = (Raise err, w') /\
   (forall x, replace init_slots 0 (OPos p1) x w' = (Raise err, w'))).
Proof.
  split; [reflexivity|].
  apply (delete_invalidates_position init_slots 0 (OPos p1) w_10 (PyInt 10)).
  reflexivity.
Defined.

(** The Position [q] that [add_after(p, e)] returned passes
    [_validate] and [q.element()] returns [e] after any further sequence
    of [add_first], [add_last], [add_before] and [add_after] calls on the
    list, whatever their arguments and whether or not they succeed. *)
Theorem add_after_position_stable slots L p e w q w1 ins :
  add_after slots L p e w = (Ok (Some q), w1) ->
  let w2 := run_insertions slots L ins w1 in
  _validate slots L (OPos q) w2 = (Ok (_node q), w2) /\
  element slots q w2 = (Ok e, w2).
Proof.
  intros H w2. unfold add_after in H.
  apply bind_Ok in H as (r & w' & Hv & H).
  apply validate_Ok in Hv as (p0 & n0 & nd0 & s0 & -> & Hc & Hn0 & -> & Ha & Hnd0 & Hnx0 & ->).
  apply bind_Ok in H as (succ & w' & Hg & H).
  unfold get_next in Hg. apply node_get_Ok in Hg as (? & ? & _ & _ & _ & _ & ->).
  unfold PositionalList._insert_between in H.
  apply bind_Ok in H as (n & w' & Hi & Hmk).
  apply insert_between_fresh in Hi as (He & _ & nd & Hnd & Hel & Hnx).
  apply make_position_Ok in Hmk as (<- & Hq). rewrite (Hq q eq_refl).
  destruct (run_insertions_grows slots L ins w1 _ _ Hnd) as (nd' & Hnd' & Hel' & Hnx').
  fold w2 in Hnd'. specialize (Hnx' Hnx).
  destruct (_next nd') as [s'|] eqn:Hs'; [|done]. split.
  - by eapply validate_run.
  - unfold element. cbn [_node].
    rewrite (get_element_run _ _ _ _ He Hnd'). by rewrite Hel', Hel.
Qed.

Lemma add_after_position_stable_witness :
  let ins := [InsFirst (PyInt 1); InsBefore (OPos p2) (PyInt 5);
              InsAfter (OPos p2) (PyInt 6); InsLast (PyInt 9)] in
  let w1 := snd (add_after init_slots 0 (OPos p1) (PyInt 12) w_10) in
  let w2 := run_insertions init_slots 0 ins w1 in
  add_after init_slots 0 (OPos p1) (PyInt 12) w_10 = (Ok (Some p2), w1) /\
  (_validate init_slots 0 (OPos p2) w2 = (Ok (_node p2), w2) /\
   element init_slots p2 w2 = (Ok (PyInt 12), w2)).
Proof.
  split; [reflexivity|].
  apply (add_after_position_stable init_slots 0 (OPos p1) (PyInt 12) w_10 p2).
  reflexivity.
Defined.

(** On a list with no real node, [first()] and [last()] of the
    positional list return None and do not raise, while [first()],
    [last()], [delete_first()] and [delete_last()] of the deque raise
    NameError, the name [Empty] being unbound. *)
Theorem empty_container_accessors slots w G Lp dp Ld dd :
  wf slots w G ->
  objs w !! Lp = Some dp -> chains G !! Lp = Some [] ->
  objs w !! Ld = Some dd -> chains G !! Ld = Some [] ->
  PositionalList.first slots Lp w = (Ok None, w) /\
  PositionalList.last slots Lp w = (Ok None, w) /\
  LinkedDeque.first slots Ld w = (Raise (NameError "Empty"), w) /\
  LinkedDeque.last slots Ld w = (Raise (NameError "Empty"), w) /\
  LinkedDeque.delete_first slots Ld w = (Raise (NameError "Empty"), w) /\
  LinkedDeque.delete_last slots Ld w = (Raise (NameError "Empty"), w).
Proof.
  intros Hwf Hdp Hnp Hdd Hnd.
  destruct (wf_admits_obj _ _ _ _ _ Hwf Hdp) as (He & Hp & Hn).
  destruct (wf_list _ _ _ Hwf _ _ _ Hdp Hnp) as [Hpath _ _ _ _].
  destruct (wf_list _ _ _ Hwf _ _ _ Hdd Hnd) as [_ _ _ _ Hsize].
  simpl in Hpath. destruct Hpath as (Hnx & Hpr & _).
  apply nxt_lookup in Hnx as (nh & Hnh & Hnx).
  apply prv_lookup in Hpr as (nt & Hnt & Hpr).
  assert (is_empty Ld w = (Ok true, w)) as Hemp.
  { unfold is_empty. rewrite (bind_step _ _ _ _ _ (obj_run _ _ _ Hdd)).
    unfold ret. by rewrite Hsize. }
  repeat split.
  - unfold PositionalList.first.
    rewrite (bind_step _ _ _ _ _ (obj_run _ _ _ Hdp)).
    rewrite (bind_step _ _ _ _ _ (get_next_run _ _ _ _ Hn Hnh)). rewrite Hnx.
    eapply make_position_sentinel; [done|by right].
  - unfold PositionalList.last.
    rewrite (bind_step _ _ _ _ _ (obj_run _ _ _ Hdp)).
    rewrite (bind_step _ _ _ _ _ (get_prev_run _ _ _ _ Hp Hnt)). rewrite Hpr.
    eapply make_position_sentinel; [done|by left].
  - unfold LinkedDeque.first. by rewrite (bind_step _ _ _ _ _ Hemp).
  - unfold LinkedDeque.last. by rewrite (bind_step _ _ _ _ _ Hemp).
  - unfold LinkedDeque.delete_first. by rewrite (bind_step _ _ _ _ _ Hemp).
  - unfold LinkedDeque.delete_last. by rewrite (bind_step _ _ _ _ _ Hemp).
Qed.

Lemma empty_container_accessors_witness :
  wf init_slots w_two G_two /\
  objs w_two !! 1 = Some (mkDLB 3 4 0) /\ chains G_two !! 1 = Some [] /\
  (PositionalList.first init_slots 1 w_two = (Ok None, w_two) /\
   PositionalList.last init_slots 1 w_two = (Ok None, w_two) /\
   LinkedDeque.first init_slots 1 w_two = (Raise (NameError "Empty"), w_two) /\
   LinkedDeque.last init_slots 1 w_two = (Raise (NameError "Empty"), w_two) /\
   LinkedDeque.delete_first init_slots 1 w_two
   = (Raise (NameError "Empty"), w_two) /\
   LinkedDeque.delete_last init_slots 1 w_two
   = (Raise (NameError "Empty"), w_two)).
Proof.
  split; [apply wf_w_two|]. split; [reflexivity|]. split; [reflexivity|].
  apply (empty_container_accessors init_slots w_two G_two 1 (mkDLB 3 4 0)
           1 (mkDLB 3 4 0) wf_w_two); reflexivity.
Defined.

(** A list is created by the constructor on a well-formed store, and
    a script of [add_first], [add_last] and [delete] calls is run on it
    ([delete] of a value that an earlier add returned, of [first()] or of
    [last()]), a failed call being caught.  Afterwards [len] is the number
    of add calls of the script minus the number of [delete] calls that
    returned. *)
Theorem length_counts_adds_minus_deletes slots w G L w0 ops :
  wf slots w G ->
  __init__ slots w = (Ok L, w0) ->
  let st := run_ops slots L ops (mkScript w0 [] 0) in
  __len__ L (sc_world st)
  = (Ok (count_adds ops - sc_deleted st)%Z, sc_world st).
Proof.
  intros Hwf Hinit st.
  pose proof (init_Ok _ _ _ _ Hinit) as Hadm.
  rewrite (init_run _ _ Hadm) in Hinit. injection Hinit as <- <-.
  assert (script_inv slots (length (objs w)) (mkScript (created w) [] 0) 0) as Hinv.
  { exists (ghost_created w G), (mkDLB (length (nodes w)) (S (length (nodes w))) 0).
    split; [by apply wf_init|]. split; [|by split].
    simpl. by rewrite list_lookup_middle. }
  apply (run_ops_inv slots _ ops) in Hinv. fold st in Hinv.
  destruct Hinv as (G' & d & _ & Hd & _ & Hk).
  unfold __len__. rewrite (bind_step _ _ _ _ _ (obj_run _ _ _ Hd)).
  unfold ret. by rewrite Hk.
Qed.

Lemma length_counts_adds_minus_deletes_witness :
  let ops := [AddLast (PyInt 10); AddFirst (PyInt 5); Delete 0; Delete 0;
              Delete 7; AddLast (PyInt 7); DeleteFirst; DeleteLast;
              DeleteLast; AddFirst (PyInt 3)] in
  let st := run_ops init_slots 0 ops (mkScript w_new [] 0) in
  wf init_slots empty_world (mkGhost [] []) /\
  __init__ init_slots empty_world = (Ok 0, w_new) /\
  count_adds ops = 4%Z /\ sc_deleted st = 3%Z /\
  __len__ 0 (sc_world st) = (Ok (count_adds ops - sc_deleted st)%Z, sc_world st).
Proof.
  split; [apply wf_empty|]. do 3 (split; [reflexivity|]).
  apply (length_counts_adds_minus_deletes init_slots empty_world (mkGhost [] [])
           0 w_new _ (wf_empty init_slots)).
  reflexivity.
Defined.

(** On a list of a well-formed store, with fuel for every real node:
    the chain of [after] calls from [first()] visits the Positions of the
    real nodes in order, [__iter__] yields exactly the elements of these
    Positions in the same order, and the number of yielded elements is
    [len]. *)
Theorem iteration_follows_after_chain slots w G L d ns fuel :
  wf slots w G -> objs w !! L = Some d -> chains G !! L = Some ns ->
  length ns <= fuel ->
  exists ps vs,
    after_chain slots fuel L w = Some (Ok ps) /\
    ps = map (fun n => mkPosition L (Some n)) ns /\
    __iter__ slots fuel L w = Some (Ok vs) /\
    Forall2 (fun p v => element slots p w = (Ok v, w)) ps vs /\
    __len__ L w = (Ok (Z.of_nat (length vs)), w).
Proof.
  intros Hwf Hd Hns Hfuel.
  pose proof (wf_admits_obj _ _ _ _ _ Hwf Hd) as Hadm.
  destruct Hadm as (He & Hp & Hn).
  destruct (wf_list _ _ _ Hwf _ _ _ Hd Hns) as [Hpath Hnodup _ _ Hsize].
  assert (__len__ L w = (Ok (Z.of_nat (length ns)), w)) as Hlen.
  { unfold __len__. rewrite (bind_step _ _ _ _ _ (obj_run _ _ _ Hd)).
    unfold ret. by rewrite Hsize. }
  unfold after_chain, __iter__, PositionalList.first.
  rewrite (bind_step _ _ _ _ _ (obj_run _ _ _ Hd)).
  destruct ns as [|n rest].
  - simpl in Hpath. destruct Hpath as (Hnx & _ & _).
    apply nxt_lookup in Hnx as (nh & Hnh & Hnx).
    rewrite (bind_step _ _ _ _ _ (get_next_run _ _ _ _ Hn Hnh)). rewrite Hnx.
    erewrite make_position_sentinel; [|done|by right].
    exists [], []. rewrite iter_from_None, chain_from_None.
    repeat split; done || constructor.
  - change (path (nodes w) (_header d :: n :: rest ++ [_trailer d])) in Hpath.
    destruct Hpath as (Hnx & _ & Hpath).
    apply nxt_lookup in Hnx as (nh & Hnh & Hnx).
    rewrite (bind_step _ _ _ _ _ (get_next_run _ _ _ _ Hn Hnh)). rewrite Hnx.
    assert (forall x, x ∈ n :: rest -> x <> _header d /\ x <> _trailer d) as Hreal.
    { unfold full in Hnodup. apply NoDup_cons in Hnodup as (Hh & Hnodup).
      apply NoDup_app in Hnodup as (_ & Ht & _).
      intros x Hx. split.
      - intros ->. apply Hh. set_solver.
      - intros ->. apply (Ht _ Hx). set_solver. }
    erewrite make_position_run; [|done|..].
    2: { destruct (Hreal n) as [? _]; [by left|congruence]. }
    2: { destruct (Hreal n) as [_ ?]; [by left|congruence]. }
    destruct (iter_from_path slots w L d rest n fuel) as (vs & Hit & Hch & Hall);
      try done.
    exists (map (fun x => mkPosition L (Some x)) (n :: rest)), vs.
    repeat split; try done.
    + by apply Forall2_fmap_l.
    + rewrite Hlen. by rewrite (Forall2_length _ _ _ Hall).
Qed.

Lemma iteration_follows_after_chain_witness :
  wf init_slots w_15 G_15 /\
  objs w_15 !! 0 = Some (mkDLB 0 1 3) /\ chains G_15 !! 0 = Some [2; 4; 3] /\
  length [2; 4; 3] <= 3 /\
  exists ps vs,
    after_chain init_slots 3 0 w_15 = Some (Ok ps) /\
    ps = map (fun n => mkPosition 0 (Some n)) [2; 4; 3] /\
    __iter__ init_slots 3 0 w_15 = Some (Ok vs) /\
    Forall2 (fun p v => element init_slots p w_15 = (Ok v, w_15)) ps vs /\
    __len__ 0 w_15 = (Ok (Z.of_nat (length vs)), w_15).
Proof.
  split; [apply wf_w_15|]. split; [reflexivity|]. split; [reflexivity|].
  split; [simpl; lia|].
  apply (iteration_follows_after_chain init_slots w_15 G_15 0 (mkDLB 0 1 3)
           [2; 4; 3] 3 wf_w_15); [reflexivity|reflexivity|simpl; lia].
Defined.

(** On a list of a well-formed store, [add_last(e)] returns a
    Position, [delete] of that Position returns [e], and [len] is then what
    it was before the [add_last]. *)
Theorem add_last_delete_round_trip slots w G L d e :
  wf slots w G -> objs w !! L = Some d ->
  exists q w1 w2,
    add_last slots L e w = (Ok (Some q), w1) /\
    delete slots L (OPos q) w1 = (Ok e, w2) /\
    __len__ L w = (Ok (_size d), w) /\
    __len__ L w2 = (Ok (_size d), w2).
Proof.
  intros Hwf Hd.
  destruct (wf_chain_exists _ _ _ _ _ Hwf Hd) as [ns Hns].
  destruct (add_last_wf slots w G L d ns e Hwf Hd Hns)
    as (xs & p & H1 & Hadd & Hwf1 & _).
  pose proof (wf_list _ _ _ Hwf _ _ _ Hd Hns) as Hok.
  assert (forall x, x ∈ full d ns -> x < length (nodes w)) as Hall.
  { intros x. apply full_allocated. by destruct Hok. }
  assert (p < length (nodes w)) as Hp.
  { apply Hall. unfold full. rewrite app_comm_cons, H1. set_solver. }
  assert (_trailer d < length (nodes w)) as Ht.
  { apply Hall. unfold full. set_solver. }
  assert (L < length (chains G)) as HL by (by eapply lookup_lt_Some).
  destruct (delete_wf slots (inserted L e p (_trailer d) w)
              (ghost_inserted L ns [] w G) L (grow 1 d) ns (length (nodes w)) []
              xs p (_trailer d) [] (mkNode e (Some p) (Some (_trailer d))))
    as (Hdel & _); try done.
  - simpl. by rewrite list_lookup_alter_eq, Hd.
  - simpl. by rewrite list_lookup_insert_eq.
  - simpl. by apply spliced_new.
  - do 3 eexists. split; [exact Hadd|]. split; [exact Hdel|].
    unfold __len__. split.
    + by rewrite (bind_step _ _ _ _ _ (obj_run _ _ _ Hd)).
    + erewrite bind_step;
        [|apply obj_run; simpl; by rewrite !list_lookup_alter_eq, Hd].
      unfold ret. simpl. do 2 f_equal. lia.
Qed.

Lemma add_last_delete_round_trip_witness :
  wf init_slots w_15 G_15 /\
  objs w_15 !! 0 = Some (mkDLB 0 1 3) /\
  exists q w1 w2,
    add_last init_slots 0 (PyStr "x") w_15 = (Ok (Some q), w1) /\
    delete init_slots 0 (OPos q) w1 = (Ok (PyStr "x"), w2) /\
    __len__ 0 w_15 = (Ok 3%Z, w_15) /\
    __len__ 0 w2 = (Ok 3%Z, w2).
Proof.
  split; [apply wf_w_15|]. split; [reflexivity|].
  apply (add_last_delete_round_trip init_slots w_15 G_15 0 (mkDLB 0 1 3)
           (PyStr "x") wf_w_15).
  reflexivity.
Defined.

(** For two Positions handed out by the lists of a well-formed store,
    [p == q] is true exactly when they hold the same node of the same
    list: a node belongs to one list. *)
Theorem position_eq_same_node slots w G p q :
  wf slots w G -> genuine G p -> genuine G q ->
  (__eq__ p (OPos q) = true <-> _node p = _node q /\ _container p = _container q)
  /\ __ne__ p (OPos q) = negb (__eq__ p (OPos q)).
Proof.
  intros _ (n & Hn & Ho) (n' & Hn' & Ho'). split; [|done].
  rewrite position_eq_node. split.
  - intros Heq. split; [done|]. rewrite Hn, Hn' in Heq. injection Heq as ->.
    congruence.
  - by intros [-> _].
Qed.

Lemma position_eq_same_node_witness :
  wf init_slots w_15 G_15 /\ genuine G_15 p1 /\ genuine G_15 p3 /\
  ((__eq__ p1 (OPos p3) = true <-> _node p1 = _node p3 /\ _container p1 = _container p3)
   /\ __ne__ p1 (OPos p3) = negb (__eq__ p1 (OPos p3))).
Proof.
  assert (genuine G_15 p1) as H1 by (exists 2; split; reflexivity).
  assert (genuine G_15 p3) as H3 by (exists 4; split; reflexivity).
  split; [apply wf_w_15|]. split; [exact H1|]. split; [exact H3|].
  apply (position_eq_same_node init_slots w_15 G_15 p1 p3 wf_w_15 H1 H3).
Defined.

(** After [delete(p)] has returned, [p.element()] does not raise: it
    reads the cleared node and returns None, with no validation. *)
Theorem element_of_deleted_position slots L q w e w' :
  delete slots L (OPos q) w = (Ok e, w') ->
  element slots q w' = (Ok PyNone, w').
Proof.
  intros H. unfold delete in H. apply bind_Ok in H as (r & w1 & Hv & Hd).
  apply validate_Ok in Hv as (q' & n & nd & s & [= <-] & Hc & Hn & -> & Ha & Hnd & Hnx & ->).
  pose proof Hd as Hd'.
  apply delete_node_Ok in Hd' as (n' & nd' & p' & s' & d & [= <-] & He & Hp & _
                                  & Hnd' & Hpr & Hnx' & Hpl & Hsl & Hobj).
  erewrite delete_node_run in Hd by eassumption.
  injection Hd as _ <-. unfold element. rewrite Hn.
  rewrite (get_element_run _ _ (mkNode PyNone None None)); [reflexivity|done|].
  simpl. apply unlinked_cleared. by eapply lookup_lt_Some.
Qed.

Lemma element_of_deleted_position_witness :
  let w' := snd (delete init_slots 0 (OPos p3) w_15) in
  delete init_slots 0 (OPos p3) w_15 = (Ok (PyInt 15), w') /\
  element init_slots p3 w' = (Ok PyNone, w').
Proof.
  split; [reflexivity|].
  apply (element_of_deleted_position init_slots 0 p3 w_15 (PyInt 15)).
  reflexivity.
Defined.
End Intended.

(** ** Claims *)

Module Claims.
Import DoublyLinkedBase PositionalList.

(** C1.  In the source [delete(p)] never returns, whatever the list, the
    argument and the store: when [_validate] accepts [p], [_delete_node]
    raises at line 44, where it reads [node._element], an attribute that
    the [__slots__] tuple of the source does not admit.  So there is no
    deleted Position to present again. *)
Theorem delete_never_returns L p w :
  returns (delete Node_slots L p w) = false.
Proof.
  unfold delete. apply returns_bind_r. intros r w1. apply source_delete_node.
Qed.

(** C2.  A Position that list [A] produced is refused by every method of
    another list [B] that takes a Position: [before], [after],
    [add_before], [add_after], [delete] and [replace] raise the ValueError
    of [_validate] for a foreign Position (the InvalidPosition of the
    specification) and leave the store as it is. *)
Theorem foreign_position_rejected slots A B r w0 w0' p w :
  A <> B ->
  _make_position A r w0 = (Ok (Some p), w0') ->
  let err := ValueError "p does not belong to this container." in
  before slots B (OPos p) w = (Raise err, w) /\
  after slots B (OPos p) w = (Raise err, w) /\
  (forall x, add_before slots B (OPos p) x w = (Raise err, w)) /\
  (forall x, add_after slots B (OPos p) x w = (Raise err, w)) /\
  delete slots B (OPos p) w = (Raise err, w) /\
  (forall x, replace slots B (OPos p) x w = (Raise err, w)).
Proof.
  intros Hne Hmk err. apply validate_raises.
  apply make_position_Ok in Hmk as (_ & Hp). rewrite (Hp p eq_refl).
  by apply validate_foreign.
Qed.

Lemma foreign_position_rejected_witness :
  let err := ValueError "p does not belong to this container." in
  0 <> 1 /\
  _make_position 0 (Some 2) w_two = (Ok (Some p1), w_two) /\
  (before init_slots 1 (OPos p1) w_two = (Raise err, w_two) /\
   after init_slots 1 (OPos p1) w_two = (Raise err, w_two) /\
   (forall x, add_before init_slots 1 (OPos p1) x w_two = (Raise err, w_two)) /\
   (forall x, add_after init_slots 1 (OPos p1) x w_two = (Raise err, w_two)) /\
   delete init_slots 1 (OPos p1) w_two = (Raise err, w_two) /\
   (forall x, replace init_slots 1 (OPos p1) x w_two = (Raise err, w_two))).
Proof.
  split; [lia|]. split; [reflexivity|].
  apply (foreign_position_rejected init_slots 0 1 (Some 2) w_two w_two p1 w_two).
  - lia.
  - reflexivity.
Defined.

(** C3.  In the source [add_after(p, e)] never returns a Position,
    whatever the list, the arguments and the store: it raises in
    [_validate], or in [_Node.__init__] at the assignment of
    [self._element], and the store is left as it was. *)
Theorem add_after_never_returns L p e w :
  returns (add_after Node_slots L p e w) = false /\
  snd (add_after Node_slots L p e w) = w.
Proof.
  split.
  - unfold add_after. do 2 (apply returns_bind_r; intros ? ?).
    by rewrite source_insert_between.
  - revert w. apply reads_bind; [apply reads_validate|]. intros r.
    apply reads_bind; [apply reads_node_get|]. intros s w.
    by rewrite source_insert_between.
Qed.

(** C4.  On a deque whose [_size] is 0, [first()], [last()],
    [delete_first()] and [delete_last()] raise NameError, not Empty: the
    name [Empty] in [raise Empty('Deque is empty.')] is bound nowhere in
    the file.  This holds for every [__slots__] declaration, the one of
    the source included. *)
Theorem empty_deque_raises_NameError slots D d w :
  objs w !! D = Some d -> _size d = 0%Z ->
  LinkedDeque.first slots D w = (Raise (NameError "Empty"), w) /\
  LinkedDeque.last slots D w = (Raise (NameError "Empty"), w) /\
  LinkedDeque.delete_first slots D w = (Raise (NameError "Empty"), w) /\
  LinkedDeque.delete_last slots D w = (Raise (NameError "Empty"), w).
Proof.
  intros Hd Hsize.
  assert (is_empty D w = (Ok true, w)) as Hemp.
  { unfold is_empty. rewrite (bind_step _ _ _ _ _ (obj_run _ _ _ Hd)).
    unfold ret. by rewrite Hsize. }
  repeat split.
  - unfold LinkedDeque.first. by rewrite (bind_step _ _ _ _ _ Hemp).
  - unfold LinkedDeque.last. by rewrite (bind_step _ _ _ _ _ Hemp).
  - unfold LinkedDeque.delete_first. by rewrite (bind_step _ _ _ _ _ Hemp).
  - unfold LinkedDeque.delete_last. by rewrite (bind_step _ _ _ _ _ Hemp).
Qed.

Lemma empty_deque_raises_NameError_witness :
  let w := created empty_world in
  objs w !! 0 = Some (mkDLB 0 1 0) /\
  _size (mkDLB 0 1 0) = 0%Z /\
  (LinkedDeque.first Node_slots 0 w = (Raise (NameError "Empty"), w) /\
   LinkedDeque.last Node_slots 0 w = (Raise (NameError "Empty"), w) /\
   LinkedDeque.delete_first Node_slots 0 w = (Raise (NameError "Empty"), w) /\
   LinkedDeque.delete_last Node_slots 0 w = (Raise (NameError "Empty"), w)).
Proof.
  split; [reflexivity|]. split; [reflexivity|].
  apply (empty_deque_raises_NameError Node_slots 0 (mkDLB 0 1 0)
           (created empty_world)); reflexivity.
Defined.

(** C5.  In the source no list starts empty and no add is performed: the
    constructor raises AttributeError on every store, and [add_first] and
    [add_last] never return and leave the store as it was, whatever the
    list, the element and the store. *)
Theorem script_never_starts w L e :
  __init__ Node_slots w = (Raise (AttributeError "_Node" "_element"), w) /\
  returns (add_first Node_slots L e w) = false /\
  snd (add_first Node_slots L e w) = w /\
  returns (add_last Node_slots L e w) = false /\
  snd (add_last Node_slots L e w) = w.
Proof.
  split; [reflexivity|].
  destruct (source_add_first L e w) as (? & ?).
  by destruct (source_add_last L e w) as (? & ?).
Qed.

(** C6.  In the source iteration yields no element: when [__iter__] runs
    to its end, whatever the list and the store, it has yielded nothing,
    because [cursor.element()] raises AttributeError at the first
    Position. *)
Theorem iteration_yields_no_element fuel L w vs :
  __iter__ Node_slots fuel L w = Some (Ok vs) -> vs = [].
Proof.
  unfold __iter__. destruct (first Node_slots L w) as [[c|e|] w1]; [|done..].
  apply source_iter_from.
Qed.

Lemma iteration_yields_no_element_witness :
  __iter__ Node_slots 1 0 (created empty_world) = Some (Ok []) /\
  ([] : list value) = [].
Proof.
  split; [reflexivity|].
  apply (iteration_yields_no_element 1 0 (created empty_world) []).
  reflexivity.
Defined.

(** C7.  In the source [add_last(e)] never returns, whatever the list,
    the element and the store: [_Node.__init__] raises AttributeError, no
    Position is handed out, and the store (with it [len]) stays as it
    was.  There is no round trip to make. *)
Theorem add_last_never_returns L e w :
  returns (add_last Node_slots L e w) = false /\
  snd (add_last Node_slots L e w) = w /\
  __len__ L (snd (add_last Node_slots L e w)) = __len__ L w.
Proof.
  destruct (source_add_last L e w) as (Hr & Hs).
  split; [done|]. split; [done|]. by rewrite Hs.
Qed.



(** C9.  With the [__slots__] tuple of the source, [_Node.__init__]
    raises AttributeError at its first assignment ([self._element]), so
    [_insert_between] raises for every element and every pair of nodes,
    before it links anything or counts; the constructor of the list, which
    allocates the two sentinels, raises in the same way. *)
Theorem insert_between_raises L e predecessor successor w :
  DoublyLinkedBase._insert_between Node_slots L e predecessor successor w
  = (Raise (AttributeError "_Node" "_element"), w) /\
  __init__ Node_slots w = (Raise (AttributeError "_Node" "_element"), w).
Proof. split; reflexivity. Qed.

(** C10.  In the source [p.element()] raises AttributeError for every
    Position and every store: the attribute [_element] it reads is not
    admitted by the [__slots__] tuple.  It never returns None. *)
Theorem element_always_raises p w :
  exists cls,
    element Node_slots p w = (Raise (AttributeError cls "_element"), w).
Proof.
  unfold element, get_element, node_get.
  destruct (_node p) as [l|]; [by exists "_Node"|by exists "NoneType"].
Qed.

End Claims.

(** ** Laws of the classes under a declaration that admits [_element]

    As in [Intended]: the laws of [ListLaws], [NavigationLaws],
    [DequeLaws], [CallLaws], [PqSortLaws] and the first of [FailureLaws]
    assume a list of a well-formed store or a call that returned, which
    the tuple of the source excludes.  The laws numbered X11, X18 and
    X27 have no such hypothesis and hold of the source as well. *)

Module ListLaws.
Import DoublyLinkedBase.

(** [add_first(e)] on a list of a well-formed store returns a
    Position [q] that is then [first()], holds [e] and has no Position
    before it; iteration yields [e] followed by what it yielded before, and
    [len] has grown by one. *)
Theorem add_first_prepends slots w G L d e fuel vs :
  wf slots w G -> objs w !! L = Some d ->
  PositionalList.__iter__ slots fuel L w = Some (Ok vs) ->
  exists q w',
    PositionalList.add_first slots L e w = (Ok (Some q), w') /\
    PositionalList.__iter__ slots (S fuel) L w' = Some (Ok (e :: vs)) /\
    PositionalList.first slots L w' = (Ok (Some q), w') /\
    PositionalList.element slots q w' = (Ok e, w') /\
    PositionalList.before slots L (OPos q) w' = (Ok None, w') /\
    __len__ L w' = (Ok (_size d + 1)%Z, w').
Proof.
  intros Hwf Hd Hit.
  pose proof (wf_admits_obj _ _ _ _ _ Hwf Hd) as Hadm.
  destruct (wf_list_at _ _ _ _ _ Hwf Hd) as (ns & Hns & Hok).
  destruct (iter_known slots w L d ns fuel vs Hadm Hd Hok Hit) as (-> & Hfuel).
  destruct (add_first_wf slots w G L d ns e Hwf Hd Hns) as (s & ys & H2 & Hadd & _).
  destruct (inserted_list slots w G L d [] ns [] (_header d) s ys e Hwf Hd Hns eq_refl H2)
    as (Hwf' & Hd' & Hok' & Hel).
  cbv zeta in Hwf', Hd', Hok', Hel. rewrite app_nil_l in Hok', Hel.
  destruct (iter_run slots _ L _ _ (S fuel) Hadm Hd' Hok') as (Hit' & _ & _);
    [simpl; lia|].
  do 2 eexists. split; [exact Hadd|]. split; [by rewrite Hit', Hel|].
  split; [by rewrite (first_exact slots _ L _ _ Hadm Hd' Hok')|].
  split.
  - destruct (element_exact slots _ L _ _ (length (nodes w)) Hadm Hok')
      as (nd & Hnd & Hget); [by left|].
    unfold pos in Hget. rewrite Hget. do 2 f_equal.
    unfold elements in Hel. cbn [map app] in Hel. rewrite Hnd in Hel.
    by injection Hel.
  - split; [apply (before_exact slots _ L _ [] _ ns Hadm Hd' Hok')|].
    destruct (len_exact _ L _ _ Hd' Hok') as (Hlen & _). rewrite Hlen.
    destruct Hok as [_ _ _ _ Hs]. rewrite Hs. do 2 f_equal. simpl length. lia.
Qed.


Lemma add_first_prepends_witness :
  wf init_slots w_15 G_15 /\ objs w_15 !! 0 = Some (mkDLB 0 1 3) /\
  PositionalList.__iter__ init_slots 3 0 w_15
  = Some (Ok [PyInt 10; PyInt 15; PyInt 20]) /\
  exists q w',
    PositionalList.add_first init_slots 0 (PyInt 5) w_15 = (Ok (Some q), w') /\
    PositionalList.__iter__ init_slots 4 0 w'
    = Some (Ok [PyInt 5; PyInt 10; PyInt 15; PyInt 20]) /\
    PositionalList.first init_slots 0 w' = (Ok (Some q), w') /\
    PositionalList.element init_slots q w' = (Ok (PyInt 5), w') /\
    PositionalList.before init_slots 0 (OPos q) w' = (Ok None, w') /\
    __len__ 0 w' = (Ok 4%Z, w').
Proof.
  split; [apply wf_w_15|]. split; [reflexivity|]. split; [reflexivity|].
  apply (add_first_prepends init_slots w_15 G_15 0 (mkDLB 0 1 3) (PyInt 5) 3
           [PyInt 10; PyInt 15; PyInt 20] wf_w_15); reflexivity.
Defined.

(** [add_last(e)] returns a Position [q] that is then [last()],
    holds [e] and has no Position after it; iteration yields what it
    yielded before, followed by [e]. *)
Theorem add_last_appends slots w G L d e fuel vs :
  wf slots w G -> objs w !! L = Some d ->
  PositionalList.__iter__ slots fuel L w = Some (Ok vs) ->
  exists q w',
    PositionalList.add_last slots L e w = (Ok (Some q), w') /\
    PositionalList.__iter__ slots (S fuel) L w' = Some (Ok (vs ++ [e])) /\
    PositionalList.last slots L w' = (Ok (Some q), w') /\
    PositionalList.element slots q w' = (Ok e, w') /\
    PositionalList.after slots L (OPos q) w' = (Ok None, w') /\
    __len__ L w' = (Ok (_size d + 1)%Z, w').
Proof.
  intros Hwf Hd Hit.
  pose proof (wf_admits_obj _ _ _ _ _ Hwf Hd) as Hadm.
  destruct (wf_list_at _ _ _ _ _ Hwf Hd) as (ns & Hns & Hok).
  destruct (iter_known slots w L d ns fuel vs Hadm Hd Hok Hit) as (-> & Hfuel).
  destruct (add_last_wf slots w G L d ns e Hwf Hd Hns) as (xs & p & H1 & Hadd & _).
  pose proof Hns as Hns0. rewrite <- (app_nil_r ns) in Hns0.
  destruct (inserted_list slots w G L d ns [] xs p (_trailer d) [] e Hwf Hd Hns0 H1 eq_refl)
    as (Hwf' & Hd' & Hok' & Hel).
  cbv zeta in Hwf', Hd', Hok', Hel.
  destruct (iter_run slots _ L _ _ (S fuel) Hadm Hd' Hok') as (Hit' & _ & _).
  { rewrite length_app. simpl. lia. }
  do 2 eexists. split; [exact Hadd|]. split; [by rewrite Hit', Hel|].
  split.
  { rewrite (last_exact slots _ L _ _ Hadm Hd' Hok').
    by rewrite (last_snoc (length (nodes w)) ns). }
  split.
  - destruct (element_exact slots _ L _ _ (length (nodes w)) Hadm Hok')
      as (nd & Hnd & Hget); [set_solver|].
    unfold pos in Hget. rewrite Hget. do 2 f_equal.
    rewrite elements_app in Hel. apply app_inj_1 in Hel as (_ & Hel);
      [|by rewrite !elements_length].
    unfold elements in Hel. cbn [map] in Hel. rewrite Hnd in Hel.
    by injection Hel.
  - split; [apply (after_exact slots _ L _ ns _ [] Hadm Hd' Hok')|].
    destruct (len_exact _ L _ _ Hd' Hok') as (Hlen & _). rewrite Hlen.
    destruct Hok as [_ _ _ _ Hs]. rewrite Hs. do 2 f_equal.
    rewrite length_app. simpl. lia.
Qed.

Lemma add_last_appends_witness :
  wf init_slots w_15 G_15 /\ objs w_15 !! 0 = Some (mkDLB 0 1 3) /\
  PositionalList.__iter__ init_slots 3 0 w_15
  = Some (Ok [PyInt 10; PyInt 15; PyInt 20]) /\
  exists q w',
    PositionalList.add_last init_slots 0 (PyInt 25) w_15 = (Ok (Some q), w') /\
    PositionalList.__iter__ init_slots 4 0 w'
    = Some (Ok [PyInt 10; PyInt 15; PyInt 20; PyInt 25]) /\
    PositionalList.last init_slots 0 w' = (Ok (Some q), w') /\
    PositionalList.element init_slots q w' = (Ok (PyInt 25), w') /\
    PositionalList.after init_slots 0 (OPos q) w' = (Ok None, w') /\
    __len__ 0 w' = (Ok 4%Z, w').
Proof.
  split; [apply wf_w_15|]. split; [reflexivity|]. split; [reflexivity|].
  apply (add_last_appends init_slots w_15 G_15 0 (mkDLB 0 1 3) (PyInt 25) 3
           [PyInt 10; PyInt 15; PyInt 20] wf_w_15); reflexivity.
Defined.

(** [add_before(p, e)] for a Position [p] of the chain of [after]
    calls returns a Position [q] that sits in the chain immediately before
    [p]: [after(q)] is [p], [before(p)] is [q], and iteration yields [e]
    at the index [p] had, with every other element in its former order. *)
Theorem add_before_inserts slots w G L d p e fuel ps1 ps2 vs :
  wf slots w G -> objs w !! L = Some d ->
  after_chain slots fuel L w = Some (Ok (ps1 ++ p :: ps2)) ->
  PositionalList.__iter__ slots fuel L w = Some (Ok vs) ->
  exists q w',
    PositionalList.add_before slots L (OPos p) e w = (Ok (Some q), w') /\
    after_chain slots (S fuel) L w' = Some (Ok (ps1 ++ q :: p :: ps2)) /\
    PositionalList.__iter__ slots (S fuel) L w'
    = Some (Ok (take (length ps1) vs ++ e :: drop (length ps1) vs)) /\
    PositionalList.after slots L (OPos q) w' = (Ok (Some p), w') /\
    PositionalList.before slots L (OPos p) w' = (Ok (Some q), w').
Proof.
  intros Hwf Hd Hch Hit.
  destruct (chain_known_at slots w G L d fuel ps1 p ps2 Hwf Hd Hch)
    as (l1 & n & l2 & Hns & Hok & -> & -> & -> & Hfuel & Hadm).
  destruct (iter_known slots w L d _ fuel vs Hadm Hd Hok Hit) as (-> & _).
  destruct (chain_at _ _ _ _ _ Hok) as (xs & p0 & s & ys & nd & H1 & H2 & _).
  destruct (add_before_wf slots w G L d l1 n l2 xs p0 e Hwf Hd Hns H1) as (Hadd & _).
  destruct (inserted_list slots w G L d l1 (n :: l2) xs p0 n (l2 ++ [_trailer d]) e
              Hwf Hd Hns H1 eq_refl) as (Hwf' & Hd' & Hok' & Hel).
  cbv zeta in Hwf', Hd', Hok', Hel.
  destruct (iter_run slots _ L _ _ (S fuel) Hadm Hd' Hok') as (Hit' & Hch' & _).
  { rewrite length_app in *. simpl in *. lia. }
  do 2 eexists. split; [exact Hadd|]. split; [by rewrite Hch', map_app|].
  split.
  { rewrite Hit', Hel, elements_app, length_map.
    rewrite take_app_length', drop_app_length' by (by rewrite elements_length).
    done. }
  split; [apply (after_exact slots _ L _ l1 _ (n :: l2) Hadm Hd' Hok')|].
  rewrite (cons_middle (length (nodes w))), app_assoc in Hok'.
  rewrite (before_exact slots _ L _ _ n l2 Hadm Hd' Hok'). by rewrite last_snoc.
Qed.

Lemma add_before_inserts_witness :
  wf init_slots w_15 G_15 /\ objs w_15 !! 0 = Some (mkDLB 0 1 3) /\
  after_chain init_slots 3 0 w_15 = Some (Ok ([p1] ++ p3 :: [p2])) /\
  PositionalList.__iter__ init_slots 3 0 w_15
  = Some (Ok [PyInt 10; PyInt 15; PyInt 20]) /\
  exists q w',
    PositionalList.add_before init_slots 0 (OPos p3) (PyInt 12) w_15
    = (Ok (Some q), w') /\
    after_chain init_slots 4 0 w' = Some (Ok ([p1] ++ q :: p3 :: [p2])) /\
    PositionalList.__iter__ init_slots 4 0 w'
    = Some (Ok [PyInt 10; PyInt 12; PyInt 15; PyInt 20]) /\
    PositionalList.after init_slots 0 (OPos q) w' = (Ok (Some p3), w') /\
    PositionalList.before init_slots 0 (OPos p3) w' = (Ok (Some q), w').
Proof.
  split; [apply wf_w_15|]. do 3 (split; [reflexivity|]).
  apply (add_before_inserts init_slots w_15 G_15 0 (mkDLB 0 1 3) p3 (PyInt 12) 3
           [p1] [p2] [PyInt 10; PyInt 15; PyInt 20] wf_w_15); reflexivity.
Defined.

(** [add_after(p, e)] returns a Position [q] that sits in the chain
    immediately after [p]: [before(q)] is [p], [after(p)] is [q], and
    iteration yields [e] right after the element of [p]. *)
Theorem add_after_inserts slots w G L d p e fuel ps1 ps2 vs :
  wf slots w G -> objs w !! L = Some d ->
  after_chain slots fuel L w = Some (Ok (ps1 ++ p :: ps2)) ->
  PositionalList.__iter__ slots fuel L w = Some (Ok vs) ->
  exists q w',
    PositionalList.add_after slots L (OPos p) e w = (Ok (Some q), w') /\
    after_chain slots (S fuel) L w' = Some (Ok (ps1 ++ p :: q :: ps2)) /\
    PositionalList.__iter__ slots (S fuel) L w'
    = Some (Ok (take (S (length ps1)) vs ++ e :: drop (S (length ps1)) vs)) /\
    PositionalList.before slots L (OPos q) w' = (Ok (Some p), w') /\
    PositionalList.after slots L (OPos p) w' = (Ok (Some q), w').
Proof.
  intros Hwf Hd Hch Hit.
  destruct (chain_known_at slots w G L d fuel ps1 p ps2 Hwf Hd Hch)
    as (l1 & n & l2 & Hns & Hok & -> & -> & -> & Hfuel & Hadm).
  destruct (iter_known slots w L d _ fuel vs Hadm Hd Hok Hit) as (-> & _).
  destruct (chain_at _ _ _ _ _ Hok) as (xs & p0 & s & ys & nd & H1 & H2 & _).
  destruct (add_after_wf slots w G L d l1 n l2 s ys e Hwf Hd Hns H2) as (Hadd & _).
  pose proof Hns as Hns0. rewrite (cons_middle n), app_assoc in Hns0.
  destruct (inserted_list slots w G L d (l1 ++ [n]) l2 (_header d :: l1) n s ys e
              Hwf Hd Hns0 eq_refl H2) as (Hwf' & Hd' & Hok' & Hel).
  cbv zeta in Hwf', Hd', Hok', Hel.
  destruct (iter_run slots _ L _ _ (S fuel) Hadm Hd' Hok') as (Hit' & Hch' & _).
  { rewrite !length_app in *. simpl in *. lia. }
  do 2 eexists. split; [exact Hadd|]. split.
  { rewrite Hch', !map_app. simpl. by rewrite <- app_assoc. }
  split.
  { rewrite Hit', Hel, length_map.
    rewrite (cons_middle n l1 l2), app_assoc, !elements_app.
    rewrite take_app_length', drop_app_length';
      by rewrite ?length_app, ?elements_length, ?Nat.add_1_r. }
  split.
  - pose proof (before_exact slots _ L _ _ _ l2 Hadm Hd' Hok') as Hb.
    rewrite last_snoc in Hb. exact Hb.
  - rewrite <- app_assoc in Hok'. simpl in Hok'.
    apply (after_exact slots _ L _ l1 n (_ :: l2) Hadm Hd' Hok').
Qed.

Lemma add_after_inserts_witness :
  wf init_slots w_15 G_15 /\ objs w_15 !! 0 = Some (mkDLB 0 1 3) /\
  after_chain init_slots 3 0 w_15 = Some (Ok ([p1] ++ p3 :: [p2])) /\
  PositionalList.__iter__ init_slots 3 0 w_15
  = Some (Ok [PyInt 10; PyInt 15; PyInt 20]) /\
  exists q w',
    PositionalList.add_after init_slots 0 (OPos p3) (PyInt 17) w_15
    = (Ok (Some q), w') /\
    after_chain init_slots 4 0 w' = Some (Ok ([p1] ++ p3 :: q :: [p2])) /\
    PositionalList.__iter__ init_slots 4 0 w'
    = Some (Ok [PyInt 10; PyInt 15; PyInt 17; PyInt 20]) /\
    PositionalList.before init_slots 0 (OPos q) w' = (Ok (Some p3), w') /\
    PositionalList.after init_slots 0 (OPos p3) w' = (Ok (Some q), w').
Proof.
  split; [apply wf_w_15|]. do 3 (split; [reflexivity|]).
  apply (add_after_inserts init_slots w_15 G_15 0 (mkDLB 0 1 3) p3 (PyInt 17) 3
           [p1] [p2] [PyInt 10; PyInt 15; PyInt 20] wf_w_15); reflexivity.
Defined.

(** [delete(p)] for a Position [p] of the chain returns the element
    that iteration yielded at the index of [p], and takes exactly [p] out:
    the chain and the iteration keep every other entry, in order, and [len]
    drops by one. *)
Theorem delete_removes_position slots w G L d p fuel ps1 ps2 vs :
  wf slots w G -> objs w !! L = Some d ->
  after_chain slots fuel L w = Some (Ok (ps1 ++ p :: ps2)) ->
  PositionalList.__iter__ slots fuel L w = Some (Ok vs) ->
  exists e w',
    PositionalList.delete slots L (OPos p) w = (Ok e, w') /\
    vs !! length ps1 = Some e /\
    after_chain slots fuel L w' = Some (Ok (ps1 ++ ps2)) /\
    PositionalList.__iter__ slots fuel L w'
    = Some (Ok (take (length ps1) vs ++ drop (S (length ps1)) vs)) /\
    __len__ L w' = (Ok (_size d - 1)%Z, w').
Proof.
  intros Hwf Hd Hch Hit.
  destruct (chain_known_at slots w G L d fuel ps1 p ps2 Hwf Hd Hch)
    as (l1 & n & l2 & Hns & Hok & -> & -> & -> & Hfuel & Hadm).
  destruct (iter_known slots w L d _ fuel vs Hadm Hd Hok Hit) as (-> & _).
  destruct (chain_at _ _ _ _ _ Hok)
    as (xs & p0 & s & ys & nd & H1 & H2 & Hnd & Hpr & Hnx & _).
  destruct (delete_wf slots w G L d l1 n l2 xs p0 s ys nd Hwf Hd Hns H1 H2 Hnd Hpr Hnx)
    as (Hdel & _).
  destruct (removed_list slots w G L d l1 n l2 xs p0 s ys Hwf Hd Hns H1 H2)
    as (Hwf' & Hd' & Hok' & Hel).
  cbv zeta in Hwf', Hd', Hok', Hel.
  destruct (iter_run slots _ L _ _ fuel Hadm Hd' Hok') as (Hit' & Hch' & _).
  { rewrite !length_app in *. simpl in *. lia. }
  do 2 eexists. split; [exact Hdel|]. split.
  { rewrite length_map. eapply elements_lookup; [|done]. by apply list_lookup_middle. }
  split; [by rewrite Hch', map_app|]. split.
  { rewrite Hit', Hel, length_map, !elements_app.
    rewrite take_app_length' by (by rewrite elements_length).
    change (elements (nodes w) (n :: l2))
      with ([default PyNone (_element <$> nodes w !! n)] ++ elements (nodes w) l2).
    rewrite app_assoc.
    rewrite (drop_app_length' _ _ (S (length l1)));
      [done|by rewrite length_app, elements_length, Nat.add_1_r]. }
  destruct (len_exact _ L _ _ Hd' Hok') as (Hlen & _). rewrite Hlen.
  destruct Hok as [_ _ _ _ Hs]. rewrite Hs. do 2 f_equal.
  rewrite !length_app. simpl. lia.
Qed.

Lemma delete_removes_position_witness :
  wf init_slots w_15 G_15 /\ objs w_15 !! 0 = Some (mkDLB 0 1 3) /\
  after_chain init_slots 3 0 w_15 = Some (Ok ([p1] ++ p3 :: [p2])) /\
  PositionalList.__iter__ init_slots 3 0 w_15
  = Some (Ok [PyInt 10; PyInt 15; PyInt 20]) /\
  exists e w',
    PositionalList.delete init_slots 0 (OPos p3) w_15 = (Ok e, w') /\
    [PyInt 10; PyInt 15; PyInt 20] !! 1 = Some e /\
    after_chain init_slots 3 0 w' = Some (Ok ([p1] ++ [p2])) /\
    PositionalList.__iter__ init_slots 3 0 w' = Some (Ok [PyInt 10; PyInt 20]) /\
    __len__ 0 w' = (Ok 2%Z, w').
Proof.
  split; [apply wf_w_15|]. do 3 (split; [reflexivity|]).
  apply (delete_removes_position init_slots w_15 G_15 0 (mkDLB 0 1 3) p3 3
           [p1] [p2] [PyInt 10; PyInt 15; PyInt 20] wf_w_15); reflexivity.
Defined.

(** [replace(p, e)] for a Position [p] of the chain returns the
    element that iteration yielded at the index of [p] and stores [e]
    there: [p.element()] is then [e], the chain of Positions and [len] are
    as before, and iteration differs only at that index. *)
Theorem replace_swaps_element slots w G L d p e fuel ps1 ps2 vs :
  wf slots w G -> objs w !! L = Some d ->
  after_chain slots fuel L w = Some (Ok (ps1 ++ p :: ps2)) ->
  PositionalList.__iter__ slots fuel L w = Some (Ok vs) ->
  exists old w',
    PositionalList.replace slots L (OPos p) e w = (Ok old, w') /\
    vs !! length ps1 = Some old /\
    PositionalList.element slots p w' = (Ok e, w') /\
    after_chain slots fuel L w' = Some (Ok (ps1 ++ p :: ps2)) /\
    PositionalList.__iter__ slots fuel L w'
    = Some (Ok (<[length ps1 := e]> vs)) /\
    __len__ L w' = (Ok (_size d), w').
Proof.
  intros Hwf Hd Hch Hit.
  destruct (chain_known_at slots w G L d fuel ps1 p ps2 Hwf Hd Hch)
    as (l1 & n & l2 & Hns & Hok & -> & -> & -> & Hfuel & Hadm).
  destruct (iter_known slots w L d _ fuel vs Hadm Hd Hok Hit) as (-> & _).
  destruct (chain_at _ _ _ _ _ Hok)
    as (xs & p0 & s & ys & nd & H1 & H2 & Hnd & Hpr & Hnx & _).
  pose proof (replace_run slots w L d l1 n l2 e nd Hadm Hd Hok Hnd) as Hrep.
  pose proof (wf_element slots w G n e Hwf) as Hwf'.
  set (w' := mkWorld (alter (with_element e) n (nodes w)) (objs w)) in *.
  assert (objs w' !! L = Some d) as Hd' by done.
  pose proof (wf_list _ _ _ Hwf' _ _ _ Hd' Hns) as Hok'.
  destruct (iter_run slots _ L _ _ fuel Hadm Hd' Hok') as (Hit' & Hch' & _); [done|].
  assert (n < length (nodes w)) as Hlt by (by eapply lookup_lt_Some).
  pose proof (list_ok_nodup _ _ _ Hok) as Hnodup.
  apply NoDup_app in Hnodup as (_ & Hl1 & Hl2).
  apply NoDup_cons in Hl2 as (Hl2 & _).
  assert (n ∉ l1) as Hn1 by (intros Hin; apply (Hl1 _ Hin); by left).
  exists (_element nd), w'. split; [exact Hrep|]. split.
  { rewrite length_map. eapply elements_lookup; [|done]. by apply list_lookup_middle. }
  split.
  { unfold PositionalList.element. cbn [_node pos].
    destruct Hadm as (He & _).
    erewrite get_element_run; [|done|].
    2: { simpl. rewrite list_lookup_alter_eq, Hnd. done. }
    done. }
  split; [by rewrite Hch', map_app|]. split.
  { rewrite Hit'. simpl nodes. rewrite elements_replaced by done.
    rewrite length_map, elements_app.
    replace (length l1) with (length (elements (nodes w) l1) + 0)
      by (rewrite elements_length; lia).
    by rewrite insert_app_r. }
  destruct (len_exact _ L _ _ Hd' Hok') as (Hlen & _). rewrite Hlen.
  destruct Hok as [_ _ _ _ Hs]. by rewrite Hs.
Qed.

Lemma replace_swaps_element_witness :
  wf init_slots w_15 G_15 /\ objs w_15 !! 0 = Some (mkDLB 0 1 3) /\
  after_chain init_slots 3 0 w_15 = Some (Ok ([p1] ++ p3 :: [p2])) /\
  PositionalList.__iter__ init_slots 3 0 w_15
  = Some (Ok [PyInt 10; PyInt 15; PyInt 20]) /\
  exists old w',
    PositionalList.replace init_slots 0 (OPos p3) (PyStr "x") w_15 = (Ok old, w') /\
    [PyInt 10; PyInt 15; PyInt 20] !! 1 = Some old /\
    PositionalList.element init_slots p3 w' = (Ok (PyStr "x"), w') /\
    after_chain init_slots 3 0 w' = Some (Ok ([p1] ++ p3 :: [p2])) /\
    PositionalList.__iter__ init_slots 3 0 w'
    = Some (Ok [PyInt 10; PyStr "x"; PyInt 20]) /\
    __len__ 0 w' = (Ok 3%Z, w').
Proof.
  split; [apply wf_w_15|]. do 3 (split; [reflexivity|]).
  apply (replace_swaps_element init_slots w_15 G_15 0 (mkDLB 0 1 3) p3 (PyStr "x") 3
           [p1] [p2] [PyInt 10; PyInt 15; PyInt 20] wf_w_15); reflexivity.
Defined.

End ListLaws.

Module NavigationLaws.
Import DoublyLinkedBase.

(** Along the chain [ps] of [after] calls from [first()]: [last()]
    is the end of the chain, [before] is the inverse of [after] (the
    Position before the [i+1]-th is the [i]-th, and there is none before the
    first nor after the last), and [is_empty()] is True exactly when the
    chain has no Position. *)
Theorem navigation_follows_chain slots w G L d fuel ps :
  wf slots w G -> objs w !! L = Some d ->
  after_chain slots fuel L w = Some (Ok ps) ->
  PositionalList.first slots L w = (Ok (head ps), w) /\
  PositionalList.last slots L w = (Ok (list.last ps), w) /\
  is_empty L w = (Ok (bool_decide (ps = [])), w) /\
  forall i p, ps !! i = Some p ->
    PositionalList.after slots L (OPos p) w = (Ok (ps !! S i), w) /\
    PositionalList.before slots L (OPos p) w
    = (Ok (match i with O => None | S j => ps !! j end), w).
Proof.
  intros Hwf Hd Hch.
  destruct (chain_known slots w G L d fuel ps Hwf Hd Hch)
    as (ns & Hns & Hok & -> & Hfuel & Hadm).
  change (map (pos L) ns) with (pos L <$> ns).
  split; [rewrite head_fmap; by eapply first_exact|].
  split; [rewrite fmap_last; by eapply last_exact|].
  split.
  { destruct (len_exact _ L _ _ Hd Hok) as (_ & ->). by destruct ns. }
  intros i p Hi. rewrite list_lookup_fmap in Hi.
  destruct (ns !! i) as [n|] eqn:Hn; [|done]. injection Hi as <-.
  pose proof (lookup_lt_Some _ _ _ Hn) as Hlt.
  rewrite <- (take_drop_middle _ _ _ Hn) in Hok. split.
  - rewrite (after_exact slots w L d _ _ _ Hadm Hd Hok).
    by rewrite head_drop, list_lookup_fmap.
  - rewrite (before_exact slots w L d _ _ _ Hadm Hd Hok).
    destruct i as [|j]; [done|].
    rewrite last_take by lia. by rewrite list_lookup_fmap.
Qed.

Lemma navigation_follows_chain_witness :
  wf init_slots w_15 G_15 /\ objs w_15 !! 0 = Some (mkDLB 0 1 3) /\
  after_chain init_slots 3 0 w_15 = Some (Ok [p1; p3; p2]) /\
  (PositionalList.first init_slots 0 w_15 = (Ok (Some p1), w_15) /\
   PositionalList.last init_slots 0 w_15 = (Ok (Some p2), w_15) /\
   is_empty 0 w_15 = (Ok false, w_15) /\
   forall i p, [p1; p3; p2] !! i = Some p ->
     PositionalList.after init_slots 0 (OPos p) w_15 = (Ok ([p1; p3; p2] !! S i), w_15) /\
     PositionalList.before init_slots 0 (OPos p) w_15
     = (Ok (match i with O => None | S j => [p1; p3; p2] !! j end), w_15)).
Proof.
  split; [apply wf_w_15|]. do 2 (split; [reflexivity|]).
  apply (navigation_follows_chain init_slots w_15 G_15 0 (mkDLB 0 1 3) 3
           [p1; p3; p2] wf_w_15); reflexivity.
Defined.

(** A Position that list [L] handed out is valid exactly while it is
    on the chain of [after] calls from [first()]: on the chain, [_validate]
    returns its node; off the chain (the node was deleted), [_validate]
    raises the ValueError for a deprecated node. *)
Theorem valid_iff_on_chain slots w G L d fuel ps q :
  wf slots w G -> objs w !! L = Some d ->
  after_chain slots fuel L w = Some (Ok ps) ->
  genuine G q -> _container q = L ->
  (q ∈ ps ->
   PositionalList._validate slots L (OPos q) w = (Ok (_node q), w)) /\
  (q ∉ ps ->
   PositionalList._validate slots L (OPos q) w
   = (Raise (ValueError "p is no longer valid."), w)).
Proof.
  intros Hwf Hd Hch (n & Hq & Ho) Hc.
  destruct (chain_known slots w G L d fuel ps Hwf Hd Hch)
    as (ns & Hns & Hok & -> & Hfuel & Hadm).
  assert (q = pos L n) as -> by (destruct q; simpl in *; by subst).
  change (map (pos L) ns) with (pos L <$> ns). split.
  - intros Hin. apply (@list_elem_of_fmap_inj_2 _ _ (pos L) (pos_inj L)) in Hin.
    apply list_elem_of_split in Hin as (l1 & l2 & ->).
    by eapply validate_exact.
  - intros Hnin. simpl in Ho.
    destruct (wf_dead _ _ _ Hwf _ _ Ho) as (ns' & Hns' & [Hin|Hnone]).
    + assert (ns' = ns) as -> by congruence.
      destruct Hnin. by apply list_elem_of_fmap_2.
    + apply nxt_lookup in Hnone as (nd & Hnd & Hnx).
      destruct Hadm as (_ & _ & Hn). by eapply validate_deprecated.
Qed.

Lemma valid_iff_on_chain_witness :
  let w' := snd (PositionalList.delete init_slots 0 (OPos p3) w_15) in
  let G' := ghost_removed 0 [2] [3] G_15 in
  wf init_slots w' G' /\ objs w' !! 0 = Some (mkDLB 0 1 2) /\
  after_chain init_slots 2 0 w' = Some (Ok [p1; p2]) /\
  genuine G' p3 /\ _container p3 = 0 /\
  ((p3 ∈ [p1; p2] ->
    PositionalList._validate init_slots 0 (OPos p3) w' = (Ok (_node p3), w')) /\
   (p3 ∉ [p1; p2] ->
    PositionalList._validate init_slots 0 (OPos p3) w'
    = (Raise (ValueError "p is no longer valid."), w'))).
Proof.
  assert (wf init_slots (snd (PositionalList.delete init_slots 0 (OPos p3) w_15))
            (ghost_removed 0 [2] [3] G_15)) as Hwf.
  { apply (wf_delete init_slots w_15 G_15 0 (mkDLB 0 1 3) [2] 4 [3] [0] 2 3 [1]);
      [apply wf_w_15|reflexivity..]. }
  assert (genuine (ghost_removed 0 [2] [3] G_15) p3) as Hg
    by (exists 4; split; reflexivity).
  split; [exact Hwf|]. do 2 (split; [reflexivity|]). split; [exact Hg|].
  split; [reflexivity|].
  apply (valid_iff_on_chain init_slots _ _ 0 (mkDLB 0 1 2) 2 [p1; p2] p3 Hwf);
    [reflexivity|reflexivity|exact Hg|reflexivity].
Defined.

(** Deleting a Position leaves every other Position as it was: a
    Position [q] on another node that passed [_validate] before
    [delete(p)] passes it afterwards, and [q.element()] returns what it
    returned before. *)
Theorem delete_keeps_other_positions slots L p e w w' L' q r :
  PositionalList.delete slots L (OPos p) w = (Ok e, w') ->
  _node q <> _node p ->
  PositionalList._validate slots L' (OPos q) w = (Ok r, w) ->
  PositionalList._validate slots L' (OPos q) w' = (Ok r, w') /\
  PositionalList.element slots q w'
  = (fst (PositionalList.element slots q w), w').
Proof.
  intros H Hne Hq. unfold PositionalList.delete in H.
  apply bind_Ok in H as (r0 & w1 & Hv & Hd).
  apply validate_Ok in Hv
    as (p' & n & nd & s & [= <-] & Hc & Hn & -> & Ha & Hnd & Hnx & ->).
  pose proof Hd as Hd'.
  apply delete_node_Ok in Hd' as (n' & nd' & p0 & s' & d & [= <-] & He & Hp & _
                                  & Hnd' & Hpr & Hnx' & Hpl & Hsl & Hobj).
  erewrite delete_node_run in Hd by eassumption.
  injection Hd as _ <-.
  apply validate_Ok in Hq
    as (q' & m & ndm & sm & [= <-] & Hcq & Hm & -> & _ & Hndm & Hnxm & _).
  assert (n <> m) as Hnm by congruence.
  pose proof (lookup_lt_Some _ _ _ Hndm) as Hlt.
  pose proof (nxt_unlinked n p0 s' (nodes w) m Hlt) as Hnxt.
  rewrite decide_False in Hnxt by done.
  assert (exists x, nxt (unlinked n p0 s' (nodes w)) m = Some (Some x)) as (x & Hx).
  { rewrite Hnxt. case_decide; [by eexists|].
    unfold nxt. rewrite Hndm. simpl. rewrite Hnxm. by eexists. }
  apply nxt_lookup in Hx as (ndm' & Hndm' & Hnxm').
  split; [by eapply validate_run|].
  unfold PositionalList.element. rewrite Hm.
  rewrite (get_element_run _ _ _ _ He Hndm).
  rewrite (get_element_run slots m ndm' (removed L n p0 s' w) He Hndm').
  simpl. do 2 f_equal.
  assert (_element <$> unlinked n p0 s' (nodes w) !! m = _element <$> nodes w !! m)
    as Hel.
  { unfold unlinked. rewrite element_alter_element, decide_False by done.
    by rewrite element_alter_next, !element_alter_prev, element_alter_next. }
  simpl in Hndm'. rewrite Hndm', Hndm in Hel. by injection Hel.
Qed.

Lemma delete_keeps_other_positions_witness :
  let w' := snd (PositionalList.delete init_slots 0 (OPos p3) w_15) in
  PositionalList.delete init_slots 0 (OPos p3) w_15 = (Ok (PyInt 15), w') /\
  _node p1 <> _node p3 /\
  PositionalList._validate init_slots 0 (OPos p1) w_15 = (Ok (Some 2), w_15) /\
  PositionalList._validate init_slots 0 (OPos p1) w' = (Ok (Some 2), w') /\
  PositionalList.element init_slots p1 w' = (Ok (PyInt 10), w').
Proof.
  split; [reflexivity|]. split; [discriminate|]. split; [reflexivity|].
  apply (delete_keeps_other_positions init_slots 0 p3 (PyInt 15) w_15 _ 0 p1 (Some 2));
    [reflexivity|discriminate|reflexivity].
Defined.

(** When the constructor returns on a well-formed store, the list
    it returns is a new one, the store is again well formed, and the list is
    empty: [len] is 0, [is_empty()] is True, [first()] and [last()] return
    None, and iteration yields nothing. *)
Theorem new_list_is_empty slots w G L w' fuel :
  wf slots w G -> __init__ slots w = (Ok L, w') ->
  objs w !! L = None /\
  (exists G', wf slots w' G' /\ extends G G') /\
  __len__ L w' = (Ok 0%Z, w') /\
  is_empty L w' = (Ok true, w') /\
  PositionalList.first slots L w' = (Ok None, w') /\
  PositionalList.last slots L w' = (Ok None, w') /\
  PositionalList.__iter__ slots fuel L w' = Some (Ok []).
Proof.
  intros Hwf Hinit.
  pose proof (init_Ok _ _ _ _ Hinit) as Hadm.
  rewrite (init_run _ _ Hadm) in Hinit. injection Hinit as <- <-.
  pose proof (wf_init slots w G Hwf Hadm) as Hwf'.
  set (d := mkDLB (length (nodes w)) (S (length (nodes w))) 0).
  assert (objs (created w) !! length (objs w) = Some d) as Hd.
  { simpl. by rewrite list_lookup_middle. }
  assert (chains (ghost_created w G) !! length (objs w) = Some []) as Hns.
  { simpl. rewrite <- (wf_chains _ _ _ Hwf). by rewrite list_lookup_middle. }
  pose proof (wf_list _ _ _ Hwf' _ _ _ Hd Hns) as Hok.
  split; [by apply lookup_ge_None_2|].
  split; [exists (ghost_created w G); split; [done|by eexists]|].
  destruct (len_exact _ _ _ _ Hd Hok) as (-> & ->).
  split; [done|]. split; [done|].
  split; [apply (first_exact slots _ _ _ _ Hadm Hd Hok)|].
  split; [apply (last_exact slots _ _ _ _ Hadm Hd Hok)|].
  destruct (iter_run slots _ _ _ _ fuel Hadm Hd Hok) as (-> & _); [simpl; lia|done].
Qed.

Lemma new_list_is_empty_witness :
  wf init_slots w_10 G_10 /\
  DoublyLinkedBase.__init__ init_slots w_10 = (Ok 1, w_two) /\
  objs w_10 !! 1 = None /\
  (exists G', wf init_slots w_two G' /\ extends G_10 G') /\
  __len__ 1 w_two = (Ok 0%Z, w_two) /\
  is_empty 1 w_two = (Ok true, w_two) /\
  PositionalList.first init_slots 1 w_two = (Ok None, w_two) /\
  PositionalList.last init_slots 1 w_two = (Ok None, w_two) /\
  PositionalList.__iter__ init_slots 0 1 w_two = Some (Ok []).
Proof.
  split; [apply wf_w_10|]. split; [reflexivity|].
  apply (new_list_is_empty init_slots w_10 G_10 1 w_two 0 wf_w_10). reflexivity.
Defined.

(** X11.  The accessors never modify the store, whether they return or
    raise: [len], [is_empty], the [first], [last], [before] and [after] of
    the positional list, [Position.element], [_validate], and the [first]
    and [last] of the deque all leave the store they were given. *)
Theorem accessors_leave_store slots L a p w :
  snd (__len__ L w) = w /\ snd (is_empty L w) = w /\
  snd (PositionalList.first slots L w) = w /\
  snd (PositionalList.last slots L w) = w /\
  snd (PositionalList.before slots L a w) = w /\
  snd (PositionalList.after slots L a w) = w /\
  snd (PositionalList.element slots p w) = w /\
  snd (PositionalList._validate slots L a w) = w /\
  snd (LinkedDeque.first slots L w) = w /\
  snd (LinkedDeque.last slots L w) = w.
Proof.
  repeat split.
  - apply reads_bind; [apply reads_obj|]. intros. apply reads_ret.
  - apply reads_is_empty.
  - apply reads_bind; [apply reads_obj|]. intros.
    apply reads_bind; [apply reads_node_get|]. intros. apply reads_make_position.
  - apply reads_bind; [apply reads_obj|]. intros.
    apply reads_bind; [apply reads_node_get|]. intros. apply reads_make_position.
  - apply reads_bind; [apply reads_validate|]. intros.
    apply reads_bind; [apply reads_node_get|]. intros. apply reads_make_position.
  - apply reads_bind; [apply reads_validate|]. intros.
    apply reads_bind; [apply reads_node_get|]. intros. apply reads_make_position.
  - apply reads_node_get.
  - apply reads_validate.
  - apply reads_bind; [apply reads_is_empty|]. intros [|]; [apply reads_raise|].
    apply reads_bind; [apply reads_obj|]. intros.
    apply reads_bind; apply reads_node_get.
  - apply reads_bind; [apply reads_is_empty|]. intros [|]; [apply reads_raise|].
    apply reads_bind; [apply reads_obj|]. intros.
    apply reads_bind; apply reads_node_get.
Qed.

End NavigationLaws.

Module DequeLaws.
Import DoublyLinkedBase.

(** [insert_first(e)] on a deque of a well-formed store returns,
    puts [e] in front of the items the deque held, makes [first()] return
    [e], and adds one to [len]. *)
Theorem deque_insert_first slots w G L d e fuel vs :
  wf slots w G -> objs w !! L = Some d -> items fuel L w = Some vs ->
  exists w',
    LinkedDeque.insert_first slots L e w = (Ok tt, w') /\
    items (S fuel) L w' = Some (e :: vs) /\
    LinkedDeque.first slots L w' = (Ok e, w') /\
    __len__ L w' = (Ok (_size d + 1)%Z, w').
Proof.
  intros Hwf Hd Hit.
  pose proof (wf_admits_obj _ _ _ _ _ Hwf Hd) as Hadm.
  destruct (wf_list_at _ _ _ _ _ Hwf Hd) as (ns & Hns & Hok).
  destruct (items_known slots w L d ns fuel vs Hadm Hd Hok Hit) as (-> & Hfuel).
  destruct (insert_first_run slots w G L d ns e Hwf Hd Hns) as (s & ys & H2 & Hrun).
  destruct (inserted_list slots w G L d [] ns [] (_header d) s ys e Hwf Hd Hns eq_refl H2)
    as (Hwf' & Hd' & Hok' & Hel).
  cbv zeta in Hwf', Hd', Hok', Hel. rewrite app_nil_l in Hok', Hel.
  destruct (iter_run slots _ L _ _ (S fuel) Hadm Hd' Hok') as (_ & _ & Hit');
    [simpl; lia|].
  eexists. split; [exact Hrun|]. split; [by rewrite Hit', Hel|]. split.
  - destruct (deque_first_run slots _ L _ _ _ Hadm Hd' Hok') as (nd & Hnd & ->).
    unfold elements in Hel. cbn [map app] in Hel. rewrite Hnd in Hel.
    injection Hel as ->. done.
  - destruct (len_exact _ L _ _ Hd' Hok') as (Hlen & _). rewrite Hlen.
    destruct Hok as [_ _ _ _ Hs]. rewrite Hs. do 2 f_equal. simpl length. lia.
Qed.

Lemma deque_insert_first_witness :
  wf init_slots w_15 G_15 /\ objs w_15 !! 0 = Some (mkDLB 0 1 3) /\
  items 3 0 w_15 = Some [PyInt 10; PyInt 15; PyInt 20] /\
  exists w',
    LinkedDeque.insert_first init_slots 0 (PyInt 5) w_15 = (Ok tt, w') /\
    items 4 0 w' = Some [PyInt 5; PyInt 10; PyInt 15; PyInt 20] /\
    LinkedDeque.first init_slots 0 w' = (Ok (PyInt 5), w') /\
    __len__ 0 w' = (Ok 4%Z, w').
Proof.
  split; [apply wf_w_15|]. do 2 (split; [reflexivity|]).
  apply (deque_insert_first init_slots w_15 G_15 0 (mkDLB 0 1 3) (PyInt 5) 3
           [PyInt 10; PyInt 15; PyInt 20] wf_w_15); reflexivity.
Defined.

(** [insert_last(e)] returns, puts [e] behind the items the deque
    held, makes [last()] return [e], and adds one to [len]. *)
Theorem deque_insert_last slots w G L d e fuel vs :
  wf slots w G -> objs w !! L = Some d -> items fuel L w = Some vs ->
  exists w',
    LinkedDeque.insert_last slots L e w = (Ok tt, w') /\
    items (S fuel) L w' = Some (vs ++ [e]) /\
    LinkedDeque.last slots L w' = (Ok e, w') /\
    __len__ L w' = (Ok (_size d + 1)%Z, w').
Proof.
  intros Hwf Hd Hit.
  pose proof (wf_admits_obj _ _ _ _ _ Hwf Hd) as Hadm.
  destruct (wf_list_at _ _ _ _ _ Hwf Hd) as (ns & Hns & Hok).
  destruct (items_known slots w L d ns fuel vs Hadm Hd Hok Hit) as (-> & Hfuel).
  destruct (insert_last_run slots w G L d ns e Hwf Hd Hns) as (xs & p & H1 & Hrun).
  pose proof Hns as Hns0. rewrite <- (app_nil_r ns) in Hns0.
  destruct (inserted_list slots w G L d ns [] xs p (_trailer d) [] e Hwf Hd Hns0 H1 eq_refl)
    as (Hwf' & Hd' & Hok' & Hel).
  cbv zeta in Hwf', Hd', Hok', Hel.
  destruct (iter_run slots _ L _ _ (S fuel) Hadm Hd' Hok') as (_ & _ & Hit').
  { rewrite length_app. simpl. lia. }
  eexists. split; [exact Hrun|]. split; [by rewrite Hit', Hel|]. split.
  - destruct (deque_last_run slots _ L _ _ _ Hadm Hd' Hok') as (nd & Hnd & ->).
    rewrite elements_app in Hel. apply app_inj_1 in Hel as (_ & Hel);
      [|by rewrite !elements_length].
    unfold elements in Hel. cbn [map] in Hel. rewrite Hnd in Hel.
    injection Hel as ->. done.
  - destruct (len_exact _ L _ _ Hd' Hok') as (Hlen & _). rewrite Hlen.
    destruct Hok as [_ _ _ _ Hs]. rewrite Hs. do 2 f_equal.
    rewrite length_app. simpl. lia.
Qed.

Lemma deque_insert_last_witness :
  wf init_slots w_15 G_15 /\ objs w_15 !! 0 = Some (mkDLB 0 1 3) /\
  items 3 0 w_15 = Some [PyInt 10; PyInt 15; PyInt 20] /\
  exists w',
    LinkedDeque.insert_last init_slots 0 (PyInt 25) w_15 = (Ok tt, w') /\
    items 4 0 w' = Some [PyInt 10; PyInt 15; PyInt 20; PyInt 25] /\
    LinkedDeque.last init_slots 0 w' = (Ok (PyInt 25), w') /\
    __len__ 0 w' = (Ok 4%Z, w').
Proof.
  split; [apply wf_w_15|]. do 2 (split; [reflexivity|]).
  apply (deque_insert_last init_slots w_15 G_15 0 (mkDLB 0 1 3) (PyInt 25) 3
           [PyInt 10; PyInt 15; PyInt 20] wf_w_15); reflexivity.
Defined.

(** On a deque that holds the items [v :: vs], [first()] returns
    [v] and [delete_first()] returns [v] and leaves the items [vs], with
    [len] one less. *)
Theorem deque_delete_first slots w G L d fuel v vs :
  wf slots w G -> objs w !! L = Some d -> items fuel L w = Some (v :: vs) ->
  LinkedDeque.first slots L w = (Ok v, w) /\
  exists w',
    LinkedDeque.delete_first slots L w = (Ok v, w') /\
    items fuel L w' = Some vs /\
    __len__ L w' = (Ok (_size d - 1)%Z, w').
Proof.
  intros Hwf Hd Hit.
  pose proof (wf_admits_obj _ _ _ _ _ Hwf Hd) as Hadm.
  destruct (wf_list_at _ _ _ _ _ Hwf Hd) as (ns & Hns & Hok).
  destruct (items_known slots w L d ns fuel _ Hadm Hd Hok Hit) as (Hvs & Hfuel).
  destruct ns as [|n rest]; [done|].
  destruct (deque_first_run slots w L d n rest Hadm Hd Hok) as (nd & Hnd & Hfirst).
  unfold elements in Hvs. cbn [map] in Hvs. rewrite Hnd in Hvs.
  injection Hvs as -> ->. split; [done|].
  destruct (delete_first_run slots w L d n rest Hadm Hd Hok)
    as (s & ys & nd' & H2 & Hnd' & Hrun).
  assert (nd' = nd) as -> by congruence.
  destruct (removed_list slots w G L d [] n rest [] (_header d) s ys Hwf Hd Hns eq_refl H2)
    as (Hwf' & Hd' & Hok' & Hel).
  cbv zeta in Hwf', Hd', Hok', Hel. rewrite app_nil_l in Hok', Hel.
  destruct (iter_run slots _ L _ _ fuel Hadm Hd' Hok') as (_ & _ & Hit');
    [simpl in *; lia|].
  eexists. split; [exact Hrun|]. split; [by rewrite Hit', Hel|].
  destruct (len_exact _ L _ _ Hd' Hok') as (Hlen & _). rewrite Hlen.
  destruct Hok as [_ _ _ _ Hs]. rewrite Hs. do 2 f_equal. simpl length. lia.
Qed.

Lemma deque_delete_first_witness :
  wf init_slots w_15 G_15 /\ objs w_15 !! 0 = Some (mkDLB 0 1 3) /\
  items 3 0 w_15 = Some (PyInt 10 :: [PyInt 15; PyInt 20]) /\
  LinkedDeque.first init_slots 0 w_15 = (Ok (PyInt 10), w_15) /\
  exists w',
    LinkedDeque.delete_first init_slots 0 w_15 = (Ok (PyInt 10), w') /\
    items 3 0 w' = Some [PyInt 15; PyInt 20] /\
    __len__ 0 w' = (Ok 2%Z, w').
Proof.
  split; [apply wf_w_15|]. do 2 (split; [reflexivity|]).
  apply (deque_delete_first init_slots w_15 G_15 0 (mkDLB 0 1 3) 3 (PyInt 10)
           [PyInt 15; PyInt 20] wf_w_15); reflexivity.
Defined.

(** On a deque that holds the items [vs ++ [v]], [last()] returns
    [v] and [delete_last()] returns [v] and leaves the items [vs], with
    [len] one less. *)
Theorem deque_delete_last slots w G L d fuel v vs :
  wf slots w G -> objs w !! L = Some d -> items fuel L w = Some (vs ++ [v]) ->
  LinkedDeque.last slots L w = (Ok v, w) /\
  exists w',
    LinkedDeque.delete_last slots L w = (Ok v, w') /\
    items fuel L w' = Some vs /\
    __len__ L w' = (Ok (_size d - 1)%Z, w').
Proof.
  intros Hwf Hd Hit.
  pose proof (wf_admits_obj _ _ _ _ _ Hwf Hd) as Hadm.
  destruct (wf_list_at _ _ _ _ _ Hwf Hd) as (ns & Hns & Hok).
  destruct (items_known slots w L d ns fuel _ Hadm Hd Hok Hit) as (Hvs & Hfuel).
  destruct ns as [|n l1 _] using rev_ind; [by destruct vs|].
  destruct (deque_last_run slots w L d l1 n Hadm Hd Hok) as (nd & Hnd & Hlast).
  rewrite elements_app in Hvs. unfold elements in Hvs at 2. cbn [map] in Hvs.
  rewrite Hnd in Hvs. apply app_inj_tail in Hvs as (-> & ->). split; [done|].
  destruct (delete_last_run slots w L d l1 n Hadm Hd Hok)
    as (xs & p & nd' & H1 & Hnd' & Hrun).
  assert (nd' = nd) as -> by congruence.
  destruct (removed_list slots w G L d l1 n [] xs p (_trailer d) [] Hwf Hd Hns H1 eq_refl)
    as (Hwf' & Hd' & Hok' & Hel).
  cbv zeta in Hwf', Hd', Hok', Hel. rewrite app_nil_r in Hok', Hel.
  destruct (iter_run slots _ L _ _ fuel Hadm Hd' Hok') as (_ & _ & Hit').
  { rewrite length_app in Hfuel. simpl in *. lia. }
  eexists. split; [exact Hrun|]. split; [by rewrite Hit', Hel|].
  destruct (len_exact _ L _ _ Hd' Hok') as (Hlen & _). rewrite Hlen.
  destruct Hok as [_ _ _ _ Hs]. rewrite Hs. do 2 f_equal.
  rewrite length_app. simpl. lia.
Qed.

Lemma deque_delete_last_witness :
  wf init_slots w_15 G_15 /\ objs w_15 !! 0 = Some (mkDLB 0 1 3) /\
  items 3 0 w_15 = Some ([PyInt 10; PyInt 15] ++ [PyInt 20]) /\
  LinkedDeque.last init_slots 0 w_15 = (Ok (PyInt 20), w_15) /\
  exists w',
    LinkedDeque.delete_last init_slots 0 w_15 = (Ok (PyInt 20), w') /\
    items 3 0 w' = Some [PyInt 10; PyInt 15] /\
    __len__ 0 w' = (Ok 2%Z, w').
Proof.
  split; [apply wf_w_15|]. do 2 (split; [reflexivity|]).
  apply (deque_delete_last init_slots w_15 G_15 0 (mkDLB 0 1 3) 3 (PyInt 20)
           [PyInt 10; PyInt 15] wf_w_15); reflexivity.
Defined.

End DequeLaws.

Module CallLaws.
Import DoublyLinkedBase.

(** A call of a method of the deque or of the positional list on a
    list of a well-formed store, with Positions that lists handed out (or
    other objects) as arguments, either returns or raises one of the
    exceptions of [list_errors] (the TypeError and the two ValueErrors of
    [_validate], the NameError of the deque); when it raises, the
    store is exactly as before the call.  No such call fails with an
    AttributeError or on a dangling reference. *)
Theorem failed_call_leaves_store slots w G c L :
  wf slots w G -> callable w G c -> call_list c = Some L ->
  match call_status slots c w with
  | (Ok _, _) => True
  | (Raise e, w') => w' = w /\ e ∈ list_errors
  | (Stuck, _) => False
  end.
Proof.
  intros Hwf Hc HL.
  destruct (call_effect slots w G c L Hwf Hc HL); done.
Qed.

Lemma failed_call_leaves_store_witness :
  let w' := snd (PositionalList.delete init_slots 0 (OPos p3) w_15) in
  let G' := ghost_removed 0 [2] [3] G_15 in
  let c := PlAddAfter 0 (OPos p3) (PyInt 1) in
  wf init_slots w' G' /\ callable w' G' c /\ call_list c = Some 0 /\
  call_status init_slots c w' = (Raise (ValueError "p is no longer valid."), w') /\
  match call_status init_slots c w' with
  | (Ok _, _) => True
  | (Raise e, w'') => w'' = w' /\ e ∈ list_errors
  | (Stuck, _) => False
  end.
Proof.
  assert (wf init_slots (snd (PositionalList.delete init_slots 0 (OPos p3) w_15))
            (ghost_removed 0 [2] [3] G_15)) as Hwf.
  { apply (wf_delete init_slots w_15 G_15 0 (mkDLB 0 1 3) [2] 4 [3] [0] 2 3 [1]);
      [apply wf_w_15|reflexivity..]. }
  assert (callable (snd (PositionalList.delete init_slots 0 (OPos p3) w_15))
            (ghost_removed 0 [2] [3] G_15) (PlAddAfter 0 (OPos p3) (PyInt 1))) as Hc.
  { split; [vm_compute; lia|]. exists 4. split; reflexivity. }
  split; [exact Hwf|]. split; [exact Hc|]. do 2 (split; [reflexivity|]).
  apply (failed_call_leaves_store init_slots _ _ _ 0 Hwf Hc). reflexivity.
Defined.

(** A call leaves every list other than the one it is invoked on
    as it was: such a list iterates over the same elements, has the same
    chain of Positions, the same items and the same [len].  This includes
    the constructor, which is invoked on no list. *)
Theorem other_lists_untouched slots w G c B dB fuel :
  wf slots w G -> callable w G c -> call_list c <> Some B ->
  objs w !! B = Some dB ->
  let w' := snd (run_call slots c w) in
  PositionalList.__iter__ slots fuel B w' = PositionalList.__iter__ slots fuel B w /\
  after_chain slots fuel B w' = after_chain slots fuel B w /\
  items fuel B w' = items fuel B w /\
  __len__ B w' = (fst (__len__ B w), w').
Proof.
  intros Hwf Hc HB Hd w'.
  pose proof (wf_admits_obj _ _ _ _ _ Hwf Hd) as Hadm.
  destruct (wf_list_at _ _ _ _ _ Hwf Hd) as (ns & Hns & Hok).
  assert (forall x, x ∈ full dB ns -> x < length (nodes w)) as Hall.
  { intros x. by apply list_ok_allocated. }
  assert (objs w' !! B = Some dB /\
          forall x, x ∈ full dB ns -> nodes w' !! x = nodes w !! x) as [Hd' Hsame].
  { subst w'. rewrite run_call_status.
    destruct (call_list c) as [A|] eqn:HA.
    - assert (A <> B) as Hne by congruence.
      assert (forall dA nsA y, objs w !! A = Some dA -> chains G !! A = Some nsA ->
                y ∈ full dA nsA -> forall x, x ∈ full dB ns -> x <> y) as Hdis.
      { intros dA nsA y HdA HnsA Hy x Hx ->.
        by apply (wf_disjoint slots w G A B dA dB nsA ns y Hwf Hne HdA HnsA Hd Hns). }
      destruct (call_effect slots w G c A Hwf Hc HA)
        as [e He| |dA nsA e p s HdA HnsA Hp Hs|dA nsA n p s HdA HnsA Hn Hp Hs
            |dA nsA n e HdA HnsA Hn]; simpl.
      + done.
      + done.
      + split; [by rewrite list_lookup_alter_ne|].
        intros x Hx. apply spliced_other; [by eapply Hdis..|by apply Hall].
      + split; [by rewrite list_lookup_alter_ne|].
        intros x Hx. apply unlinked_other; by eapply Hdis.
      + split; [done|]. intros x Hx. apply list_lookup_alter_ne.
        intros ->. by eapply Hdis.
    - destruct c; try discriminate. cbn [call_status].
      destruct (init_cases slots w) as [(_ & ->)|(e & ->)]; simpl; [|done].
      split; [by apply lookup_app_l_Some|].
      intros x Hx. apply lookup_app_l. by apply Hall. }
  by apply (frame_list slots w w' B dB ns fuel Hadm Hd Hok Hd' Hsame).
Qed.

Lemma other_lists_untouched_witness :
  let c := PlAddFirst 1 (PyInt 7) in
  let w' := snd (run_call init_slots c w_two) in
  wf init_slots w_two G_two /\ callable w_two G_two c /\ call_list c <> Some 0 /\
  objs w_two !! 0 = Some (mkDLB 0 1 1) /\
  PositionalList.__iter__ init_slots 1 1 w' = Some (Ok [PyInt 7]) /\
  (PositionalList.__iter__ init_slots 1 0 w' = PositionalList.__iter__ init_slots 1 0 w_two /\
   after_chain init_slots 1 0 w' = after_chain init_slots 1 0 w_two /\
   items 1 0 w' = items 1 0 w_two /\
   __len__ 0 w' = (fst (__len__ 0 w_two), w')).
Proof.
  assert (callable w_two G_two (PlAddFirst 1 (PyInt 7))) as Hc by (vm_compute; lia).
  split; [apply wf_w_two|]. split; [exact Hc|]. split; [discriminate|].
  do 2 (split; [reflexivity|]).
  apply (other_lists_untouched init_slots w_two G_two _ 0 (mkDLB 0 1 1) 1 wf_w_two Hc);
    [discriminate|reflexivity].
Defined.

End CallLaws.

Module Reachability.

(** X18.  Whatever program of constructor and method calls is run from
    the empty store, the store it reaches is well formed: every list is a
    doubly linked path from its header to its trailer without repetition,
    closed by None at both ends, its [_size] counts its real nodes, no node
    belongs to two lists, and every deleted node has [_next] None.  Every
    value the program was handed is a Position of a node that a list
    allocated, or None. *)
Theorem reachable_store_well_formed slots prog :
  exists G, wf slots (fst (run_program slots prog)) G /\
            Forall (passable G) (snd (run_program slots prog)).
Proof.
  apply (run_program_kept slots prog empty_world [] (mkGhost [] [])).
  - apply wf_empty.
  - constructor.
Qed.

End Reachability.

Module PqSortLaws.
Import DoublyLinkedBase.

(** [pq_sort(C)], for any class of priority queue: when [C]
    iterates over [vs], the calls [add(v, v)] for the [v] of [vs] in order
    return on a new queue, and [len(vs)] calls of [remove_min] then return
    the values [out] in turn, [pq_sort] returns and [C] iterates over
    exactly [out], with the [len] it had.  (With a queue that returns its
    minimum, [out] is [vs] sorted.) *)
Theorem pq_sort_refills_from_queue slots Q PriorityQueue add remove_min
    w G C d fuel vs q1 out q2 :
  wf slots w G -> objs w !! C = Some d ->
  PositionalList.__iter__ slots fuel C w = Some (Ok vs) ->
  PqSort.adds Q add vs PriorityQueue = Some q1 ->
  PqSort.removes Q remove_min (length vs) q1 = Some (out, q2) ->
  exists w',
    PqSort.pq_sort slots Q PriorityQueue add remove_min C w = (Ok tt, w') /\
    PositionalList.__iter__ slots fuel C w' = Some (Ok out) /\
    __len__ C w' = (Ok (Z.of_nat (length vs)), w').
Proof.
  intros Hwf Hd Hit Hadds Hrem.
  pose proof (wf_admits_obj _ _ _ _ _ Hwf Hd) as Hadm.
  destruct (wf_list_at _ _ _ _ _ Hwf Hd) as (ns & Hns & Hok).
  destruct (iter_known slots w C d ns fuel vs Hadm Hd Hok Hit) as (-> & Hfuel).
  destruct (len_exact _ _ _ _ Hd Hok) as (Hlen & _).
  rewrite elements_length in Hrem.
  destruct (drain_run slots Q add C ns w G d _ q1 Hwf Hd Hns Hadds)
    as (w1 & G1 & d1 & Hloop1 & Hwf1 & Hd1 & Hns1).
  destruct (refill_run slots Q remove_min C (length ns) w1 G1 d1 [] q1 out q2
              Hwf1 Hd1 Hns1 Hrem)
    as (w2 & G2 & d2 & ns2 & Hloop2 & Hwf2 & Hd2 & Hns2 & Hel2).
  simpl in Hel2.
  pose proof (wf_list _ _ _ Hwf2 _ _ _ Hd2 Hns2) as Hok2.
  assert (length out = length ns) as Hlo.
  { clear -Hrem. revert q1 out q2 Hrem.
    induction (length ns) as [|k IH]; intros q1 out q2 Hrem; simpl in Hrem.
    - by injection Hrem as <- _.
    - destruct (remove_min q1) as [[kv|e|] q']; try done.
      destruct (PqSort.removes Q remove_min k q') as [[o q'']|] eqn:E; [|done].
      injection Hrem as <- _. simpl. f_equal. by eapply IH. }
  assert (length ns2 = length ns) as Hl2.
  { rewrite <- (elements_length (nodes w2) ns2), Hel2. done. }
  exists w2. split.
  - unfold PqSort.pq_sort.
    erewrite bindQ_step; [|by apply on_list_step].
    rewrite Nat2Z.id.
    erewrite bindQ_step; [|exact Hloop1].
    by rewrite Hloop2.
  - destruct (iter_run slots w2 C d2 ns2 fuel Hadm Hd2 Hok2) as (-> & _); [lia|].
    rewrite Hel2. split; [done|].
    destruct (len_exact _ _ _ _ Hd2 Hok2) as (-> & _).
    by rewrite elements_length, Hl2.
Qed.

Lemma pq_sort_refills_from_queue_witness :
  let w := snd (PositionalList.add_first init_slots 0 (PyInt 30) w_15) in
  let G := ghost_inserted 0 [] [2; 4; 3] w_15 G_15 in
  let vs := [PyInt 30; PyInt 10; PyInt 15; PyInt 20] in
  let out := [PyInt 10; PyInt 15; PyInt 20; PyInt 30] in
  let q1 := [(PyInt 10, PyInt 10); (PyInt 15, PyInt 15);
             (PyInt 20, PyInt 20); (PyInt 30, PyInt 30)] in
  wf init_slots w G /\ objs w !! 0 = Some (mkDLB 0 1 4) /\
  PositionalList.__iter__ init_slots 4 0 w = Some (Ok vs) /\
  PqSort.adds _ SortedQueue.add vs [] = Some q1 /\
  PqSort.removes _ SortedQueue.remove_min (length vs) q1 = Some (out, []) /\
  exists w',
    PqSort.pq_sort init_slots _ [] SortedQueue.add SortedQueue.remove_min 0 w
    = (Ok tt, w') /\
    PositionalList.__iter__ init_slots 4 0 w' = Some (Ok out) /\
    __len__ 0 w' = (Ok (Z.of_nat (length vs)), w').
Proof.
  assert (wf init_slots (snd (PositionalList.add_first init_slots 0 (PyInt 30) w_15))
            (ghost_inserted 0 [] [2; 4; 3] w_15 G_15)) as Hwf.
  { apply (wf_insert init_slots w_15 G_15 0 (mkDLB 0 1 3) [] [2; 4; 3] [] 0 2 [4; 3; 1]);
      [apply wf_w_15|reflexivity..]. }
  split; [exact Hwf|]. do 4 (split; [reflexivity|]).
  apply (pq_sort_refills_from_queue init_slots _ [] SortedQueue.add
           SortedQueue.remove_min _ _ 0 (mkDLB 0 1 4) 4
           [PyInt 30; PyInt 10; PyInt 15; PyInt 20]
           [(PyInt 10, PyInt 10); (PyInt 15, PyInt 15);
            (PyInt 20, PyInt 20); (PyInt 30, PyInt 30)]
           [PyInt 10; PyInt 15; PyInt 20; PyInt 30] [] Hwf); reflexivity.
Defined.

End PqSortLaws.

Module StackLaws.

(** X20.  The stack is last-in first-out and raises Empty only when it
    is empty: after [push(e)], [top()] returns [e], [pop()] returns [e] and
    leaves the stack as it was before the push, [is_empty()] is False and
    [len] is one more; on a new stack [is_empty()] is True, [len] is 0, and
    [top()] and [pop()] raise Empty and leave the stack. *)
Theorem stack_last_in_first_out {T} (stk : list T) (e : T) :
  ArrayStack.top (ArrayStack.push e stk) = Return e /\
  ArrayStack.pop (ArrayStack.push e stk) = (Return e, stk) /\
  ArrayStack.is_empty (ArrayStack.push e stk) = false /\
  ArrayStack.__len__ (ArrayStack.push e stk) = (ArrayStack.__len__ stk + 1)%Z /\
  ArrayStack.is_empty (@ArrayStack.__init__ T) = true /\
  ArrayStack.__len__ (@ArrayStack.__init__ T) = 0%Z /\
  ArrayStack.top (@ArrayStack.__init__ T) = Throw (Exn (Empty "Stack is empty.")) /\
  ArrayStack.pop (@ArrayStack.__init__ T)
  = (Throw (Exn (Empty "Stack is empty")), ArrayStack.__init__).
Proof.
  unfold ArrayStack.push.
  split; [apply top_snoc|]. split; [apply pop_snoc|].
  split; [apply is_empty_snoc|]. split; [|done].
  unfold ArrayStack.__len__. rewrite length_app. simpl. lia.
Qed.

(** X21.  Popping as many times as elements were pushed returns them in
    the reverse order of the pushes, raises nothing, and leaves the stack as
    it was before the pushes. *)
Theorem stack_pops_reverse_pushes {T} (xs stk : list T) :
  ArrayStack.pop_many (length xs) (ArrayStack.push_all xs stk)
  = (Return (rev xs), stk).
Proof. rewrite push_all_app. apply pop_many_app. Qed.

(** X22.  [is_matched] as the code behaves.  An expression without any
    of the six delimiters gives True.  Otherwise the first delimiter
    decides: an opening one makes the function raise TypeError (the call
    [S.push()] lacks its argument), a closing one makes it return False.  So
    the function returns True for no expression that contains a
    delimiter. *)
Theorem is_matched_first_delimiter (pre rest : str) (c : ascii) :
  Forall (fun x => x ∉ (lefty ++ righty)) pre ->
  is_matched pre = Return true /\
  (c ∈ lefty ->
   is_matched (pre ++ c :: rest)
   = Throw (Exn (TypeError
       "ArrayStack.push() missing 1 required positional argument: 'e'"))) /\
  (c ∈ righty -> is_matched (pre ++ c :: rest) = Return false).
Proof.
  intros Hpre. unfold is_matched.
  induction Hpre as [|x pre Hx Hpre IH].
  - split; [done|]. split; intros Hc; simpl.
    + by rewrite bool_decide_eq_true_2.
    + rewrite bool_decide_eq_false_2.
      * by rewrite bool_decide_eq_true_2.
      * intros Hl. revert Hc Hl. unfold lefty, righty. set_solver.
  - assert ((x ∉ lefty) /\ (x ∉ righty)) as [Hl Hr] by set_solver.
    simpl. rewrite (bool_decide_eq_false_2 (x ∈ lefty)) by done.
    rewrite (bool_decide_eq_false_2 (x ∈ righty)) by done.
    exact IH.
Qed.

Lemma is_matched_first_delimiter_witness :
  let pre := String.list_ascii_of_string "2*" in
  let rest := String.list_ascii_of_string "1+a)" in
  Forall (fun x => x ∉ (lefty ++ righty)) pre /\
  is_matched pre = Return true /\
  ("("%char ∈ lefty ->
   is_matched (pre ++ "("%char :: rest)
   = Throw (Exn (TypeError
       "ArrayStack.push() missing 1 required positional argument: 'e'"))) /\
  ("("%char ∈ righty -> is_matched (pre ++ "("%char :: rest) = Return false).
Proof.
  assert (Forall (fun x => x ∉ (lefty ++ righty)) (String.list_ascii_of_string "2*")) as H.
  { repeat constructor; vm_compute; set_solver. }
  split; [exact H|].
  apply (is_matched_first_delimiter (String.list_ascii_of_string "2*")
           (String.list_ascii_of_string "1+a)") "("%char H).
Defined.

End StackLaws.

Module HtmlLaws.

(** X23.  For every text, [is_matched_html] leaves its loop within as
    many turns as the text has characters and returns True or False: it
    never raises (the [pop] is guarded by [is_empty]). *)
Theorem is_matched_html_returns (raw : str) :
  exists b, is_matched_html (length raw) raw = Some (Return b).
Proof.
  apply html_loop_returns.
  destruct (find_range "<" 0 raw) as [->|H]; [lia|by left|right; lia].
Qed.

(** X24.  On the text of a document, where text holds no '<', tag names
    hold no '>' and the name of an opening tag does not start with '/',
    [is_matched_html] returns what the stack discipline gives on the
    sequence of tags: opening tags are pushed, a closing tag must name the
    tag on top of the stack, and no tag may be left open at the end.  One
    turn of the loop per tag suffices. *)
Theorem is_matched_html_follows_tags (ps : list piece) (fuel : nat) :
  Forall valid_piece ps -> count_tags ps <= fuel ->
  is_matched_html fuel (render ps) = Some (Return (balanced ps [])).
Proof.
  apply html_follows_tags.
Qed.

Lemma is_matched_html_follows_tags_witness :
  let a := String.list_ascii_of_string "a" in
  let b := String.list_ascii_of_string "b" in
  let ps := [Open a; Text (String.list_ascii_of_string "x"); Open b; Close a] in
  Forall valid_piece ps /\ count_tags ps <= 3 /\
  render ps = String.list_ascii_of_string "<a>x<b></a>" /\
  is_matched_html 3 (render ps) = Some (Return (balanced ps [])) /\
  balanced ps [] = false.
Proof.
  assert (Forall valid_piece
            [Open (String.list_ascii_of_string "a");
             Text (String.list_ascii_of_string "x");
             Open (String.list_ascii_of_string "b");
             Close (String.list_ascii_of_string "a")]) as Hval.
  { repeat constructor; vm_compute; set_solver. }
  split; [exact Hval|]. split; [vm_compute; lia|]. split; [reflexivity|].
  split; [|reflexivity].
  apply (is_matched_html_follows_tags _ 3 Hval). vm_compute. lia.
Defined.

(** X25.  On the text of such a document, [is_matched_html] returns True
    exactly when the document is properly nested: built from text and from
    elements [<name> ... </name>] whose content is properly nested. *)
Theorem is_matched_html_accepts_nested (ps : list piece) (fuel : nat) :
  Forall valid_piece ps -> count_tags ps <= fuel ->
  (is_matched_html fuel (render ps) = Some (Return true) <-> nested ps).
Proof.
  intros Hval Hfuel. rewrite (html_follows_tags ps fuel Hval Hfuel).
  split.
  - intros [= Hb]. by apply (balanced_closes ps []).
  - intros Hn. do 2 f_equal.
    rewrite <- (app_nil_r ps). by rewrite balanced_nested.
Qed.

Lemma is_matched_html_accepts_nested_witness :
  let a := String.list_ascii_of_string "a" in
  let b := String.list_ascii_of_string "b" in
  let ps := [Open a; Text (String.list_ascii_of_string "x"); Open b; Close b;
             Close a] in
  Forall valid_piece ps /\ count_tags ps <= 4 /\
  render ps = String.list_ascii_of_string "<a>x<b></b></a>" /\
  nested ps /\
  (is_matched_html 4 (render ps) = Some (Return true) <-> nested ps).
Proof.
  assert (Forall valid_piece
            [Open (String.list_ascii_of_string "a");
             Text (String.list_ascii_of_string "x");
             Open (String.list_ascii_of_string "b");
             Close (String.list_ascii_of_string "b");
             Close (String.list_ascii_of_string "a")]) as Hval.
  { repeat constructor; vm_compute; set_solver. }
  split; [exact Hval|]. split; [vm_compute; lia|]. split; [reflexivity|].
  split.
  - apply (nested_element _ [Text _; Open _; Close _] []); [|constructor].
    constructor. apply (nested_element _ [] []); constructor.
  - apply (is_matched_html_accepts_nested _ 4 Hval). vm_compute. lia.
Defined.

End HtmlLaws.

Module FailureLaws.
Import DoublyLinkedBase.

(** [pq_sort] is not safe against a failing queue: when [C]
    iterates over [vs1 ++ v :: vs2], the calls [add] for the elements of
    [vs1] return and the call [add(v, v)] raises, [pq_sort] raises the same
    exception and leaves [C] without the elements of [vs1] and without [v]:
    [C] then iterates over [vs2] only. *)
Theorem pq_sort_failed_add_loses_elements slots Q PriorityQueue add remove_min
    w G C d fuel vs1 v vs2 q1 e q' :
  wf slots w G -> objs w !! C = Some d ->
  PositionalList.__iter__ slots fuel C w = Some (Ok (vs1 ++ v :: vs2)) ->
  PqSort.adds Q add vs1 PriorityQueue = Some q1 ->
  add v v q1 = (Raise e, q') ->
  exists w',
    PqSort.pq_sort slots Q PriorityQueue add remove_min C w = (Raise e, w') /\
    PositionalList.__iter__ slots fuel C w' = Some (Ok vs2).
Proof.
  intros Hwf Hd Hit Hadds Hraise.
  pose proof (wf_admits_obj _ _ _ _ _ Hwf Hd) as Hadm.
  destruct (wf_list_at _ _ _ _ _ Hwf Hd) as (ns & Hns & Hok).
  destruct (iter_known slots w C d ns fuel _ Hadm Hd Hok Hit) as (Hvs & Hfuel).
  destruct (len_exact _ _ _ _ Hd Hok) as (Hlen & _).
  symmetry in Hvs. unfold elements in Hvs.
  change (map ?f ns) with (f <$> ns) in Hvs.
  apply fmap_app_inv in Hvs as (l1 & l2' & Hv1 & Hvs & ->).
  symmetry in Hvs. apply fmap_cons_inv in Hvs as (n & l2 & Hv & Hv2 & ->).
  fold (elements (nodes w) l1) in Hv1. fold (elements (nodes w) l2) in Hv2.
  subst vs1 vs2.
  destruct (drain_prefix slots Q add C l1 w G d (n :: l2) _ q1 Hwf Hd Hns Hadds)
    as (w1 & G1 & d1 & Hloop1 & Hwf1 & Hd1 & Hns1 & Hel1).
  destruct (move_first slots Q add w1 G1 C d1 n l2 q1 Hwf1 Hd1 Hns1)
    as (nd & w2 & G2 & d2 & Hnd & Hwf2 & Hd2 & Hns2 & Hel2 & Hmove).
  rewrite (elements_cons _ _ _ _ Hnd) in Hel1.
  change (elements (nodes w) (n :: l2))
    with (default PyNone (_element <$> nodes w !! n) :: elements (nodes w) l2) in Hel1.
  injection Hel1 as Hndv Hel1. rewrite <- Hv in Hndv.
  rewrite Hndv, Hraise in Hmove. simpl in Hmove.
  pose proof (wf_list _ _ _ Hwf2 _ _ _ Hd2 Hns2) as Hok2.
  exists w2. split.
  - unfold PqSort.pq_sort. cbv zeta.
    match goal with
    | |- (fst ?r, fst (snd ?r)) = _ =>
        assert (r = (Raise e, (w2, q'))) as ->; [|done]
    end.
    erewrite bindQ_step; [|by apply on_list_step].
    rewrite Nat2Z.id, length_app. cbn [length].
    unfold PqSort.bindQ at 1. rewrite for_range_add.
    erewrite bindQ_step; [|exact Hloop1].
    cbn [PqSort.for_range]. unfold PqSort.bindQ at 1. by rewrite Hmove.
  - destruct (iter_run slots w2 C d2 l2 fuel Hadm Hd2 Hok2) as (-> & _).
    { rewrite length_app in Hfuel. simpl in Hfuel. lia. }
    by rewrite Hel2, Hel1.
Qed.

Lemma pq_sort_failed_add_loses_elements_witness :
  let add := fun k v q =>
    match k with
    | PyInt _ => SortedQueue.add k v q
    | _ => (Raise (TypeError "key must be an integer"), q)
    end in
  let w := snd (PositionalList.replace init_slots 0 (OPos p3) (PyStr "x") w_15) in
  wf init_slots w G_15 /\ objs w !! 0 = Some (mkDLB 0 1 3) /\
  PositionalList.__iter__ init_slots 3 0 w
  = Some (Ok ([PyInt 10] ++ PyStr "x" :: [PyInt 20])) /\
  PqSort.adds _ add [PyInt 10] [] = Some [(PyInt 10, PyInt 10)] /\
  add (PyStr "x") (PyStr "x") [(PyInt 10, PyInt 10)]
  = (Raise (TypeError "key must be an integer"), [(PyInt 10, PyInt 10)]) /\
  exists w',
    PqSort.pq_sort init_slots _ [] add SortedQueue.remove_min 0 w
    = (Raise (TypeError "key must be an integer"), w') /\
    PositionalList.__iter__ init_slots 3 0 w' = Some (Ok [PyInt 20]).
Proof.
  assert (wf init_slots
            (snd (PositionalList.replace init_slots 0 (OPos p3) (PyStr "x") w_15)) G_15)
    as Hwf by apply (wf_element init_slots w_15 G_15 4 (PyStr "x") wf_w_15).
  split; [exact Hwf|]. do 4 (split; [reflexivity|]).
  apply (pq_sort_failed_add_loses_elements init_slots _ [] _ SortedQueue.remove_min
           _ G_15 0 (mkDLB 0 1 3) 3 [PyInt 10] (PyStr "x") [PyInt 20]
           [(PyInt 10, PyInt 10)] _ [(PyInt 10, PyInt 10)] Hwf); reflexivity.
Defined.

(** X27.  With the [__slots__] tuple of the source, no program builds
    anything: every constructor call raises, so whatever program of
    constructor and method calls is run from the empty store, the store
    stays empty. *)
Theorem source_programs_build_nothing prog :
  fst (run_program Node_slots prog) = empty_world.
Proof.
  apply (source_program_store prog empty_world [] (mkGhost [] [])).
  - apply wf_empty.
  - constructor.
Qed.

End FailureLaws.

Module HtmlEdgeLaws.

(** X28.  A '<' that no '>' follows makes [is_matched_html] return
    False, whatever document precedes it: on the text of a document
    followed by '<' and characters other than '>', the function returns
    False ("invalid tag"), also when every tag before is matched. *)
Theorem is_matched_html_unterminated_tag (ps : list piece) (s : str) (fuel : nat) :
  Forall valid_piece ps -> ">"%char ∉ s -> count_tags ps < fuel ->
  is_matched_html fuel (render ps ++ "<"%char :: s) = Some (Return false).
Proof.
  intros Hval Hs Hfuel. unfold is_matched_html.
  by apply (html_loop_unterminated ps [] _ fuel _ s).
Qed.

Lemma is_matched_html_unterminated_tag_witness :
  let a := String.list_ascii_of_string "a" in
  let ps := [Open a; Text (String.list_ascii_of_string "x"); Close a] in
  let s := String.list_ascii_of_string "b" in
  Forall valid_piece ps /\ (">"%char ∉ s) /\ count_tags ps < 3 /\
  render ps ++ "<"%char :: s = String.list_ascii_of_string "<a>x</a><b" /\
  is_matched_html 3 (render ps ++ "<"%char :: s) = Some (Return false).
Proof.
  assert (Forall valid_piece
            [Open (String.list_ascii_of_string "a");
             Text (String.list_ascii_of_string "x");
             Close (String.list_ascii_of_string "a")]) as Hval.
  { repeat constructor; vm_compute; set_solver. }
  assert (">"%char ∉ String.list_ascii_of_string "b") as Hs
    by (vm_compute; set_solver).
  split; [exact Hval|]. split; [exact Hs|]. split; [vm_compute; lia|].
  split; [reflexivity|].
  apply (is_matched_html_unterminated_tag _ _ 3 Hval Hs). vm_compute. lia.
Defined.

End HtmlEdgeLaws.

Module SourceLaws.
Import DoublyLinkedBase.

(** X29.  In the source no method of the deque ever returns, and neither
    do [add_before] and [replace] of the positional list, whatever the
    list, the arguments and the store.  [insert_first], [insert_last],
    [add_before] and [replace] also leave the store as it was. *)
Theorem source_methods_never_return L a e w :
  returns (LinkedDeque.first Node_slots L w) = false /\
  returns (LinkedDeque.last Node_slots L w) = false /\
  returns (LinkedDeque.insert_first Node_slots L e w) = false /\
  snd (LinkedDeque.insert_first Node_slots L e w) = w /\
  returns (LinkedDeque.insert_last Node_slots L e w) = false /\
  snd (LinkedDeque.insert_last Node_slots L e w) = w /\
  returns (LinkedDeque.delete_first Node_slots L w) = false /\
  returns (LinkedDeque.delete_last Node_slots L w) = false /\
  returns (PositionalList.add_before Node_slots L a e w) = false /\
  snd (PositionalList.add_before Node_slots L a e w) = w /\
  returns (PositionalList.replace Node_slots L a e w) = false /\
  snd (PositionalList.replace Node_slots L a e w) = w.
Proof.
  repeat split.
  - unfold LinkedDeque.first. apply returns_bind_r. intros [|] w1; [done|].
    do 2 (apply returns_bind_r; intros ? ?). apply source_get_element_returns.
  - unfold LinkedDeque.last. apply returns_bind_r. intros [|] w1; [done|].
    do 2 (apply returns_bind_r; intros ? ?). apply source_get_element_returns.
  - unfold LinkedDeque.insert_first. by do 2 (apply returns_bind_r; intros ? ?).
  - revert w. apply reads_bind; [apply reads_obj|]. intros d.
    apply reads_bind; [apply reads_node_get|]. by intros s w.
  - unfold LinkedDeque.insert_last. by do 2 (apply returns_bind_r; intros ? ?).
  - revert w. apply reads_bind; [apply reads_obj|]. intros d.
    apply reads_bind; [apply reads_node_get|]. by intros s w.
  - unfold LinkedDeque.delete_first. apply returns_bind_r. intros [|] w1; [done|].
    do 2 (apply returns_bind_r; intros ? ?). apply source_delete_node.
  - unfold LinkedDeque.delete_last. apply returns_bind_r. intros [|] w1; [done|].
    do 2 (apply returns_bind_r; intros ? ?). apply source_delete_node.
  - unfold PositionalList.add_before. do 2 (apply returns_bind_r; intros ? ?).
    by rewrite source_insert_between.
  - revert w. apply reads_bind; [apply reads_validate|]. intros d.
    apply reads_bind; [apply reads_node_get|]. intros s w.
    by rewrite source_insert_between.
  - unfold PositionalList.replace. apply returns_bind_r. intros r w1.
    apply returns_bind_l, source_get_element_returns.
  - revert w. apply reads_bind; [apply reads_validate|]. intros r.
    apply reads_bind; [apply reads_node_get|]. intros v w.
    unfold bind.
    destruct (set_element Node_slots r e w) as [[[]|x|] w1] eqn:Hs; revert Hs;
      unfold set_element, node_set; destruct r as [l|]; simpl; congruence.
Qed.

End SourceLaws.
